(** * PokeChat-rag: a shallow embedding of [chatbot-rag/scripts/chat_rag.py]

    The development follows the script top to bottom: the Python string
    primitives it relies on, the conversation memory, the name
    utilities (with the part of [difflib] behind
    [corrigir_nome_pokemon]), the weakness table, the two data
    sources, the answer generator and the main function [responder].

    Modelling conventions.
    - A Python [str] is a [string]: a sequence of 8-bit characters
      (the UTF-8 encoding of the text).  Case mapping and white space
      are the ASCII ones; characters above 127 are left as they are.
    - A value that comes from JSON (the payloads of the remote API and
      the local cache file) is a [json] tree; a Python [dict] is an
      association list in insertion order, looked up by key.
    - Code that may raise returns a [result]; [try ... except
      Exception] turns every [Raise] into the handler's value.
    - The outside world (HTTP, the console) is an explicit [World]; a URL
      is answered the same way each time it is requested. *)

From Stdlib Require Import ZArith QArith Lia.
From Stdlib Require Import Ascii.
From Stdlib Require String.
From stdpp Require Import base tactics option list sorting gmap strings pretty.
From stdpp Require gmultiset.

Set Warnings "-register-all,-clear-no-such-hyp".
Local Open Scope nat_scope.

(** ** Python string primitives *)

Module Py.

Definition code (c : ascii) : nat := nat_of_ascii c.

Definition isupper (c : ascii) : bool := (65 <=? code c) && (code c <=? 90).
Definition islower (c : ascii) : bool := (97 <=? code c) && (code c <=? 122).

(** [str.isspace] on the ASCII range: TAB, LF, VT, FF, CR, the four
    separators 0x1C-0x1F and the space. *)
Definition isspace (c : ascii) : bool :=
  ((9 <=? code c) && (code c <=? 13))
  || ((28 <=? code c) && (code c <=? 31))
  || (code c =? 32).

(** [string.punctuation]: the 32 ASCII punctuation characters, which are
    the codes 33-47, 58-64, 91-96 and 123-126. *)
Definition ispunct (c : ascii) : bool :=
  ((33 <=? code c) && (code c <=? 47))
  || ((58 <=? code c) && (code c <=? 64))
  || ((91 <=? code c) && (code c <=? 96))
  || ((123 <=? code c) && (code c <=? 126)).

Definition to_lower (c : ascii) : ascii :=
  if isupper c then ascii_of_nat (code c + 32) else c.
Definition to_upper (c : ascii) : ascii :=
  if islower c then ascii_of_nat (code c - 32) else c.

Fixpoint smap (f : ascii -> ascii) (s : string) : string :=
  match s with
  | EmptyString => EmptyString
  | String c r => String (f c) (smap f r)
  end.

Fixpoint sfilter (p : ascii -> bool) (s : string) : string :=
  match s with
  | EmptyString => EmptyString
  | String c r => if p c then String c (sfilter p r) else sfilter p r
  end.

(** [s.lower()] *)
Definition lower (s : string) : string := smap to_lower s.

(** [s.capitalize()]: first character upper-cased, the rest lower-cased. *)
Definition capitalize (s : string) : string :=
  match s with
  | EmptyString => EmptyString
  | String c r => String (to_upper c) (lower r)
  end.

Fixpoint lstrip (s : string) : string :=
  match s with
  | EmptyString => EmptyString
  | String c r => if isspace c then lstrip r else s
  end.

(** [s.strip()] *)
Definition strip (s : string) : string :=
  String.rev (lstrip (String.rev (lstrip s))).

(** [s.split()]: the maximal runs of non-space characters. *)
Fixpoint split_go (cur : option string) (s : string) : list string :=
  match s with
  | EmptyString => option_list (String.rev <$> cur)
  | String c r =>
      if isspace c
      then option_list (String.rev <$> cur) ++ split_go None r
      else split_go (Some (String c (default EmptyString cur))) r
  end.
Definition split (s : string) : list string := split_go None s.

(** [s.replace(old, new)] for a one-character [old]. *)
Fixpoint replace (old : ascii) (new : string) (s : string) : string :=
  match s with
  | EmptyString => EmptyString
  | String c r =>
      if Ascii.eqb c old then new +:+ replace old new r
      else String c (replace old new r)
  end.

(** [sep.join(l)] *)
Definition join (sep : string) (l : list string) : string :=
  String.concat sep l.

(** [s.translate(str.maketrans('', '', string.punctuation))] *)
Definition remove_punctuation (s : string) : string :=
  sfilter (fun c => negb (ispunct c)) s.

(** [re.findall(r'[A-Z][a-z]+', s)], as a left-to-right scan.  [cur]
    holds the match being read: its upper-case letter and the lower-case
    letters seen so far (reversed).  A match is closed by the first
    character that is not a lower-case letter, and counts only if it has
    at least one lower-case letter; the closing character may itself
    open the next match. *)
Definition emit (cur : option (ascii * string)) : list string :=
  match cur with
  | Some (u, String c w) => [String u (String.rev (String c w))]
  | _ => []
  end.

Fixpoint findall_go (cur : option (ascii * string)) (s : string)
  : list string :=
  match s with
  | EmptyString => emit cur
  | String c r =>
      match cur with
      | Some (u, w) =>
          if islower c then findall_go (Some (u, String c w)) r
          else emit cur ++
               findall_go (if isupper c then Some (c, EmptyString) else None) r
      | None =>
          findall_go (if isupper c then Some (c, EmptyString) else None) r
      end
  end.
Definition findall_capitalized (s : string) : list string :=
  findall_go None s.

End Py.

(** ** Exceptions *)

Inductive exn : Set :=
| KeyError | TypeError | AttributeError | UnboundLocalError
| RecursionError | JSONDecodeError | RequestException | EOFError.

Inductive result (A : Type) : Type :=
| Ok (a : A)
| Raise (e : exn).
Arguments Ok {A} a.
Arguments Raise {A} e.

Definition bind {A B : Type} (c : result A) (k : A -> result B) : result B :=
  match c with
  | Ok a => k a
  | Raise e => Raise e
  end.

Notation "'do' x <- c ; k" := (bind c (fun x => k))
  (at level 10, x pattern, c at level 100, k at level 200, only parsing).

(** [try: c except Exception: return None] *)
Definition try_or_none {A : Type} (c : result (option A)) : option A :=
  match c with
  | Ok r => r
  | Raise _ => None
  end.

(** A [for] loop that threads an accumulator and stops at the first
    exception. *)
Fixpoint foldE {A B : Type} (f : B -> A -> result B) (acc : B) (l : list A)
  : result B :=
  match l with
  | [] => Ok acc
  | x :: r => do acc <- f acc x; foldE f acc r
  end.

(** A list comprehension whose element expression may raise. *)
Fixpoint mapE {A B : Type} (f : A -> result B) (l : list A)
  : result (list B) :=
  match l with
  | [] => Ok []
  | x :: r => do y <- f x; do ys <- mapE f r; Ok (y :: ys)
  end.

(** ** JSON values as Python sees them *)

Inductive json : Type :=
| JNull
| JBool (b : bool)
| JInt (n : Z)
| JFloat (q : Q)
| JStr (s : string)
| JArr (l : list json)
| JObj (kvs : list (string * json)).

Module Dyn.

Fixpoint assoc {V : Type} (k : string) (kvs : list (string * V)) : option V :=
  match kvs with
  | [] => None
  | (k', v) :: r => if String.eqb k k' then Some v else assoc k r
  end.

(** [v[k]] for a string [k]: only a dict can be subscripted by a string. *)
Definition getitem (v : json) (k : string) : result json :=
  match v with
  | JObj kvs =>
      match assoc k kvs with
      | Some x => Ok x
      | None => Raise KeyError
      end
  | _ => Raise TypeError
  end.

(** [v.get(k, d)]: only a dict has the method. *)
Definition get (v : json) (k : string) (d : json) : result json :=
  match v with
  | JObj kvs => Ok (default d (assoc k kvs))
  | _ => Raise AttributeError
  end.

(** [for x in v]: a list yields its items, a dict its keys, a string its
    characters; nothing else is iterable. *)
Fixpoint chars (s : string) : list json :=
  match s with
  | EmptyString => []
  | String c r => JStr (String c EmptyString) :: chars r
  end.

Definition iter (v : json) : result (list json) :=
  match v with
  | JArr l => Ok l
  | JObj kvs => Ok (map (fun kv => JStr (fst kv)) kvs)
  | JStr s => Ok (chars s)
  | _ => Raise TypeError
  end.

(** A string method called on [v] ([v.lower()], [v.capitalize()],
    [v.replace(..)]): only a [str] has it. *)
Definition as_str (v : json) : result string :=
  match v with
  | JStr s => Ok s
  | _ => Raise AttributeError
  end.

(** [v == s] for a string [s]: never raises. *)
Definition eq_str (v : json) (s : string) : bool :=
  match v with
  | JStr s' => String.eqb s' s
  | _ => false
  end.

(** Truth value of [v] in [if v:]. *)
Definition truthy (v : json) : bool :=
  match v with
  | JNull => false
  | JBool b => b
  | JInt n => negb (n =? 0)%Z
  | JFloat q => negb (Qeq_bool q 0)
  | JStr s => negb (String.eqb s EmptyString)
  | JArr l => match l with [] => false | _ => true end
  | JObj kvs => match kvs with [] => false | _ => true end
  end.

(** Whether [v] can be a dict key: lists and dicts are unhashable. *)
Definition hashable (v : json) : bool :=
  match v with
  | JArr _ | JObj _ => false
  | _ => true
  end.

(** [v / 10]: true division, defined on numbers (a [bool] is one). *)
Definition div10 (v : json) : result json :=
  match v with
  | JInt n => Ok (JFloat (inject_Z n / 10))
  | JBool b => Ok (JFloat (inject_Z (if b then 1 else 0) / 10))
  | JFloat q => Ok (JFloat (q / 10))
  | _ => Raise TypeError
  end.

(** [', '.join(v)]: [v] must be an iterable of strings. *)
Fixpoint all_str (l : list json) : result (list string) :=
  match l with
  | [] => Ok []
  | JStr s :: r => do ss <- all_str r; Ok (s :: ss)
  | _ :: _ => Raise TypeError
  end.

Definition join (sep : string) (v : json) : result string :=
  do l <- iter v; do ss <- all_str l; Ok (Py.join sep ss).

End Dyn.

(** ** Conversation memory (lines 27-38) *)

(** [collections.deque(maxlen=n).append(x)]: push on the right, then drop
    from the left while the bound is exceeded. *)
Definition deque_append {A : Type} (maxlen : nat) (d : list A) (x : A) : list A :=
  let d' := d ++ [x] in
  if maxlen <? length d' then tail d' else d'.

Record MemoriaConversa : Type := {
  historico : list (string * string);
  ultimo_pokemon : option string
}.

(** [MemoriaConversa()] *)
Definition memoria_inicial : MemoriaConversa :=
  {| historico := []; ultimo_pokemon := None |}.

Definition adicionar (m : MemoriaConversa) (pergunta resposta : string)
  : MemoriaConversa :=
  {| historico := deque_append 3 (historico m) (pergunta, resposta);
     ultimo_pokemon := ultimo_pokemon m |}.

Definition contexto (m : MemoriaConversa) : string :=
  Py.join (String "010" EmptyString)
    (map (fun qa => "Q: " +:+ fst qa +:+ String "010" EmptyString
                    +:+ "A: " +:+ snd qa)
         (historico m)).

(** [adicionar] called once for each (question, answer) pair of [l]. *)
Definition adicionar_todos (m : MemoriaConversa) (l : list (string * string))
  : MemoriaConversa :=
  foldl (fun m qa => adicionar m (fst qa) (snd qa)) m l.

(** ** Weakness table (lines 87-114) *)

Definition tabela_tipos : list (string * list string) :=
  [ ("Fire", ["Water"; "Rock"; "Ground"]);
    ("Water", ["Electric"; "Grass"]);
    ("Electric", ["Ground"]);
    ("Grass", ["Fire"; "Ice"; "Poison"; "Flying"; "Bug"]);
    ("Ice", ["Fire"; "Fighting"; "Rock"; "Steel"]);
    ("Fighting", ["Flying"; "Psychic"; "Fairy"]);
    ("Poison", ["Ground"; "Psychic"]);
    ("Ground", ["Water"; "Grass"; "Ice"]);
    ("Flying", ["Electric"; "Ice"; "Rock"]);
    ("Psychic", ["Bug"; "Ghost"; "Dark"]);
    ("Bug", ["Fire"; "Flying"; "Rock"]);
    ("Rock", ["Water"; "Grass"; "Fighting"; "Ground"; "Steel"]);
    ("Ghost", ["Ghost"; "Dark"]);
    ("Dragon", ["Ice"; "Dragon"; "Fairy"]);
    ("Dark", ["Fighting"; "Bug"; "Fairy"]);
    ("Steel", ["Fire"; "Fighting"; "Ground"]);
    ("Fairy", ["Poison"; "Steel"]) ].

(** [sorted(s)] for a set of strings: its elements in increasing order. *)
Definition sorted (s : gset string) : list string :=
  merge_sort String.le (elements s).

(** The loop of lines 109-112.  [tipo in tabela_tipos] hashes [tipo], so a
    list or a dict raises; any other value that is not a key of the table
    adds nothing. *)
Definition acumular (fraquezas : gset string) (tipo : json)
  : result (gset string) :=
  match tipo with
  | JStr t =>
      match Dyn.assoc t tabela_tipos with
      | Some contra => Ok (fraquezas ∪ list_to_set contra)
      | None => Ok fraquezas
      end
  | JArr _ | JObj _ => Raise TypeError
  | _ => Ok fraquezas
  end.

Definition calcular_fraquezas (tipos : json) : result (list string) :=
  do l <- Dyn.iter tipos;
  do fraquezas <- foldE acumular ∅ l;
  Ok (sorted fraquezas).

(** The counter-types of one type name: empty when it is not a key. *)
Definition contra (t : string) : gset string :=
  list_to_set (default [] (Dyn.assoc t tabela_tipos)).

(** A Python list of strings. *)
Definition lista (l : list string) : json := JArr (JStr <$> l).

(** ** The part of [difflib] behind [get_close_matches]

    [SequenceMatcher(None, a, b)] with the default [autojunk=True]: no
    element is junk, and when [b] has 200 elements or more, the elements
    that occur in more than [len(b) // 100 + 1] places are "popular" and
    are left out of the index [b2j].

    A similarity score is a Python [float], [2.0 * matches / length]; it is
    modelled by the rational it rounds.  Rounding is monotone, so every
    comparison below agrees with the one on floats as long as the total
    length stays far below 2^53. *)

Module Difflib.

Definition triple : Type := nat * nat * nat.
Definition size_of (t : triple) : nat := snd t.

Section SequenceMatcher.
Context {A : Type} `{Countable A}.
Variables a b : list A.

(** *** [__chain_b] (the index of [b]) *)

Fixpoint indices_from (i : nat) (elt : A) (l : list A) : list nat :=
  match l with
  | [] => []
  | x :: r =>
      if decide (x = elt) then i :: indices_from (S i) elt r
      else indices_from (S i) elt r
  end.

Definition popular (elt : A) : bool :=
  (200 <=? length b)
  && (length b / 100 + 1 <? length (indices_from 0 elt b)).

(** [b2j.get(elt, [])] *)
Definition b2j (elt : A) : list nat :=
  if popular elt then [] else indices_from 0 elt b.

(** [self.bjunk] is empty: [isjunk] is [None]. *)
Definition isbjunk (elt : A) : bool := false.

(** *** [find_longest_match] *)

(** [j2len.get(j-1, 0)]: the key [-1] is never present. *)
Definition j2lenget (j2len : gmap nat nat) (j : nat) : nat :=
  match j with
  | O => 0
  | S j' => default 0 (j2len !! j')
  end.

(** The inner loop: [for j in b2j.get(a[i], nothing)]. *)
Fixpoint scan_row (blo bhi i : nat) (js : list nat)
    (j2len newj2len : gmap nat nat) (best : triple)
  : gmap nat nat * triple :=
  match js with
  | [] => (newj2len, best)
  | j :: js' =>
      if j <? blo then scan_row blo bhi i js' j2len newj2len best
      else if bhi <=? j then (newj2len, best)
      else
        let k := j2lenget j2len j + 1 in
        let newj2len := <[j := k]> newj2len in
        let best := if size_of best <? k
                    then (i + 1 - k, j + 1 - k, k) else best in
        scan_row blo bhi i js' j2len newj2len best
  end.

(** The outer loop: [for i in range(alo, ahi)]. *)
Fixpoint scan_rows (blo bhi : nat) (rows : list nat)
    (j2len : gmap nat nat) (best : triple) : triple :=
  match rows with
  | [] => best
  | i :: rows' =>
      match a !! i with
      | Some elt =>
          let '(newj2len, best') :=
            scan_row blo bhi i (b2j elt) j2len ∅ best in
          scan_rows blo bhi rows' newj2len best'
      | None => best
      end
  end.

(** [a[i] == b[j]], together with the junk test of the loop at hand. *)
Definition same (junk : bool) (i j : nat) : bool :=
  match a !! i, b !! j with
  | Some x, Some y => bool_decide (x = y) && Bool.eqb (isbjunk y) junk
  | _, _ => false
  end.

(** [while besti > alo and bestj > blo and .. a[besti-1] == b[bestj-1]] *)
Fixpoint extend_left (junk : bool) (alo blo besti bestj bestsize : nat)
  : triple :=
  match besti, bestj with
  | S i', S j' =>
      if (alo <? besti) && (blo <? bestj) && same junk i' j'
      then extend_left junk alo blo i' j' (S bestsize)
      else (besti, bestj, bestsize)
  | _, _ => (besti, bestj, bestsize)
  end.

(** [while besti+bestsize < ahi and bestj+bestsize < bhi and ..]; the
    loop runs at most [ahi - (besti+bestsize)] times, which is the
    [fuel] it is given. *)
Fixpoint extend_right (junk : bool) (ahi bhi besti bestj : nat)
    (fuel bestsize : nat) : nat :=
  match fuel with
  | O => bestsize
  | S fuel' =>
      if (besti + bestsize <? ahi) && (bestj + bestsize <? bhi)
         && same junk (besti + bestsize) (bestj + bestsize)
      then extend_right junk ahi bhi besti bestj fuel' (S bestsize)
      else bestsize
  end.

Definition find_longest_match (alo ahi blo bhi : nat) : triple :=
  let '(besti, bestj, bestsize) :=
    scan_rows blo bhi (seq alo (ahi - alo)) ∅ (alo, blo, 0) in
  let '(besti, bestj, bestsize) :=
    extend_left false alo blo besti bestj bestsize in
  let bestsize :=
    extend_right false ahi bhi besti bestj
      (ahi - (besti + bestsize)) bestsize in
  let '(besti, bestj, bestsize) :=
    extend_left true alo blo besti bestj bestsize in
  let bestsize :=
    extend_right true ahi bhi besti bestj
      (ahi - (besti + bestsize)) bestsize in
  (besti, bestj, bestsize).

(** *** [get_matching_blocks] *)

Definition range : Type := nat * nat * nat * nat.

(** The [while queue:] loop.  The Python list [queue] is used as a
    stack; here its top is the head.  Each turn removes at least one
    element of [a] from the ranges still to visit, or closes a range,
    so [2 * len(a) + 1] turns are enough. *)
Fixpoint blocks_loop (fuel : nat) (queue : list range)
    (matching_blocks : list triple) : list triple :=
  match fuel with
  | O => matching_blocks
  | S fuel' =>
      match queue with
      | [] => matching_blocks
      | (alo, ahi, blo, bhi) :: queue =>
          let '(i, j, k) := find_longest_match alo ahi blo bhi in
          if k =? 0 then blocks_loop fuel' queue matching_blocks
          else
            let matching_blocks := matching_blocks ++ [(i, j, k)] in
            let queue :=
              if (alo <? i) && (blo <? j)
              then (alo, i, blo, j) :: queue else queue in
            let queue :=
              if (i + k <? ahi) && (j + k <? bhi)
              then (i + k, ahi, j + k, bhi) :: queue else queue in
            blocks_loop fuel' queue matching_blocks
      end
  end.

(** Tuples of integers compare lexicographically. *)
Definition triple_le (x y : triple) : Prop :=
  let '(i1, j1, k1) := x in
  let '(i2, j2, k2) := y in
  i1 < i2 \/ (i1 = i2 /\ (j1 < j2 \/ (j1 = j2 /\ k1 <= k2))).

Global Instance triple_le_dec : RelDecision triple_le.
Proof. intros [[i1 j1] k1] [[i2 j2] k2]. simpl. apply _. Defined.

(** The loop that collapses adjacent blocks. *)
Fixpoint collapse (cur : triple) (blocks : list triple) : list triple :=
  let '(i1, j1, k1) := cur in
  match blocks with
  | [] => if k1 =? 0 then [] else [cur]
  | (i2, j2, k2) :: rest =>
      if (i1 + k1 =? i2) && (j1 + k1 =? j2)
      then collapse (i1, j1, k1 + k2) rest
      else (if k1 =? 0 then [] else [cur]) ++ collapse (i2, j2, k2) rest
  end.

Definition get_matching_blocks : list triple :=
  let la := length a in
  let lb := length b in
  let matching_blocks :=
    blocks_loop (2 * la + 1) [(0, la, 0, lb)] [] in
  let matching_blocks := merge_sort triple_le matching_blocks in
  collapse (0, 0, 0) matching_blocks ++ [(la, lb, 0)].

(** *** The three ratios *)

Definition calculate_ratio (matches length : nat) : Q :=
  match length with
  | O => 1
  | _ => 2 * inject_Z (Z.of_nat matches) / inject_Z (Z.of_nat length)
  end.

(** [sum(triple[-1] for triple in blocks)] *)
Definition total (l : list triple) : nat := sum_list_with size_of l.

Definition ratio : Q :=
  calculate_ratio (total get_matching_blocks) (length a + length b).

(** [fullbcount]: how many times each element occurs in [b]. *)
Definition fullbcount : gmap A Z :=
  foldl (fun m elt => <[elt := default 0%Z (m !! elt) + 1]> m)%Z ∅ b.

Definition quick_step (st : gmap A Z * nat) (elt : A) : gmap A Z * nat :=
  let '(avail, matches) := st in
  let numb :=
    match avail !! elt with
    | Some n => n
    | None => default 0%Z (fullbcount !! elt)
    end in
  (<[elt := (numb - 1)%Z]> avail,
   if (0 <? numb)%Z then matches + 1 else matches).

Definition quick_ratio : Q :=
  calculate_ratio (snd (foldl quick_step (∅, 0) a)) (length a + length b).

Definition real_quick_ratio : Q :=
  calculate_ratio (Nat.min (length a) (length b)) (length a + length b).

(** *** Notions used in the proofs *)

(** [a[i:i+k] == b[j:j+k]], both slices in range. *)
Definition match_at (i j k : nat) : Prop :=
  forall t, t < k -> exists x, a !! (i + t) = Some x /\ b !! (j + t) = Some x.

(** A matching block inside the window [a[alo:ahi]], [b[blo:bhi]]. *)
Definition bloco_ok (alo ahi blo bhi : nat) (t : triple) : Prop :=
  let '(i, j, k) := t in
  alo <= i /\ i + k <= ahi /\ blo <= j /\ j + k <= bhi /\ match_at i j k.

(** What [j2len] holds when row [i] is about to be scanned: for each [j],
    the length of a match that ends at [a[i-1]] and [b[j]]. *)
Definition dict_ok (alo blo bhi i : nat) (d : gmap nat nat) : Prop :=
  forall j k, d !! j = Some k ->
    1 <= k /\ alo + k <= i /\ blo + k <= j + 1 /\ j < bhi
    /\ match_at (i - k) (j + 1 - k) k.

(** On the diagonal ([a] against itself): the number of elements in a row
    that end at index [i] and are all in the index [b2j]. *)
Fixpoint diag (i : nat) : nat :=
  let indexed :=
    match a !! i with
    | Some x => negb (popular x)
    | None => false
    end in
  match i with
  | O => if indexed then 1 else 0
  | S r => if indexed then S (diag r) else 0
  end.

(** What [j2len] holds after row [r] when [a] is matched against itself:
    no entry exceeds the diagonal runs of its row and of its column. *)
Definition under_diag (r : nat) (d : gmap nat nat) : Prop :=
  forall j k, d !! j = Some k -> 1 <= k /\ k <= diag r /\ k <= diag j.

Definition prev_diag (i : nat) (d : gmap nat nat) : Prop :=
  match i with
  | O => d = ∅
  | S r => under_diag r d /\ (0 < diag r -> d !! r = Some (diag r))
  end.

(** The recursion that the queue of [get_matching_blocks] unrolls: the
    block of a window, then the blocks to its right, then those to its
    left, in the order in which the loop appends them.  [n] bounds the
    depth; [S (ahi - alo)] is enough. *)
Fixpoint blocks_rec (n : nat) (r : range) : list triple :=
  match n with
  | O => []
  | S n =>
      let '(alo, ahi, blo, bhi) := r in
      let '(i, j, k) := find_longest_match alo ahi blo bhi in
      if k =? 0 then []
      else
        (i, j, k)
        :: (if (i + k <? ahi) && (j + k <? bhi)
            then blocks_rec n (i + k, ahi, j + k, bhi) else [])
        ++ (if (alo <? i) && (blo <? j)
            then blocks_rec n (alo, i, blo, j) else [])
  end.

(** The number of turns the loop spends on a window. *)
Fixpoint turns (n : nat) (r : range) : nat :=
  match n with
  | O => 0
  | S n =>
      let '(alo, ahi, blo, bhi) := r in
      let '(i, j, k) := find_longest_match alo ahi blo bhi in
      if k =? 0 then 1
      else
        1 + (if (i + k <? ahi) && (j + k <? bhi)
             then turns n (i + k, ahi, j + k, bhi) else 0)
          + (if (alo <? i) && (blo <? j)
             then turns n (alo, i, blo, j) else 0)
  end.

End SequenceMatcher.

(** *** [get_close_matches(word, possibilities, n=1)] with the default
    [cutoff=0.6] *)

Definition cutoff : Q := 6 # 10.

Definition chars (s : string) : list ascii := String.list_ascii_of_string s.

(** [(score1, x1) > (score2, x2)] on tuples: the first components decide
    unless they are equal. *)
Definition scored_gt (p1 p2 : Q * string) : bool :=
  if Qeq_bool (fst p1) (fst p2) then String.ltb (snd p2) (snd p1)
  else negb (Qle_bool (fst p1) (fst p2)).

(** [max(result)]: the first of the greatest elements. *)
Definition max_scored (first : Q * string) (rest : list (Q * string))
  : Q * string :=
  foldl (fun m p => if scored_gt p m then p else m) first rest.

(** [heapq.nlargest(1, result)] *)
Definition nlargest1 (result : list (Q * string)) : list (Q * string) :=
  match result with
  | [] => []
  | p :: rest => [max_scored p rest]
  end.

(** The loop [for x in possibilities] with [s.set_seq1(x)] on a matcher
    whose second sequence is [word]. *)
Definition close_enough (word x : string) : bool :=
  Qle_bool cutoff (real_quick_ratio (chars x) (chars word))
  && Qle_bool cutoff (quick_ratio (chars x) (chars word))
  && Qle_bool cutoff (ratio (chars x) (chars word)).

Definition scored (word : string) (possibilities : list string)
  : list (Q * string) :=
  omap (fun x =>
          if close_enough word x
          then Some (ratio (chars x) (chars word), x) else None)
       possibilities.

Definition get_close_matches (word : string) (possibilities : list string)
  : list string :=
  map snd (nlargest1 (scored word possibilities)).

(** Two notions for the proofs.  A scored candidate for [word] is at most
    1, and is 1 only for [word] itself; the exact candidate is [word] with
    its score, 1. *)
Definition possivel (word : string) (p : Q * string) : Prop :=
  (fst p <= 1)%Q /\ (fst p == 1 -> snd p = word).

Definition exato (word : string) (p : Q * string) : Prop :=
  fst p == 1 /\ snd p = word.

End Difflib.

(** ** The outside world *)

(** What [requests.get(url, timeout=5)] does: it raises (no connection,
    timeout), or returns a response with a status code and a body that
    [.json()] parses or rejects. *)
Inductive http_result : Type :=
| NoResponse
| Response (status_code : Z) (body : option json).

Record World : Type := {
  (** the remote API *)
  http : string -> http_result;
  (** [input(prompt)]: the line typed at the console, or [EOFError] *)
  input : string -> result string;
  (** how many nested calls the interpreter still allows *)
  recursion_limit : nat;
  (** [str(v)] for the values whose text is not spelled out here: floats,
      lists and dicts *)
  py_str : json -> string;
  (** [v1 > v2] for the pairs of values not spelled out here *)
  py_gt : json -> json -> result bool
}.

(** An f-string field [{v}]: the string itself, [None], [True], [False],
    the decimal digits of an integer; otherwise what [str] gives. *)
Definition formatar (w : World) (v : json) : string :=
  match v with
  | JStr s => s
  | JNull => "None"
  | JBool true => "True"
  | JBool false => "False"
  | JInt n => pretty n
  | _ => py_str w v
  end.

(** [v1 > v2]: integers compare by value, [None] is not ordered;
    otherwise what [>] gives. *)
Definition maior (w : World) (v1 v2 : json) : result bool :=
  match v1, v2 with
  | JInt n1, JInt n2 => Ok (n2 <? n1)%Z
  | JNull, _ | _, JNull => Raise TypeError
  | _, _ => py_gt w v1 v2
  end.

Definition requests_get (w : World) (url : json) : result (Z * option json) :=
  match url with
  | JStr u =>
      match http w u with
      | NoResponse => Raise RequestException
      | Response status body => Ok (status, body)
      end
  | _ => Raise RequestException
  end.

(** [response.json()] *)
Definition response_json (body : option json) : result json :=
  match body with
  | Some v => Ok v
  | None => Raise JSONDecodeError
  end.

(** ** The records built by the two data sources

    Both sources return a dict with the same nine keys.  [stats] is itself
    a dict; it is kept as the sequence of its insertions, and read by
    string key, the last insertion of a key being the one that counts. *)

Definition pydict : Type := list (json * json).

Fixpoint pydict_get (d : pydict) (k : string) : option json :=
  match d with
  | [] => None
  | (k', v) :: r =>
      match pydict_get r k with
      | Some x => Some x
      | None => if Dyn.eq_str k' k then Some v else None
      end
  end.

(** [d[k]] *)
Definition pydict_getitem (d : pydict) (k : string) : result json :=
  match pydict_get d k with
  | Some v => Ok v
  | None => Raise KeyError
  end.

Record Dados : Type := {
  nome : string;
  tipos : json;
  habilidades : json;
  altura : json;
  peso : json;
  stats : pydict;
  descricao : json;
  evolucao : json;
  fonte : string
}.

Inductive Intencao : Set :=
| Ataque | Defesa | Tipo | Habilidade | Evolucao
| Fraqueza | Localizacao | Comparar | Geral.

(** ** The script *)

(** Line 14: [NOMES_VALIDOS = [p["nome"].lower() for p in cache_local]]. *)
Definition nomes_validos (cache_local : json) : result (list string) :=
  do pokes <- Dyn.iter cache_local;
  mapE (fun p => do n <- Dyn.getitem p "nome";
                 do s <- Dyn.as_str n;
                 Ok (Py.lower s))
       pokes.

Definition CORRECOES_API : list (string * string) :=
  [ ("nidoran(f)", "nidoran-f");
    ("nidoran(m)", "nidoran-m");
    ("mr. mime", "mr-mime");
    ("farfetch'd", "farfetchd") ].

Section Script.

(** The globals of the module: the parsed cache file, the list of names
    computed from it when the module is loaded, and the world. *)
Variable cache_local : json.
Variable NOMES_VALIDOS : list string.
Variable mundo : World.

(** [detectar_intencao] (lines 65-84) classifies the question with
    Unicode-aware regular expressions; it is kept abstract, since
    nothing below depends on which intent it picks. *)
Variable detectar_intencao : string -> Intencao.

(** *** Utilities (lines 41-63) *)

Definition corrigir_capitalizacao (texto : string) : string :=
  Py.join " " (Py.capitalize <$> Py.split texto).

Definition limpar_nome (nome : string) : string :=
  Py.strip (Py.remove_punctuation nome).

Definition corrigir_nome_pokemon (nome_digitado : string) : string :=
  match Difflib.get_close_matches (Py.lower nome_digitado) NOMES_VALIDOS with
  | sugestao :: _ => sugestao
  | [] => Py.lower nome_digitado
  end.

Definition normalizar_nome_para_api (nome : string) : string :=
  let nome_limpo := Py.strip (Py.lower nome) in
  let nome_limpo := default nome_limpo (Dyn.assoc nome_limpo CORRECOES_API) in
  Py.replace "'" "" (Py.replace "." "" (Py.replace " " "-" nome_limpo)).

Definition extrair_nomes_de_pokemon (texto : string) : list string :=
  let palavras := Py.split texto in
  omap (fun palavra =>
          let palavra_limpa := Py.lower (limpar_nome palavra) in
          if bool_decide (palavra_limpa ∈ NOMES_VALIDOS)
          then Some (Py.capitalize palavra) else None)
       palavras.

(** *** [buscar_na_pokeapi] (lines 117-177) *)

(** Line 133: the dict comprehension over [poke_data.get("stats", [])]. *)
Definition stat_item (stat : json) : result (json * json) :=
  do s <- Dyn.getitem stat "stat";
  do k <- Dyn.getitem s "name";
  do v <- Dyn.getitem stat "base_stat";
  if Dyn.hashable k then Ok (k, v) else Raise TypeError.

(** Lines 140-145: [next((.. for entry in .. if ..), default)]. *)
Fixpoint primeira_descricao (entries : list json) : result string :=
  match entries with
  | [] => Ok "Descrição não encontrada."
  | entry :: r =>
      do l <- Dyn.getitem entry "language";
      do n <- Dyn.getitem l "name";
      if Dyn.eq_str n "en" then
        do t <- Dyn.getitem entry "flavor_text";
        do t <- Dyn.as_str t;
        Ok (Py.replace "010" " " t)
      else primeira_descricao r
  end.

(** Lines 154-159.  [evolucoes] is the list of the enclosing scope, which
    the function extends in place; here it is passed along. *)
Fixpoint extrair_evolucoes (depth : nat) (nome_corrigido : string)
    (evolucoes : list string) (chain : json) : result (list string) :=
  match depth with
  | O => Raise RecursionError
  | S depth =>
      do species <- Dyn.getitem chain "species";
      do n <- Dyn.getitem species "name";
      do n <- Dyn.as_str n;
      let nome_evo := Py.capitalize n in
      let evolucoes :=
        if negb (String.eqb (Py.lower nome_evo) nome_corrigido)
        then evolucoes ++ [nome_evo] else evolucoes in
      do evos <- Dyn.get chain "evolves_to" (JArr []);
      do evos <- Dyn.iter evos;
      foldE (extrair_evolucoes depth nome_corrigido) evolucoes evos
  end.

(** Lines 148-162, inside [if species_response.status_code == 200]. *)
Definition processar_evolucao (nome_corrigido : string) (species_data : json)
  : result json :=
  let evolucao := lista ["Não evolui"] in
  match species_data with
  | JObj kvs =>
      match Dyn.assoc "evolution_chain" kvs with
      | Some evolution_chain =>
          do chain_url <- Dyn.getitem evolution_chain "url";
          do r <- requests_get mundo chain_url;
          do chain_data <- response_json (snd r);
          if Dyn.truthy chain_data then
            do chain <- Dyn.getitem chain_data "chain";
            do evolucoes <-
              extrair_evolucoes (recursion_limit mundo) nome_corrigido [] chain;
            match evolucoes with
            | [] => Ok evolucao
            | _ => Ok (lista evolucoes)
            end
          else Ok evolucao
      | None => Ok evolucao
      end
  | _ =>
      (* not reached: line 142 has subscripted [species_data] with a
         string, which only a dict allows *)
      Raise TypeError
  end.

(** Lines 166-167: [[t[k1]["name"].capitalize() for t in
    poke_data.get(k, [])]]. *)
Definition nomes_capitalizados (poke_data : json) (k k1 : string)
  : result json :=
  do l <- Dyn.get poke_data k (JArr []);
  do l <- Dyn.iter l;
  do ns <- mapE (fun t => do x <- Dyn.getitem t k1;
                          do n <- Dyn.getitem x "name";
                          do n <- Dyn.as_str n;
                          Ok (Py.capitalize n))
                l;
  Ok (lista ns).

Definition buscar_na_pokeapi_body (nome_ : string) : result (option Dados) :=
  let nome_limpo := limpar_nome nome_ in
  let nome_corrigido := corrigir_nome_pokemon nome_limpo in
  let nome_api := normalizar_nome_para_api nome_corrigido in
  let poke_url := "https://pokeapi.co/api/v2/pokemon/" +:+ nome_api in
  let species_url :=
    "https://pokeapi.co/api/v2/pokemon-species/" +:+ nome_api in
  do poke_response <- requests_get mundo (JStr poke_url);
  if negb (fst poke_response =? 200)%Z then Ok None else
  do poke_data <- response_json (snd poke_response);
  do l <- Dyn.get poke_data "stats" (JArr []);
  do l <- Dyn.iter l;
  do stats <- mapE stat_item l;
  let descricao := "Descrição não disponível." in
  do species_response <- requests_get mundo (JStr species_url);
  (** [evolucao] is bound only inside the [if]: [None] is "unbound". *)
  do (descricao, evolucao) <-
    (if (fst species_response =? 200)%Z then
       do species_data <- response_json (snd species_response);
       do entries <- Dyn.getitem species_data "flavor_text_entries";
       do entries <- Dyn.iter entries;
       do descricao <- primeira_descricao entries;
       do evolucao <- processar_evolucao nome_corrigido species_data;
       Ok (descricao, Some evolucao)
     else Ok (descricao, None));
  do tipos <- nomes_capitalizados poke_data "types" "type";
  do habilidades <- nomes_capitalizados poke_data "abilities" "ability";
  do altura <- (do h <- Dyn.get poke_data "height" (JInt 0); Dyn.div10 h);
  do peso <- (do p <- Dyn.get poke_data "weight" (JInt 0); Dyn.div10 p);
  match evolucao with
  | None => Raise UnboundLocalError
  | Some evolucao =>
      Ok (Some {| nome := Py.capitalize nome_corrigido;
                  tipos := tipos;
                  habilidades := habilidades;
                  altura := altura;
                  peso := peso;
                  stats := stats;
                  descricao := JStr descricao;
                  evolucao := evolucao;
                  fonte := "PokéAPI" |})
  end.

(** The whole body runs under [try: .. except Exception: return None]. *)
Definition buscar_na_pokeapi (nome_ : string) : option Dados :=
  try_or_none (buscar_na_pokeapi_body nome_).

(** *** [buscar_no_json] (lines 179-201) *)

Definition registro_do_cache (poke : json) : result Dados :=
  do n <- Dyn.getitem poke "nome";
  do n <- Dyn.as_str n;
  do tipos <- Dyn.get poke "tipos" (JArr []);
  do habilidades <- Dyn.get poke "habilidades" (JArr []);
  do altura <- Dyn.get poke "altura" (JStr "N/A");
  do peso <- Dyn.get poke "peso" (JStr "N/A");
  do st <- Dyn.getitem poke "stats";
  do hp <- Dyn.get st "hp" JNull;
  do st <- Dyn.getitem poke "stats";
  do attack <- Dyn.get st "ataque" JNull;
  do st <- Dyn.getitem poke "stats";
  do defense <- Dyn.get st "defesa" JNull;
  do st <- Dyn.getitem poke "stats";
  do special_attack <- Dyn.get st "ataque_especial" JNull;
  do st <- Dyn.getitem poke "stats";
  do special_defense <- Dyn.get st "defesa_especial" JNull;
  do st <- Dyn.getitem poke "stats";
  do speed <- Dyn.get st "velocidade" JNull;
  do descricao <- Dyn.get poke "descricao" (JStr "Descrição não disponível.");
  do evolucao <- Dyn.get poke "evolucao" (lista ["Não evolui"]);
  Ok {| nome := n;
        tipos := tipos;
        habilidades := habilidades;
        altura := altura;
        peso := peso;
        stats := [ (JStr "hp", hp);
                   (JStr "attack", attack);
                   (JStr "defense", defense);
                   (JStr "special-attack", special_attack);
                   (JStr "special-defense", special_defense);
                   (JStr "speed", speed) ];
        descricao := descricao;
        evolucao := evolucao;
        fonte := "Cache Local" |}.

(** The loop [for poke in cache_local]. *)
Fixpoint procurar (nome_corrigido : string) (pokes : list json)
  : result (option Dados) :=
  match pokes with
  | [] => Ok None
  | poke :: r =>
      do n <- Dyn.get poke "nome" (JStr "");
      do n <- Dyn.as_str n;
      if String.eqb (Py.lower n) nome_corrigido
      then do d <- registro_do_cache poke; Ok (Some d)
      else procurar nome_corrigido r
  end.

Definition buscar_no_json (nome_ : string) : result (option Dados) :=
  let nome_corrigido := corrigir_nome_pokemon (limpar_nome nome_) in
  do pokes <- Dyn.iter cache_local;
  procurar nome_corrigido pokes.

(** *** [gerar_resposta] (lines 204-282) *)

(** [dados1 = buscar_na_pokeapi(p) or buscar_no_json(p)] *)
Definition buscar (p : string) : result (option Dados) :=
  match buscar_na_pokeapi p with
  | Some d => Ok (Some d)
  | None => buscar_no_json p
  end.

(** One turn of the loop of lines 248-256. *)
Definition comparar_stat (poke1 poke2 : string) (dados1 dados2 : Dados)
    (stat : string) : result string :=
  let val1 := default (JInt 0) (pydict_get (stats dados1) stat) in
  let val2 := default (JInt 0) (pydict_get (stats dados2) stat) in
  do g <- maior mundo val1 val2;
  if g then
    Ok (poke1 +:+ " tem mais " +:+ stat +:+ " (" +:+ formatar mundo val1
        +:+ " vs " +:+ formatar mundo val2 +:+ ")")
  else
    do g <- maior mundo val2 val1;
    if g then
      Ok (poke2 +:+ " tem mais " +:+ stat +:+ " (" +:+ formatar mundo val2
          +:+ " vs " +:+ formatar mundo val1 +:+ ")")
    else Ok ("Empate em " +:+ stat +:+ " (" +:+ formatar mundo val1 +:+ ")").

Definition dica_comparar : string :=
  "Por favor, pergunte algo como 'Quem é mais forte: Charizard ou Blastoise?'".

Definition nl : string := String "010" EmptyString.

(** Lines 247-265, once both records are there. *)
Definition comparacao_texto (poke1 poke2 : string) (dados1 dados2 : Dados)
  : result string :=
  do comparacao <-
    mapE (comparar_stat poke1 poke2 dados1 dados2)
         ["attack"; "defense"; "hp"; "speed"];
  do a1 <- pydict_getitem (stats dados1) "attack";
  do a2 <- pydict_getitem (stats dados2) "attack";
  do d1 <- pydict_getitem (stats dados1) "defense";
  do d2 <- pydict_getitem (stats dados2) "defense";
  do h1 <- pydict_getitem (stats dados1) "hp";
  do h2 <- pydict_getitem (stats dados2) "hp";
  do s1 <- pydict_getitem (stats dados1) "speed";
  do s2 <- pydict_getitem (stats dados2) "speed";
  Ok ("⚖️ Comparação entre " +:+ poke1 +:+ " e " +:+ poke2 +:+ ":" +:+ nl
      +:+ "🔥 Ataque: " +:+ formatar mundo a1 +:+ " vs " +:+ formatar mundo a2 +:+ nl
      +:+ "🛡️ Defesa: " +:+ formatar mundo d1 +:+ " vs " +:+ formatar mundo d2 +:+ nl
      +:+ "❤️ HP: " +:+ formatar mundo h1 +:+ " vs " +:+ formatar mundo h2 +:+ nl
      +:+ "⚡ Velocidade: " +:+ formatar mundo s1 +:+ " vs " +:+ formatar mundo s2 +:+ nl
      +:+ nl +:+ "🔍 Análise:" +:+ nl
      +:+ Py.join nl (take 3 comparacao)).

(** The branch [intencao == 'comparar'] (lines 237-267). *)
Definition comparar (memoria : MemoriaConversa) : result string :=
  let contexto := contexto memoria in
  let pokemons := Py.findall_capitalized contexto in
  match pokemons with
  | poke1 :: poke2 :: _ =>
      do dados1 <- buscar poke1;
      do dados2 <- buscar poke2;
      match dados1, dados2 with
      | Some dados1, Some dados2 => comparacao_texto poke1 poke2 dados1 dados2
      | _, _ => Ok dica_comparar
      end
  | _ => Ok dica_comparar
  end.

Definition locais : list (string * string) :=
  [ ("Pikachu", "Floresta de Viridian");
    ("Charizard", "Montanha da Liga Pokémon");
    ("Blastoise", "Lagos do Vale Celeste") ].

Definition gerar_resposta (memoria : MemoriaConversa) (intencao : Intencao)
    (dados : Dados) : result string :=
  let nome := nome dados in
  match intencao with
  | Ataque =>
      do v <- pydict_getitem (stats dados) "attack";
      Ok ("⚔️ " +:+ nome +:+ " tem " +:+ formatar mundo v +:+ " de ataque base!")
  | Defesa =>
      do v <- pydict_getitem (stats dados) "defense";
      Ok ("🛡️ " +:+ nome +:+ " tem " +:+ formatar mundo v +:+ " de defesa base!")
  | Tipo =>
      do t <- Dyn.join ", " (tipos dados);
      Ok ("🌿 " +:+ nome +:+ " é do tipo: " +:+ t)
  | Habilidade =>
      do h <- Dyn.join ", " (habilidades dados);
      Ok ("✨ Habilidades de " +:+ nome +:+ ": " +:+ h)
  | Evolucao =>
      do e <- Dyn.join ", " (evolucao dados);
      Ok ("🔮 " +:+ nome +:+ " evolui para: " +:+ e)
  | Fraqueza =>
      do fraquezas <- calcular_fraquezas (tipos dados);
      Ok ("⚠️ " +:+ nome +:+ " é fraco contra: "
          +:+ match fraquezas with
              | [] => "Nenhum tipo em especial"
              | _ => Py.join ", " fraquezas
              end)
  | Localizacao =>
      let local :=
        default "Localização desconhecida na primeira geração"
                (Dyn.assoc nome locais) in
      Ok ("🗺️ " +:+ nome +:+ " pode ser encontrado em: " +:+ local)
  | Comparar => comparar memoria
  | Geral =>
      do t <- Dyn.join ", " (tipos dados);
      do h <- Dyn.join ", " (habilidades dados);
      do hp <- pydict_getitem (stats dados) "hp";
      do at_ <- pydict_getitem (stats dados) "attack";
      do de <- pydict_getitem (stats dados) "defense";
      do sp <- pydict_getitem (stats dados) "speed";
      do e <- Dyn.join ", " (evolucao dados);
      Ok ("📘 " +:+ nome +:+ " (" +:+ fonte dados +:+ ")" +:+ nl
          +:+ "🌿 Tipos: " +:+ t +:+ nl
          +:+ "✨ Habilidades: " +:+ h +:+ nl
          +:+ "📖 Descrição: " +:+ formatar mundo (descricao dados) +:+ nl
          +:+ "📏 Altura: " +:+ formatar mundo (altura dados)
          +:+ "m | Peso: " +:+ formatar mundo (peso dados) +:+ "kg" +:+ nl
          +:+ "⚔️ Stats:" +:+ nl
          +:+ "  - HP: " +:+ formatar mundo hp +:+ nl
          +:+ "  - Ataque: " +:+ formatar mundo at_ +:+ nl
          +:+ "  - Defesa: " +:+ formatar mundo de +:+ nl
          +:+ "  - Velocidade: " +:+ formatar mundo sp +:+ nl
          +:+ "🔮 Evolução: " +:+ e)
  end.

(** *** [responder] (lines 285-321) *)

(** Lines 293-294: no name in the question, fall back on the last one. *)
Definition com_historico (memoria : MemoriaConversa)
    (nomes_detectados : list string) : list string :=
  match nomes_detectados, ultimo_pokemon memoria with
  | [], Some u => if String.eqb u EmptyString then [] else [u]
  | _, _ => nomes_detectados
  end.

Definition pergunta_confirmacao (n0 n1 : string) : string :=
  "Você quis dizer " +:+ n0 +:+ " ou " +:+ n1 +:+ "? (1/2): ".

(** Lines 297-299: the confirmation for ambiguous names. *)
Definition confirmar (nomes_detectados : list string)
  : result (list string) :=
  match nomes_detectados with
  | n0 :: n1 :: _ =>
      do confirmacao <- input mundo (pergunta_confirmacao n0 n1);
      Ok [if String.eqb confirmacao "1" then n0 else n1]
  | _ => Ok nomes_detectados
  end.

(** Lines 305-312: the loop over the names, without the assignment to
    [memoria.ultimo_pokemon], which [responder] does. *)
Fixpoint buscar_dados (nomes_detectados : list string)
  : result (option Dados) :=
  match nomes_detectados with
  | [] => Ok None
  | nome_ :: r =>
      do dados <- buscar nome_;
      match dados with
      | Some d => Ok (Some d)
      | None => buscar_dados r
      end
  end.

Definition msg_nao_identifiquei : string :=
  "❓ Não identifiquei um Pokémon na sua pergunta. Poderia ser mais específico?".

Definition msg_nao_encontrei (nomes_detectados : list string) : string :=
  "❌ Não encontrei dados sobre " +:+ Py.join ", " nomes_detectados.

(** [responder] reads and updates the global [memoria]: it takes the
    memory and returns it next to the reply, or next to the exception
    that escapes.  [responder_nomes] is lines 301-321, what is done
    with the names once the confirmation is over. *)
Definition responder_nomes (memoria : MemoriaConversa) (pergunta : string)
    (nomes_detectados : list string) : result string * MemoriaConversa :=
  let intencao := detectar_intencao pergunta in
  match nomes_detectados with
  | [] => (Ok msg_nao_identifiquei, memoria)
  | _ =>
      match buscar_dados nomes_detectados with
      | Raise e => (Raise e, memoria)
      | Ok None => (Ok (msg_nao_encontrei nomes_detectados), memoria)
      | Ok (Some dados) =>
          let memoria :=
            {| historico := historico memoria;
               ultimo_pokemon := Some (nome dados) |} in
          match gerar_resposta memoria intencao dados with
          | Raise e => (Raise e, memoria)
          | Ok resposta => (Ok resposta, adicionar memoria pergunta resposta)
          end
      end
  end.

Definition responder (memoria : MemoriaConversa) (pergunta : string)
  : result string * MemoriaConversa :=
  let nomes_detectados := extrair_nomes_de_pokemon pergunta in
  let nomes_detectados := com_historico memoria nomes_detectados in
  match confirmar nomes_detectados with
  | Raise e => (Raise e, memoria)
  | Ok nomes_detectados => responder_nomes memoria pergunta nomes_detectados
  end.

End Script.

(** ** Notions used to state the properties *)

Definition poke_url (nome_api : string) : string :=
  "https://pokeapi.co/api/v2/pokemon/" +:+ nome_api.
Definition species_url (nome_api : string) : string :=
  "https://pokeapi.co/api/v2/pokemon-species/" +:+ nome_api.

(** The slug under which [buscar_na_pokeapi] asks for a name. *)
Definition nome_api (NOMES_VALIDOS : list string) (nome_ : string) : string :=
  normalizar_nome_para_api
    (corrigir_nome_pokemon NOMES_VALIDOS (limpar_nome nome_)).

(** The six canonical stat keys. *)
Definition chaves_canonicas : list string :=
  ["hp"; "attack"; "defense"; "special-attack"; "special-defense"; "speed"].

(** The [stats] dict of a cache record, re-keyed: each canonical key with
    the field of the cache it is read from, [None] when the field is
    absent. *)
Definition remapear (st : list (string * json)) : pydict :=
  [ (JStr "hp", default JNull (Dyn.assoc "hp" st));
    (JStr "attack", default JNull (Dyn.assoc "ataque" st));
    (JStr "defense", default JNull (Dyn.assoc "defesa" st));
    (JStr "special-attack", default JNull (Dyn.assoc "ataque_especial" st));
    (JStr "special-defense", default JNull (Dyn.assoc "defesa_especial" st));
    (JStr "speed", default JNull (Dyn.assoc "velocidade" st)) ].

(** A flavor-text entry whose language is read without error and is not
    English. *)
Definition sem_ingles (entry : json) : Prop :=
  exists l n, Dyn.getitem entry "language" = Ok l
              /\ Dyn.getitem l "name" = Ok n
              /\ Dyn.eq_str n "en" = false.

(** A cache record with a [stats] object. *)
Definition tem_stats (poke : json) : Prop :=
  exists st, Dyn.getitem poke "stats" = Ok (JObj st).

(** An evolution chain as a tree of species names, and what it means for
    a JSON value to be such a chain: a dict with the name under
    ["species"]["name"] and the sub-chains, if any, in the list under
    ["evolves_to"]. *)
Inductive arvore : Type :=
| No (especie : string) (filhos : list arvore).

Inductive representa : json -> arvore -> Prop :=
| representa_no (kvs skvs : list (string * json)) (n : string)
    (js : list json) (ts : list arvore) :
    Dyn.assoc "species" kvs = Some (JObj skvs) ->
    Dyn.assoc "name" skvs = Some (JStr n) ->
    default (JArr []) (Dyn.assoc "evolves_to" kvs) = JArr js ->
    Forall2 representa js ts ->
    representa (JObj kvs) (No n ts).

(** Pre-order: the node, then each sub-chain in turn. *)
Fixpoint preordem (t : arvore) : list string :=
  match t with
  | No n ts => n :: concat (map preordem ts)
  end.

Fixpoint profundidade (t : arvore) : nat :=
  match t with
  | No _ ts => S (foldr Nat.max 0 (map profundidade ts))
  end.

(** The names kept for a creature whose corrected name is
    [nome_corrigido]: every species of the chain, in pre-order, except
    those whose lower-cased name is [nome_corrigido]; each one
    capitalized. *)
Definition colher (nome_corrigido : string) (t : arvore) : list string :=
  Py.capitalize <$>
    filter (fun n => Py.lower n <> nome_corrigido) (preordem t).

(** ** Worlds for the examples

    The examples format and compare integers and strings only: [str] and
    [>] are never consulted. *)

Definition str_exemplo (v : json) : string := EmptyString.

Definition gt_exemplo (v1 v2 : json) : result bool := Raise TypeError.

(** A world with the given API and console answer. *)
Definition mundo_exemplo (api : string -> http_result) (resposta : result string)
  : World :=
  {| http := api;
     input := fun _ => resposta;
     recursion_limit := 1000;
     py_str := str_exemplo;
     py_gt := gt_exemplo |}.

(** No network and no console. *)
Definition mundo_isolado : World :=
  mundo_exemplo (fun _ => NoResponse) (Raise EOFError).

(** The intent of the examples that do not depend on it. *)
Definition sempre (i : Intencao) (pergunta : string) : Intencao := i.

(** The payloads of the examples. *)
Definition nomeado (k n : string) : json := JObj [(k, JObj [("name", JStr n)])].

Definition stat (n : string) (v : Z) : json :=
  JObj [("base_stat", JInt v); ("stat", JObj [("name", JStr n)])].

Definition pikachu_api : json :=
  JObj [ ("abilities", JArr [nomeado "ability" "static";
                             nomeado "ability" "lightning-rod"]);
         ("height", JInt 4);
         ("stats", JArr [stat "hp" 35; stat "attack" 55; stat "defense" 40;
                         stat "special-attack" 50; stat "special-defense" 50;
                         stat "speed" 90]);
         ("types", JArr [nomeado "type" "electric"]);
         ("weight", JInt 60) ].

Definition chain_url_pikachu : string :=
  "https://pokeapi.co/api/v2/evolution-chain/10/".

Definition pikachu_species : json :=
  JObj [ ("evolution_chain", JObj [("url", JStr chain_url_pikachu)]);
         ("flavor_text_entries",
          JArr [JObj [("flavor_text", JStr "Elektrische Maus.");
                      ("language", JObj [("name", JStr "de")])];
                JObj [("flavor_text", JStr "It stores electricity in its cheeks.");
                      ("language", JObj [("name", JStr "en")])]]) ].

Definition elo (n : string) (evolves_to : list json) : json :=
  JObj [ ("evolves_to", JArr evolves_to);
         ("species", JObj [("name", JStr n)]) ].

Definition pikachu_chain : json :=
  JObj [ ("chain", elo "pichu" [elo "pikachu" [elo "raichu" []]]);
         ("id", JInt 10) ].

(** A primary payload that lists one stat only. *)
Definition pikachu_api_so_hp : json :=
  JObj [ ("stats", JArr [stat "hp" 35]);
         ("types", JArr [nomeado "type" "electric"]) ].

(** A species payload without evolution chain. *)
Definition especie_sem_cadeia : json :=
  JObj [ ("flavor_text_entries", JArr []) ].

(** The API answers for pikachu only: [primario] is its answer to the
    primary request, [especie] its answer to the species request. *)
Definition api_pikachu (primario especie : http_result) (u : string)
  : http_result :=
  if String.eqb u (poke_url "pikachu") then primario
  else if String.eqb u (species_url "pikachu") then especie
  else if String.eqb u chain_url_pikachu then Response 200 (Some pikachu_chain)
  else Response 404 None.

(** The API as it answers when all is well. *)
Definition api_ok : string -> http_result :=
  api_pikachu (Response 200 (Some pikachu_api))
              (Response 200 (Some pikachu_species)).

Definition pikachu_cache : json :=
  JObj [ ("nome", JStr "Pikachu");
         ("tipos", JArr [JStr "Electric"]);
         ("stats", JObj [("hp", JInt 35); ("ataque", JInt 55);
                         ("defesa", JInt 40); ("velocidade", JInt 90)]) ].

(** A memory after one turn about Pikachu: the name is in the question and
    in the answer. *)
Definition memoria_pikachu : MemoriaConversa :=
  {| historico := [("Pikachu?", "⚔️ Pikachu tem 55 de ataque base!")];
     ultimo_pokemon := Some "Pikachu" |}.

(** The record that [buscar_no_json] builds from [pikachu_cache]. *)
Definition pikachu_do_cache : Dados :=
  {| nome := "Pikachu";
     tipos := JArr [JStr "Electric"];
     habilidades := JArr [];
     altura := JStr "N/A";
     peso := JStr "N/A";
     stats := remapear [("hp", JInt 35); ("ataque", JInt 55);
                        ("defesa", JInt 40); ("velocidade", JInt 90)];
     descricao := JStr "Descrição não disponível.";
     evolucao := JArr [JStr "Não evolui"];
     fonte := "Cache Local" |}.

(** A cache whose only record has a name made of punctuation. *)
Definition cache_interrogacao : json :=
  JArr [ JObj [ ("nome", JStr "???");
                ("stats", JObj [("hp", JInt 33)]) ] ].

(** A species payload with a German flavor text only, and no evolution
    chain. *)
Definition especie_alema : json :=
  JObj [ ("flavor_text_entries",
          JArr [JObj [("flavor_text", JStr "Elektrische Maus.");
                      ("language", JObj [("name", JStr "de")])]]) ].

(** A cache with a name that has punctuation in it. *)
Definition mr_mime_cache : json :=
  JObj [ ("nome", JStr "Mr. Mime");
         ("stats", JObj [("hp", JInt 40); ("ataque", JInt 45)]) ].

(** ** Notions for the further properties *)

(** A name that the two sources take for a known name as it stands:
    cleaned and lower-cased, it is in the list. *)
Definition conhecido (NOMES_VALIDOS : list string) (n : string) : Prop :=
  Py.lower (limpar_nome n) ∈ NOMES_VALIDOS.

(** The last creature of the memory, if there is one, is such a name. *)
Definition ultimo_conhecido (NOMES_VALIDOS : list string)
    (m : MemoriaConversa) : Prop :=
  forall u, ultimo_pokemon m = Some u -> conhecido NOMES_VALIDOS u.

(** A word as [split] returns them: not empty, and without white space. *)
Definition palavra_ok (w : string) : Prop :=
  w <> EmptyString
  /\ Forall (fun c => Py.isspace c = false) (Difflib.chars w).

(** A world like [mundo_exemplo] without console, where the interpreter
    allows [limite] nested calls. *)
Definition mundo_limitado (api : string -> http_result) (limite : nat)
  : World :=
  {| http := api;
     input := fun _ => Raise EOFError;
     recursion_limit := limite;
     py_str := str_exemplo;
     py_gt := gt_exemplo |}.

Section Disponiveis.

Import gmultiset.

(** The count that [quick_ratio] makes, over the multiset of the elements
    of [b] still available: an element of [a] counts when one is left,
    and uses it up. *)
Fixpoint disponiveis `{Countable A} (a : list A) (B : gmultiset A) : nat :=
  match a with
  | [] => 0
  | x :: a =>
      if decide (x ∈ B) then S (disponiveis a (B ∖ {[+ x +]}))
      else disponiveis a B
  end.

End Disponiveis.

(** [l[lo:hi]] *)
Definition fatia {A : Type} (l : list A) (lo hi : nat) : list A :=
  take (hi - lo) (drop lo l).

(** ** The intent of a question (lines 65-84)

    [detectar_intencao] lower-cases the question and tries eight
    patterns in turn, each of the form [\b(w1|...|wn)\b].  On the
    conventions for strings stated at the top: a word character is an
    ASCII letter, a digit, the underscore, or a byte of a character
    above 127.  For a question of ASCII characters this is what Python
    does; the alternatives with a cedilla or an accent can then match
    nowhere. *)

Module Re.

(** [\w] *)
Definition isword (c : ascii) : bool :=
  Py.isupper c || Py.islower c
  || ((48 <=? Py.code c) && (Py.code c <=? 57))
  || (Py.code c =? 95)
  || (128 <=? Py.code c).

(** What is left of [s] after its prefix [w], if [w] is a prefix. *)
Fixpoint prefixo (w s : string) : option string :=
  match w, s with
  | EmptyString, _ => Some s
  | String a w', String c s' => if Ascii.eqb a c then prefixo w' s' else None
  | String _ _, EmptyString => None
  end.

(** [w\b] matches at the start of [s]: [w] is there, and the text ends
    after it or goes on with a character that is not a word character
    (every [w] below ends with a letter). *)
Definition palavra_em (w s : string) : bool :=
  match prefixo w s with
  | Some EmptyString => true
  | Some (String c _) => negb (isword c)
  | None => false
  end.

(** [re.search(r'\b(w1|...|wn)\b', s)], the alternatives beginning with
    a letter: some alternative matches at some position that is the
    start of the text or follows a character that is not a word
    character.  [antes] tells whether the character before [s] is a word
    character. *)
Fixpoint search_go (ws : list string) (antes : bool) (s : string) : bool :=
  (negb antes && existsb (fun w => palavra_em w s) ws)
  || match s with
     | EmptyString => false
     | String c r => search_go ws (isword c) r
     end.

Definition search (ws : list string) (s : string) : bool :=
  search_go ws false s.

End Re.

(** [ws?] at the end of an alternative: with or without the [s]. *)
Definition plural (w : string) : list string := [w; w +:+ "s"].

Definition detectar_intencao (pergunta : string) : Intencao :=
  let pergunta := Py.lower pergunta in
  if Re.search ["ataque"; "poder"; "força"; "dano"] pergunta then Ataque
  else if Re.search ["defesa"; "proteção"; "resistência"] pergunta
  then Defesa
  else if Re.search (plural "tipo" ++ ["elemento"]) pergunta then Tipo
  else if Re.search (plural "habilidade" ++ plural "podere") pergunta
  then Habilidade
  else if Re.search ["evolução"; "evolui"] pergunta then Evolucao
  else if Re.search (plural "fraqueza" ++ plural "vulnerabilidade"
                     ++ ["contra"] ++ plural "fraco") pergunta
  then Fraqueza
  else if Re.search ["local"; "encontrar"; "onde acha"; "habitat"] pergunta
  then Localizacao
  else if Re.search ["comparar"; "vs"; "versus"; "mais forte"; "quem ganha"]
            pergunta
  then Comparar
  else Geral.

(** The place of an intent in the order in which the patterns are
    tried. *)
Definition prioridade (i : Intencao) : nat :=
  match i with
  | Ataque => 0 | Defesa => 1 | Tipo => 2 | Habilidade => 3 | Evolucao => 4
  | Fraqueza => 5 | Localizacao => 6 | Comparar => 7 | Geral => 8
  end.

(** [w] occurs in [s] as a whole word: [s] is [pre ++ w ++ pos], where
    [pre] is empty or ends with a character that is not a word character,
    and [pos] is empty or begins with one. *)
Definition ocorre (w s : string) : Prop :=
  exists pre pos,
    s = pre +:+ w +:+ pos
    /\ (forall c, last (Difflib.chars pre) = Some c -> Re.isword c = false)
    /\ (forall c, head (Difflib.chars pos) = Some c -> Re.isword c = false).

(** A text of ASCII characters. *)
Definition ascii_puro (s : string) : Prop :=
  Forall (fun c => Py.code c < 128) (Difflib.chars s).

(** The alternatives of the eight patterns. *)
Definition palavras_chave (i : Intencao) : list string :=
  match i with
  | Ataque => ["ataque"; "poder"; "força"; "dano"]
  | Defesa => ["defesa"; "proteção"; "resistência"]
  | Tipo => ["tipo"; "tipos"; "elemento"]
  | Habilidade => ["habilidade"; "habilidades"; "podere"; "poderes"]
  | Evolucao => ["evolução"; "evolui"]
  | Fraqueza => ["fraqueza"; "fraquezas"; "vulnerabilidade";
                 "vulnerabilidades"; "contra"; "fraco"; "fracos"]
  | Localizacao => ["local"; "encontrar"; "onde acha"; "habitat"]
  | Comparar => ["comparar"; "vs"; "versus"; "mais forte"; "quem ganha"]
  | Geral => []
  end.




(** * Properties *)

(** ** The embedding at work

    The examples of the [difflib] documentation, and one turn of the
    chatbot with and without the remote API. *)

Example find_longest_match_doc :
  Difflib.find_longest_match (Difflib.chars " abcd") (Difflib.chars "abcd abcd")
    0 5 0 9
  = (0, 4, 5).
Proof. vm_compute. reflexivity. Qed.

Example ratio_doc :
  Difflib.ratio (Difflib.chars "abcd") (Difflib.chars "bcde") == 75 # 100
  /\ Difflib.quick_ratio (Difflib.chars "abcd") (Difflib.chars "bcde")
     == 75 # 100
  /\ Difflib.real_quick_ratio (Difflib.chars "abcd") (Difflib.chars "bcde")
     == 1.
Proof. repeat split; vm_compute; reflexivity. Qed.

Example get_close_matches_doc :
  Difflib.get_close_matches "appel" ["ape"; "apple"; "peach"; "puppy"]
  = ["apple"].
Proof. vm_compute. reflexivity. Qed.

Example extrair_nomes_exemplo :
  extrair_nomes_de_pokemon ["pikachu"; "charizard"]
    "Quem vence, Pikachu ou CHARIZARD?"
  = ["Pikachu"; "Charizard?"].
Proof. vm_compute. reflexivity. Qed.

Example responder_pela_api :
  fst (responder (JArr [pikachu_cache]) ["pikachu"]
         (mundo_exemplo api_ok (Raise EOFError)) (sempre Evolucao)
         memoria_inicial "Como o Pikachu evolui?")
  = Ok "🔮 Pikachu evolui para: Pichu, Raichu".
Proof. vm_compute. reflexivity. Qed.

Example responder_pelo_cache :
  responder (JArr [pikachu_cache]) ["pikachu"] mundo_isolado (sempre Ataque)
    memoria_inicial "Qual o ataque do Pikachu?"
  = (Ok "⚔️ Pikachu tem 55 de ataque base!",
     {| historico := [("Qual o ataque do Pikachu?",
                       "⚔️ Pikachu tem 55 de ataque base!")];
        ultimo_pokemon := Some "Pikachu" |}).
Proof. vm_compute. reflexivity. Qed.

(** ** The conversation memory *)

Lemma deque_append_drop {A : Type} (n : nat) (d : list A) (x : A) :
  length d <= n ->
  deque_append n d x = drop (length (d ++ [x]) - n) (d ++ [x]).
Proof.
  intros Hd. unfold deque_append.
  assert (length (d ++ [x]) = S (length d)) as Hlen
    by (rewrite length_app; simpl; lia).
  destruct (Nat.ltb_spec n (length (d ++ [x]))) as [Hlt|Hle].
  - replace (length (d ++ [x]) - n) with 1 by lia.
    by destruct (d ++ [x]).
  - by replace (length (d ++ [x]) - n) with 0 by lia.
Qed.

Lemma historico_adicionar_todos (l : list (string * string)) :
  forall m : MemoriaConversa,
    length (historico m) <= 3 ->
    historico (adicionar_todos m l)
    = drop (length (historico m ++ l) - 3) (historico m ++ l).
Proof.
  induction l as [|[q r] l IH]; intros m Hm.
  - simpl. rewrite app_nil_r. replace (length (historico m) - 3) with 0 by lia.
    done.
  - simpl. rewrite IH.
    + simpl. rewrite deque_append_drop by done.
      set (y := historico m ++ [(q, r)]).
      replace (historico m ++ (q, r) :: l) with (y ++ l)
        by (unfold y; by rewrite <- app_assoc).
      assert (Hy : length y <= 4) by (unfold y; rewrite length_app; simpl; lia).
      destruct (decide (length y <= 3)) as [Hs|Hs].
      * replace (length y - 3) with 0 by lia. done.
      * assert (length y = 4) as Hy4 by lia.
        rewrite Hy4. replace (4 - 3) with 1 by lia.
        rewrite !length_app, length_drop, Hy4.
        replace (4 - 1 + length l - 3) with (length l) by lia.
        replace (4 + length l - 3) with (1 + length l) by lia.
        destruct y as [|y0 y]; [done|]. simpl. rewrite drop_0.
        destruct l; simpl; [by rewrite drop_0|]. done.
    + simpl. rewrite deque_append_drop by done.
      rewrite length_drop, length_app. simpl. lia.
Qed.

(** C7.  Starting from any memory the deque can hold, after more than three
    calls of [adicionar] the history has exactly three entries, and they are
    the last three questions and answers added, oldest first. *)
Theorem memoria_fifo (m : MemoriaConversa) (l : list (string * string)) :
  length (historico m) <= 3 ->
  3 < length l ->
  historico (adicionar_todos m l) = drop (length l - 3) l
  /\ length (historico (adicionar_todos m l)) = 3.
Proof.
  intros Hm Hl.
  assert (historico (adicionar_todos m l) = drop (length l - 3) l) as ->.
  { rewrite historico_adicionar_todos by done.
    rewrite length_app.
    replace (length (historico m) + length l - 3)
      with (length (historico m) + (length l - 3)) by lia.
    by rewrite drop_app_add. }
  split; [done|]. rewrite length_drop. lia.
Qed.

Lemma memoria_fifo_witness :
  historico (adicionar_todos memoria_inicial
               [("q1", "a1"); ("q2", "a2"); ("q3", "a3"); ("q4", "a4"); ("q5", "a5")])
  = [("q3", "a3"); ("q4", "a4"); ("q5", "a5")].
Proof.
  pose proof (memoria_fifo memoria_inicial
    [("q1", "a1"); ("q2", "a2"); ("q3", "a3"); ("q4", "a4"); ("q5", "a5")]) as H.
  destruct H as [H _]; [simpl; lia | simpl; lia |].
  exact H.
Defined.

(** ** The weakness table *)

Lemma acumular_nome (s : gset string) (t : string) :
  acumular s (JStr t) = Ok (s ∪ contra t).
Proof.
  unfold acumular, contra. destruct (Dyn.assoc t tabela_tipos); simpl.
  - done.
  - f_equal. set_solver.
Qed.

Lemma foldE_acumular (l : list string) :
  forall s : gset string,
    foldE acumular s (JStr <$> l) = Ok (s ∪ ⋃ (contra <$> l)).
Proof.
  induction l as [|t l IH]; intros s.
  - simpl. f_equal. set_solver.
  - rewrite fmap_cons. cbn [foldE]. rewrite acumular_nome. cbn [bind].
    rewrite IH. f_equal. set_solver.
Qed.

Lemma calcular_fraquezas_lista (l : list string) :
  calcular_fraquezas (lista l) = Ok (sorted (⋃ (contra <$> l))).
Proof.
  unfold calcular_fraquezas, lista. cbn [Dyn.iter bind].
  rewrite foldE_acumular. cbn [bind]. do 2 f_equal. set_solver.
Qed.

Lemma elem_of_uniao_contra (l : list string) (x : string) :
  x ∈ ⋃ (contra <$> l) <->
  exists t ws, t ∈ l /\ Dyn.assoc t tabela_tipos = Some ws /\ x ∈ ws.
Proof.
  rewrite elem_of_union_list. split.
  - intros (X & HX & Hx). apply list_elem_of_fmap in HX as (t & -> & Ht).
    unfold contra in Hx. destruct (Dyn.assoc t tabela_tipos) as [ws|] eqn:E.
    + exists t, ws. simpl in Hx. rewrite elem_of_list_to_set in Hx. done.
    + simpl in Hx. set_solver.
  - intros (t & ws & Ht & E & Hx). exists (contra t). split.
    + apply list_elem_of_fmap. eauto.
    + unfold contra. rewrite E. simpl. by apply elem_of_list_to_set.
Qed.

Lemma sorted_props (s : gset string) :
  StronglySorted String.le (sorted s) /\ NoDup (sorted s)
  /\ forall x, x ∈ sorted s <-> x ∈ s.
Proof.
  unfold sorted. split; [|split].
  - apply StronglySorted_merge_sort; apply _.
  - rewrite merge_sort_Permutation. apply NoDup_elements.
  - intros x. rewrite merge_sort_Permutation. apply elem_of_elements.
Qed.

(** C6.  [calcular_fraquezas] on a list of type names: the empty list gives
    the empty list; two lists with the same names give the same result; the
    result is always returned (no exception), is sorted and without
    duplicates, and holds exactly the counter-types of the names that are
    keys of the table, so a name that is not a key changes nothing. *)
Theorem calcular_fraquezas_props :
  calcular_fraquezas (lista []) = Ok []
  /\ (forall l1 l2 : list string,
        (forall t, t ∈ l1 <-> t ∈ l2) ->
        calcular_fraquezas (lista l1) = calcular_fraquezas (lista l2))
  /\ (forall l : list string,
        exists r, calcular_fraquezas (lista l) = Ok r
                  /\ StronglySorted String.le r /\ NoDup r
                  /\ forall x, x ∈ r <->
                       exists t ws, t ∈ l
                                    /\ Dyn.assoc t tabela_tipos = Some ws
                                    /\ x ∈ ws)
  /\ (forall (l1 l2 : list string) (t : string),
        Dyn.assoc t tabela_tipos = None ->
        calcular_fraquezas (lista (l1 ++ t :: l2))
        = calcular_fraquezas (lista (l1 ++ l2))).
Proof.
  split; [|split; [|split]].
  - reflexivity.
  - intros l1 l2 Hsame. rewrite !calcular_fraquezas_lista. do 2 f_equal.
    apply set_eq. intros x. rewrite !elem_of_uniao_contra.
    split; intros (t & ws & Ht & Hrest); exists t, ws; split; try done;
      by apply Hsame.
  - intros l. exists (sorted (⋃ (contra <$> l))).
    destruct (sorted_props (⋃ (contra <$> l))) as (Hs & Hn & Hm).
    split; [apply calcular_fraquezas_lista|]. split; [done|]. split; [done|].
    intros x. rewrite Hm. apply elem_of_uniao_contra.
  - intros l1 l2 t Ht. rewrite !calcular_fraquezas_lista. do 2 f_equal.
    rewrite !fmap_app, !union_list_app_L. simpl.
    unfold contra at 2. rewrite Ht. simpl. set_solver.
Qed.

Lemma calcular_fraquezas_props_witness :
  calcular_fraquezas (lista ["Fire"; "Flying"])
  = calcular_fraquezas (lista ["Flying"; "Fire"; "Fire"])
  /\ calcular_fraquezas (lista ["Fire"; "Pedra"; "Flying"])
     = calcular_fraquezas (lista ["Fire"; "Flying"]).
Proof.
  destruct calcular_fraquezas_props as (_ & Hord & _ & Hunk).
  split.
  - apply Hord. intros t. rewrite !elem_of_cons. set_solver.
  - apply (Hunk ["Fire"] ["Flying"] "Pedra"). reflexivity.
Defined.

(** ** The main function: confirmation and error replies *)

Section Responder.

Variable cache_local : json.
Variable NOMES_VALIDOS : list string.
Variable mundo : World.
Variable detectar_intencao : string -> Intencao.

Lemma responder_unfold (m : MemoriaConversa) (pergunta : string) :
  responder cache_local NOMES_VALIDOS mundo detectar_intencao m pergunta
  = match confirmar mundo
            (com_historico m (extrair_nomes_de_pokemon NOMES_VALIDOS pergunta))
    with
    | Raise e => (Raise e, m)
    | Ok nomes =>
        responder_nomes cache_local NOMES_VALIDOS mundo detectar_intencao
          m pergunta nomes
    end.
Proof. reflexivity. Qed.

Lemma buscar_dados_nada (nomes : list string) :
  (forall n, n ∈ nomes ->
     buscar_na_pokeapi NOMES_VALIDOS mundo n = None
     /\ buscar_no_json cache_local NOMES_VALIDOS n = Ok None) ->
  buscar_dados cache_local NOMES_VALIDOS mundo nomes = Ok None.
Proof.
  induction nomes as [|n nomes IH]; intros Hn; [reflexivity|].
  cbn [buscar_dados]. unfold buscar.
  destruct (Hn n) as [-> ->]; [left|]. cbn [bind].
  apply IH. intros n' Hn'. apply Hn. by right.
Qed.

(** C10.  When the question holds two names or more and the user answers
    the prompt, which shows the first two names only, [responder] goes on
    with exactly one name: the first if the answer is the string "1", the
    second for any other answer.  The names after the second play no
    part. *)
Theorem confirmacao_escolhe (m : MemoriaConversa) (pergunta : string)
    (n0 n1 : string) (resto : list string) (confirmacao : string) :
  extrair_nomes_de_pokemon NOMES_VALIDOS pergunta = n0 :: n1 :: resto ->
  input mundo ("Você quis dizer " +:+ n0 +:+ " ou " +:+ n1 +:+ "? (1/2): ")
  = Ok confirmacao ->
  confirmar mundo (n0 :: n1 :: resto)
  = Ok [if String.eqb confirmacao "1" then n0 else n1]
  /\ responder cache_local NOMES_VALIDOS mundo detectar_intencao m pergunta
     = responder_nomes cache_local NOMES_VALIDOS mundo detectar_intencao
         m pergunta [if String.eqb confirmacao "1" then n0 else n1].
Proof.
  intros Hn Hin.
  assert (confirmar mundo (n0 :: n1 :: resto)
          = Ok [if String.eqb confirmacao "1" then n0 else n1]) as Hc.
  { unfold confirmar, pergunta_confirmacao. rewrite Hin. reflexivity. }
  split; [exact Hc|].
  rewrite responder_unfold, Hn. cbn [com_historico]. by rewrite Hc.
Qed.

(** C4.  The two error endings of [responder].  (1) No name in the question
    and no last name in memory (none, or the empty string): the reply is
    the "não identifiquei" message.  (2) Names are there but neither source
    has data for any of them: the reply is the "não encontrei" message
    with the names.  In both cases the memory that comes back is the one
    that went in: same history, same [ultimo_pokemon]. *)
Theorem responder_erros (m : MemoriaConversa) (pergunta : string) :
  (extrair_nomes_de_pokemon NOMES_VALIDOS pergunta = [] ->
   ultimo_pokemon m = None \/ ultimo_pokemon m = Some EmptyString ->
   responder cache_local NOMES_VALIDOS mundo detectar_intencao m pergunta
   = (Ok "❓ Não identifiquei um Pokémon na sua pergunta. Poderia ser mais específico?",
      m))
  /\ (forall nomes : list string,
        confirmar mundo
          (com_historico m (extrair_nomes_de_pokemon NOMES_VALIDOS pergunta))
        = Ok nomes ->
        nomes <> [] ->
        (forall n, n ∈ nomes ->
           buscar_na_pokeapi NOMES_VALIDOS mundo n = None
           /\ buscar_no_json cache_local NOMES_VALIDOS n = Ok None) ->
        responder cache_local NOMES_VALIDOS mundo detectar_intencao m pergunta
        = (Ok ("❌ Não encontrei dados sobre " +:+ Py.join ", " nomes), m)).
Proof.
  split.
  - intros Hn Hu. rewrite responder_unfold, Hn.
    destruct Hu as [Hu|Hu]; unfold com_historico; rewrite Hu; reflexivity.
  - intros nomes Hc Hne Hbusca. rewrite responder_unfold, Hc.
    unfold responder_nomes. rewrite (buscar_dados_nada nomes Hbusca).
    destruct nomes; [done|reflexivity].
Qed.

End Responder.
Lemma confirmacao_escolhe_witness :
  responder (JArr []) ["pikachu"; "charizard"]
    (mundo_exemplo (fun _ => NoResponse) (Ok "2")) (sempre Geral)
    memoria_inicial "Pikachu ou Charizard?"
  = responder_nomes (JArr []) ["pikachu"; "charizard"]
      (mundo_exemplo (fun _ => NoResponse) (Ok "2")) (sempre Geral)
      memoria_inicial "Pikachu ou Charizard?" ["Charizard?"].
Proof.
  apply (confirmacao_escolhe (JArr []) ["pikachu"; "charizard"]
           (mundo_exemplo (fun _ => NoResponse) (Ok "2")) (sempre Geral)
           memoria_inicial "Pikachu ou Charizard?" "Pikachu" "Charizard?" [] "2").
  - vm_compute. reflexivity.
  - reflexivity.
Defined.

Lemma responder_erros_witness :
  responder (JArr []) [] mundo_isolado (sempre Geral)
    memoria_inicial "Qual o ataque dele?"
  = (Ok "❓ Não identifiquei um Pokémon na sua pergunta. Poderia ser mais específico?",
     memoria_inicial)
  /\ responder (JArr []) [] mundo_isolado (sempre Geral)
       {| historico := []; ultimo_pokemon := Some "Mewtwo" |}
       "Qual o ataque dele?"
     = (Ok "❌ Não encontrei dados sobre Mewtwo",
        {| historico := []; ultimo_pokemon := Some "Mewtwo" |}).
Proof.
  split.
  - apply (responder_erros (JArr []) [] mundo_isolado (sempre Geral)
             memoria_inicial "Qual o ataque dele?").
    + vm_compute. reflexivity.
    + left. reflexivity.
  - apply (proj2 (responder_erros (JArr []) [] mundo_isolado (sempre Geral)
             {| historico := []; ultimo_pokemon := Some "Mewtwo" |}
             "Qual o ataque dele?") ["Mewtwo"]).
    + vm_compute. reflexivity.
    + discriminate.
    + intros n Hn. apply list_elem_of_singleton in Hn as ->.
      split; vm_compute; reflexivity.
Defined.

(** ** The remote source *)

(** One step through a [do]: the bound computation returned normally. *)
Tactic Notation "bind_ok" hyp(H) "as" simple_intropattern(x) ident(E) :=
  lazymatch type of H with
  | bind ?c _ = _ =>
      destruct c as [x|] eqn:E; cbn [bind] in H; [|discriminate H]
  end.

Lemma requests_get_Ok (w : World) (u : string) (r : Z * option json) :
  requests_get w (JStr u) = Ok r -> http w u = Response (fst r) (snd r).
Proof.
  unfold requests_get. destruct (http w u); [discriminate|].
  intros [= <-]. reflexivity.
Qed.

Lemma response_json_Ok (body : option json) (v : json) :
  response_json body = Ok v -> body = Some v.
Proof. destruct body; simpl; congruence. Qed.

Section Remote.

Variable NOMES_VALIDOS : list string.
Variable mundo : World.

(** What a record returned by [buscar_na_pokeapi] tells about the three
    requests. *)
Lemma buscar_na_pokeapi_Some (nome_ : string) (d : Dados) :
  buscar_na_pokeapi NOMES_VALIDOS mundo nome_ = Some d ->
  let nc := corrigir_nome_pokemon NOMES_VALIDOS (limpar_nome nome_) in
  let api := normalizar_nome_para_api nc in
  exists poke_data sv sl species_data ev el desc,
    http mundo (poke_url api) = Response 200 (Some poke_data)
    /\ Dyn.get poke_data "stats" (JArr []) = Ok sv
    /\ Dyn.iter sv = Ok sl
    /\ mapE stat_item sl = Ok (stats d)
    /\ http mundo (species_url api) = Response 200 (Some species_data)
    /\ Dyn.getitem species_data "flavor_text_entries" = Ok ev
    /\ Dyn.iter ev = Ok el
    /\ primeira_descricao el = Ok desc
    /\ descricao d = JStr desc
    /\ processar_evolucao mundo nc species_data = Ok (evolucao d)
    /\ nome d = Py.capitalize nc
    /\ fonte d = "PokéAPI".
Proof.
  intros H nc api.
  unfold buscar_na_pokeapi, buscar_na_pokeapi_body, try_or_none in H.
  fold nc in H. fold api in H.
  fold (poke_url api) in H. fold (species_url api) in H.
  match type of H with match ?c with _ => _ end = _ =>
    destruct c as [r|] eqn:Hbody; [subst r|discriminate H] end.
  bind_ok Hbody as [st body] Hp. apply requests_get_Ok in Hp.
  simpl in Hp, Hbody.
  destruct (Z.eqb_spec st 200) as [->|]; simpl in Hbody; [|discriminate].
  bind_ok Hbody as poke_data Hj. apply response_json_Ok in Hj. subst body.
  bind_ok Hbody as sv Hsv. bind_ok Hbody as sl Hsl. bind_ok Hbody as sts Hsts.
  bind_ok Hbody as [st' body'] Hs. apply requests_get_Ok in Hs.
  simpl in Hs, Hbody.
  destruct (Z.eqb_spec st' 200) as [->|]; simpl in Hbody.
  - bind_ok Hbody as [desc oevo] Hin.
    bind_ok Hin as species_data Hj. apply response_json_Ok in Hj.
    subst body'.
    bind_ok Hin as ev Hev. bind_ok Hin as el Hel.
    bind_ok Hin as desc' Hdesc. bind_ok Hin as evo Hevo.
    injection Hin as <- <-.
    bind_ok Hbody as tp Htp. bind_ok Hbody as hb Hhb.
    bind_ok Hbody as al Hal. bind_ok Hbody as pe Hpe.
    injection Hbody as <-. simpl.
    exists poke_data, sv, sl, species_data, ev, el, desc'.
    repeat split; assumption.
  - bind_ok Hbody as tp Htp. bind_ok Hbody as hb Hhb.
    bind_ok Hbody as al Hal. bind_ok Hbody as pe Hpe.
    discriminate.
Qed.

End Remote.

(** A note on line 148.  [evolucao] is first assigned under
    [if species_response.status_code == 200], so with any other species
    response the [return] reads an unbound local and the blanket handler
    returns [None]: the description default of line 136 is never
    delivered. *)
Lemma especie_indisponivel_abandona (NOMES_VALIDOS : list string)
    (mundo : World) (nome_ : string) :
  (forall body,
     http mundo (species_url (nome_api NOMES_VALIDOS nome_))
     <> Response 200 body) ->
  buscar_na_pokeapi NOMES_VALIDOS mundo nome_ = None.
Proof.
  intros Hsp.
  destruct (buscar_na_pokeapi NOMES_VALIDOS mundo nome_) as [d|] eqn:Hd;
    [|reflexivity].
  apply buscar_na_pokeapi_Some in Hd.
  destruct Hd as (? & ? & ? & sd & ? & ? & ? & _ & _ & _ & _ & Hs & _).
  exfalso. exact (Hsp (Some sd) Hs).
Qed.

Example especie_404 :
  buscar_na_pokeapi ["pikachu"]
    (mundo_exemplo (api_pikachu (Response 200 (Some pikachu_api))
                                (Response 404 None)) (Raise EOFError))
    "Pikachu"
  = None.
Proof. vm_compute. reflexivity. Qed.

Lemma primeira_descricao_sem_ingles (entries : list json) :
  Forall sem_ingles entries ->
  primeira_descricao entries = Ok "Descrição não encontrada.".
Proof.
  induction 1 as [|entry entries (l & n & Hl & Hn & Hne) _ IH]; [done|].
  cbn [primeira_descricao]. rewrite Hl. cbn [bind]. rewrite Hn. cbn [bind].
  by rewrite Hne.
Qed.

(** C1 (amended).  With the primary request answered, what the two
    secondary requests contribute.  If the species request or the chain
    request raises (timeout, no connection), the handler around the whole
    function returns nothing: the remote resolution is abandoned.  In a
    record that is returned, the evolutions are ["Não evolui"] when the
    species payload has no evolution chain or the chain payload is empty,
    and the description is "Descrição não encontrada." when no flavor text
    is in English. *)
Theorem dados_secundarios (NOMES_VALIDOS : list string) (mundo : World)
    (nome_ : string) :
  (http mundo (species_url (nome_api NOMES_VALIDOS nome_)) = NoResponse ->
   buscar_na_pokeapi NOMES_VALIDOS mundo nome_ = None)
  /\ (forall species_data evolution_chain url,
        http mundo (species_url (nome_api NOMES_VALIDOS nome_))
        = Response 200 (Some species_data) ->
        Dyn.getitem species_data "evolution_chain" = Ok evolution_chain ->
        Dyn.getitem evolution_chain "url" = Ok (JStr url) ->
        http mundo url = NoResponse ->
        buscar_na_pokeapi NOMES_VALIDOS mundo nome_ = None)
  /\ (forall d kvs,
        buscar_na_pokeapi NOMES_VALIDOS mundo nome_ = Some d ->
        http mundo (species_url (nome_api NOMES_VALIDOS nome_))
        = Response 200 (Some (JObj kvs)) ->
        (Dyn.assoc "evolution_chain" kvs = None ->
         evolucao d = lista ["Não evolui"])
        /\ (forall evolution_chain url status chain_data,
              Dyn.assoc "evolution_chain" kvs = Some evolution_chain ->
              Dyn.getitem evolution_chain "url" = Ok (JStr url) ->
              http mundo url = Response status (Some chain_data) ->
              Dyn.truthy chain_data = false ->
              evolucao d = lista ["Não evolui"])
        /\ (forall entries,
              Dyn.assoc "flavor_text_entries" kvs = Some (JArr entries) ->
              Forall sem_ingles entries ->
              descricao d = JStr "Descrição não encontrada.")).
Proof.
  split; [|split].
  - intros Hsp. apply especie_indisponivel_abandona.
    intros body. rewrite Hsp. discriminate.
  - intros species_data ec url Hsp Hec Hurl Hch.
    destruct (buscar_na_pokeapi NOMES_VALIDOS mundo nome_) as [d|] eqn:Hd;
      [exfalso|reflexivity].
    apply buscar_na_pokeapi_Some in Hd.
    destruct Hd as (_ & _ & _ & sd & _ & _ & _ & _ & _ & _ & _ & Hsp' & _ & _
                    & _ & _ & Hevo & _).
    unfold nome_api in Hsp. rewrite Hsp in Hsp'. injection Hsp' as <-.
    destruct species_data as [| | | | | |kvs]; try discriminate.
    simpl in Hec. destruct (Dyn.assoc "evolution_chain" kvs) eqn:Hk;
      [|discriminate]. injection Hec as ->.
    unfold processar_evolucao in Hevo. rewrite Hk, Hurl in Hevo.
    cbn [bind requests_get] in Hevo. rewrite Hch in Hevo. discriminate.
  - intros d kvs Hd Hsp. apply buscar_na_pokeapi_Some in Hd.
    destruct Hd as (_ & _ & _ & sd & ev & el & desc & _ & _ & _ & _ & Hsp'
                    & Hev & Hel & Hdesc & Hd & Hevo & _).
    unfold nome_api in Hsp. rewrite Hsp in Hsp'. injection Hsp' as <-.
    unfold processar_evolucao in Hevo.
    split; [|split].
    + intros Hk. rewrite Hk in Hevo. by injection Hevo as <-.
    + intros ec url status chain_data Hk Hurl Hch Hfalsy.
      rewrite Hk, Hurl in Hevo. cbn [bind requests_get] in Hevo.
      rewrite Hch in Hevo. cbn [bind response_json snd] in Hevo.
      rewrite Hfalsy in Hevo. by injection Hevo as <-.
    + intros entries Hk Hall. simpl in Hev. rewrite Hk in Hev.
      injection Hev as <-. simpl in Hel. injection Hel as <-.
      rewrite (primeira_descricao_sem_ingles _ Hall) in Hdesc.
      injection Hdesc as <-. exact Hd.
Qed.

Lemma dados_secundarios_witness :
  exists d,
    buscar_na_pokeapi ["pikachu"]
      (mundo_exemplo (api_pikachu (Response 200 (Some pikachu_api))
                                  (Response 200 (Some especie_alema)))
                     (Raise EOFError))
      "Pikachu" = Some d
    /\ evolucao d = lista ["Não evolui"]
    /\ descricao d = JStr "Descrição não encontrada.".
Proof.
  eexists. split; [vm_compute; reflexivity|].
  destruct (dados_secundarios ["pikachu"]
              (mundo_exemplo (api_pikachu (Response 200 (Some pikachu_api))
                                          (Response 200 (Some especie_alema)))
                             (Raise EOFError))
              "Pikachu") as (_ & _ & Hrec).
  edestruct Hrec as (Hevo & _ & Hdesc).
  - vm_compute. reflexivity.
  - vm_compute. reflexivity.
  - split.
    + apply Hevo. reflexivity.
    + apply (Hdesc _ eq_refl). constructor; [|constructor].
      eexists _, _. repeat split; reflexivity.
Defined.

(** C1 (as stated, refuted).  The primary request is answered; the species
    request times out: nothing is returned.  And with a species payload
    whose only flavor text is German, the description is not the sentinel
    "Descrição não disponível.". *)
Lemma secundarias_nao_independentes :
  http (mundo_exemplo (api_pikachu (Response 200 (Some pikachu_api)) NoResponse)
                      (Raise EOFError))
       (poke_url (nome_api ["pikachu"] "Pikachu"))
  = Response 200 (Some pikachu_api)
  /\ buscar_na_pokeapi ["pikachu"]
       (mundo_exemplo (api_pikachu (Response 200 (Some pikachu_api)) NoResponse)
                      (Raise EOFError))
       "Pikachu"
     = None
  /\ exists d,
       buscar_na_pokeapi ["pikachu"]
         (mundo_exemplo (api_pikachu (Response 200 (Some pikachu_api))
                                     (Response 200 (Some especie_alema)))
                        (Raise EOFError))
         "Pikachu" = Some d
       /\ descricao d <> JStr "Descrição não disponível.".
Proof.
  split; [vm_compute; reflexivity|]. split; [vm_compute; reflexivity|].
  eexists. split; [vm_compute; reflexivity|]. discriminate.
Qed.

(** ** The stats of a record *)

Lemma pydict_get_mapE_stat_item (sl : list json) (st : pydict) (k : string) :
  mapE stat_item sl = Ok st ->
  (is_Some (pydict_get st k) <->
   exists s v, s ∈ sl /\ stat_item s = Ok (JStr k, v)).
Proof.
  revert st. induction sl as [|s sl IH]; intros st Hst.
  - injection Hst as <-. simpl. split.
    + intros [? [=]].
    + intros (? & ? & Hin & _). by apply elem_of_nil in Hin.
  - cbn [mapE] in Hst.
    destruct (stat_item s) as [[k' v']|] eqn:Hs; [|discriminate].
    cbn [bind] in Hst.
    destruct (mapE stat_item sl) as [st'|] eqn:Hsl; [|discriminate].
    injection Hst as <-. specialize (IH st' eq_refl).
    cbn [pydict_get]. split.
    + destruct (pydict_get st' k) as [x|] eqn:Hget.
      * intros _. destruct (proj1 IH) as (s0 & v0 & Hin & H0); [eauto|].
        exists s0, v0. split; [by right|done].
      * destruct (Dyn.eq_str k' k) eqn:Heq; [|intros [? [=]]].
        intros _. exists s, v'. split; [left|].
        destruct k'; try discriminate. simpl in Heq.
        apply String.eqb_eq in Heq. by subst.
    + intros (s0 & v0 & Hin & H0). apply elem_of_cons in Hin as [->|Hin].
      * rewrite Hs in H0. injection H0 as -> ->.
        destruct (pydict_get st' k); [eauto|].
        simpl. rewrite String.eqb_refl. eauto.
      * destruct (proj2 IH) as [x ->]; eauto.
Qed.

Lemma registro_do_cache_Ok (poke : json) (d : Dados) :
  registro_do_cache poke = Ok d ->
  exists kvs n st,
    poke = JObj kvs
    /\ Dyn.assoc "nome" kvs = Some (JStr n)
    /\ Dyn.assoc "stats" kvs = Some (JObj st)
    /\ nome d = n
    /\ stats d = remapear st
    /\ fonte d = "Cache Local".
Proof.
  unfold registro_do_cache. intros H.
  bind_ok H as n Hn. destruct poke as [| | | | | |kvs]; try discriminate.
  simpl in Hn. destruct (Dyn.assoc "nome" kvs) as [vn|] eqn:Hnome;
    [|discriminate]. injection Hn as <-.
  bind_ok H as n Hn. destruct vn as [| | | |s| |]; try discriminate.
  injection Hn as <-.
  cbn [Dyn.get bind] in H.
  unfold Dyn.getitem in H.
  destruct (Dyn.assoc "stats" kvs) as [vst|] eqn:Hst; [|discriminate].
  cbn [bind] in H.
  destruct vst as [| | | | | |st]; try discriminate.
  cbn [Dyn.get bind] in H. injection H as <-.
  exists kvs, s, st. simpl. repeat split; try reflexivity; assumption.
Qed.

Lemma procurar_Some (nc : string) (pokes : list json) (d : Dados) :
  procurar nc pokes = Ok (Some d) ->
  exists poke, poke ∈ pokes /\ registro_do_cache poke = Ok d
               /\ Py.lower (nome d) = nc.
Proof.
  induction pokes as [|poke pokes IH]; [discriminate|].
  cbn [procurar]. intros H.
  bind_ok H as vn Hvn. bind_ok H as n Hn.
  destruct (String.eqb_spec (Py.lower n) nc) as [Heq|Hne].
  - bind_ok H as d' Hd. injection H as ->.
    exists poke. split; [left|]. split; [done|].
    destruct (registro_do_cache_Ok _ _ Hd)
      as (kvs & n' & st & -> & Hnome & _ & Hname & _).
    simpl in Hvn. rewrite Hnome in Hvn. injection Hvn as <-.
    injection Hn as <-. by rewrite Hname.
  - destruct (IH H) as (p & Hp & Hrest). exists p. split; [by right|done].
Qed.

(** C2 (amended).  A record from the local cache always has the six
    canonical stat keys: it is built from a record of the cache, the one
    its name is taken from, and each key holds the field of the [stats]
    object of that record it is read from, or [None] when the field is
    absent.  A record from the remote API has a stat key exactly for the
    names listed under ["stats"] in the payload: no key is added for a
    stat the payload leaves out. *)
Theorem chaves_dos_stats :
  (forall (cache_local : json) (NOMES_VALIDOS : list string)
          (nome_ : string) (d : Dados),
      buscar_no_json cache_local NOMES_VALIDOS nome_ = Ok (Some d) ->
      (exists pokes kvs st,
         Dyn.iter cache_local = Ok pokes
         /\ JObj kvs ∈ pokes
         /\ Dyn.assoc "nome" kvs = Some (JStr (nome d))
         /\ Dyn.assoc "stats" kvs = Some (JObj st)
         /\ stats d = remapear st
         /\ pydict_get (stats d) "hp"
            = Some (default JNull (Dyn.assoc "hp" st))
         /\ pydict_get (stats d) "attack"
            = Some (default JNull (Dyn.assoc "ataque" st))
         /\ pydict_get (stats d) "defense"
            = Some (default JNull (Dyn.assoc "defesa" st))
         /\ pydict_get (stats d) "special-attack"
            = Some (default JNull (Dyn.assoc "ataque_especial" st))
         /\ pydict_get (stats d) "special-defense"
            = Some (default JNull (Dyn.assoc "defesa_especial" st))
         /\ pydict_get (stats d) "speed"
            = Some (default JNull (Dyn.assoc "velocidade" st)))
      /\ forall k, k ∈ chaves_canonicas -> is_Some (pydict_get (stats d) k))
  /\ (forall (NOMES_VALIDOS : list string) (mundo : World)
             (nome_ : string) (d : Dados),
        buscar_na_pokeapi NOMES_VALIDOS mundo nome_ = Some d ->
        exists poke_data sv sl,
          http mundo (poke_url (nome_api NOMES_VALIDOS nome_))
          = Response 200 (Some poke_data)
          /\ Dyn.get poke_data "stats" (JArr []) = Ok sv
          /\ Dyn.iter sv = Ok sl
          /\ forall k, is_Some (pydict_get (stats d) k) <->
                       exists s v, s ∈ sl /\ stat_item s = Ok (JStr k, v)).
Proof.
  split.
  - intros cache_local NOMES_VALIDOS nome_ d H.
    unfold buscar_no_json in H. bind_ok H as pokes Hp.
    apply procurar_Some in H as (poke & Hin & Hd & _).
    apply registro_do_cache_Ok in Hd
      as (kvs & n & st & -> & Hnome & Hst & Hn & Hs & _).
    split.
    + exists pokes, kvs, st. rewrite Hn, Hs.
      repeat (split; [done|]). reflexivity.
    + intros k Hk. rewrite Hs. unfold chaves_canonicas in Hk.
      repeat (apply elem_of_cons in Hk as [->|Hk]; [simpl; eauto|]).
      by apply elem_of_nil in Hk.
  - intros NOMES_VALIDOS mundo nome_ d H.
    apply buscar_na_pokeapi_Some in H.
    destruct H as (pd & sv & sl & _ & _ & _ & _ & Hp & Hsv & Hsl & Hst & _).
    exists pd, sv, sl. repeat split; try done.
    all: by apply pydict_get_mapE_stat_item.
Qed.

Lemma chaves_dos_stats_witness :
  buscar_no_json (JArr [pikachu_cache]) ["pikachu"] "Pikachu"
  = Ok (Some pikachu_do_cache)
  /\ is_Some (pydict_get (stats pikachu_do_cache) "special-attack")
  /\ exists pokes kvs st,
       Dyn.iter (JArr [pikachu_cache]) = Ok pokes
       /\ JObj kvs ∈ pokes
       /\ Dyn.assoc "stats" kvs = Some (JObj st)
       /\ pydict_get (stats pikachu_do_cache) "attack"
          = Some (default JNull (Dyn.assoc "ataque" st))
       /\ pydict_get (stats pikachu_do_cache) "special-attack"
          = Some (default JNull (Dyn.assoc "ataque_especial" st)).
Proof.
  assert (buscar_no_json (JArr [pikachu_cache]) ["pikachu"] "Pikachu"
          = Ok (Some pikachu_do_cache)) as Hb by (vm_compute; reflexivity).
  split; [exact Hb|].
  destruct chaves_dos_stats as [Hcache _].
  destruct (Hcache _ _ _ _ Hb) as [Hrec Hk].
  split.
  - apply Hk. unfold chaves_canonicas. rewrite !elem_of_cons. tauto.
  - destruct Hrec as (pokes & kvs & st & Hp & Hin & _ & Hst & _ & _ & Ha & _
                      & Hsa & _).
    exists pokes, kvs, st. repeat (split; [assumption|]). assumption.
Defined.

(** C2 (as stated, refuted).  The API answers 200 with a payload that lists
    the [hp] stat only: the record that is returned has no [attack] key. *)
Lemma stats_sem_attack :
  exists d,
    buscar_na_pokeapi ["pikachu"]
      (mundo_exemplo (api_pikachu (Response 200 (Some pikachu_api_so_hp))
                                  (Response 200 (Some especie_sem_cadeia)))
                     (Raise EOFError))
      "Pikachu" = Some d
    /\ fonte d = "PokéAPI"
    /\ is_Some (pydict_get (stats d) "hp")
    /\ pydict_get (stats d) "attack" = None.
Proof.
  eexists. split; [vm_compute; reflexivity|].
  split; [reflexivity|]. split; [by eexists|reflexivity].
Qed.

(** ** The evolution chain *)

Lemma arvore_ind' (P : arvore -> Prop) :
  (forall n ts, Forall P ts -> P (No n ts)) -> forall t, P t.
Proof.
  intros HP. fix IH 1. intros [n ts]. apply HP.
  induction ts as [|t ts IHts]; constructor; [apply IH|exact IHts].
Qed.

Lemma to_lower_to_upper (c : ascii) :
  Py.to_lower (Py.to_upper c) = Py.to_lower c.
Proof. destruct c as [[] [] [] [] [] [] [] []]; reflexivity. Qed.

Lemma to_lower_idem (c : ascii) :
  Py.to_lower (Py.to_lower c) = Py.to_lower c.
Proof. destruct c as [[] [] [] [] [] [] [] []]; reflexivity. Qed.

Lemma lower_idem (s : string) : Py.lower (Py.lower s) = Py.lower s.
Proof.
  unfold Py.lower. induction s as [|c s IH]; simpl; [done|].
  by rewrite to_lower_idem, IH.
Qed.

Lemma lower_capitalize (s : string) : Py.lower (Py.capitalize s) = Py.lower s.
Proof.
  destruct s as [|c s]; [done|]. unfold Py.capitalize.
  change (Py.lower (String (Py.to_upper c) (Py.lower s)))
    with (String (Py.to_lower (Py.to_upper c)) (Py.lower (Py.lower s))).
  by rewrite to_lower_to_upper, lower_idem.
Qed.

Lemma colher_No (nc n : string) (ts : list arvore) :
  colher nc (No n ts)
  = (if negb (String.eqb (Py.lower (Py.capitalize n)) nc)
     then [Py.capitalize n] else [])
    ++ concat (map (colher nc) ts).
Proof.
  unfold colher. cbn [preordem]. rewrite filter_cons, lower_capitalize.
  destruct (String.eqb_spec (Py.lower n) nc) as [Heq|Hne]; simpl.
  - rewrite decide_False by (intros Hx; by apply Hx).
    induction ts as [|t ts IH]; [done|]. simpl.
    by rewrite filter_app, fmap_app, IH.
  - rewrite decide_True by done. rewrite fmap_cons. f_equal.
    induction ts as [|t ts IH]; [done|]. simpl.
    by rewrite filter_app, fmap_app, IH.
Qed.

Lemma extrair_evolucoes_representa (nc : string) (t : arvore) :
  forall (j : json) (depth : nat) (acc : list string),
    representa j t ->
    profundidade t <= depth ->
    extrair_evolucoes depth nc acc j = Ok (acc ++ colher nc t).
Proof.
  induction t as [n ts IH] using arvore_ind'.
  intros j depth acc Hrep Hdepth. inversion Hrep as [kvs skvs n' js ts' Hsp Hname Hevo Hkids]; subst.
  destruct depth as [|depth]; [simpl in Hdepth; lia|].
  cbn [extrair_evolucoes Dyn.getitem]. rewrite Hsp. cbn [bind Dyn.getitem].
  rewrite Hname. cbn [bind Dyn.as_str Dyn.get]. rewrite Hevo.
  cbn [bind Dyn.iter]. rewrite colher_No.
  set (acc' := if negb (String.eqb (Py.lower (Py.capitalize n)) nc)
               then acc ++ [Py.capitalize n] else acc).
  assert (acc ++ (if negb (String.eqb (Py.lower (Py.capitalize n)) nc)
                  then [Py.capitalize n] else [])
          = acc') as Hacc.
  { unfold acc'. destruct (negb _); [done|by rewrite app_nil_r]. }
  rewrite app_assoc, Hacc. clear Hacc. generalize acc'. clear acc'.
  cbn [profundidade] in Hdepth. apply le_S_n in Hdepth.
  clear Hrep Hevo Hsp Hname.
  induction Hkids as [|j t js ts Hjt Hkids IHk]; intros acc'.
  - simpl. by rewrite app_nil_r.
  - apply Forall_cons in IH as [IHt IHts]. cbn [foldE].
    simpl in Hdepth.
    rewrite (IHt j depth acc' Hjt) by lia. cbn [bind].
    rewrite IHk; [|done|lia]. simpl. by rewrite app_assoc.
Qed.

(** C8.  When the species payload names an evolution chain and the chain
    request returns a chain [t] (no deeper than the interpreter allows),
    the names collected are those of the chain in pre-order (a node, then
    each [evolves_to] branch in turn, depth first), capitalized, without
    the nodes whose lower-cased name is the corrected name of the creature
    asked for; the [evolucao] field of the record is that list, or
    ["Não evolui"] when the list is empty. *)
Theorem evolucoes_em_preordem (NOMES_VALIDOS : list string) (mundo : World)
    (nome_ : string) (d : Dados) (species_data evolution_chain : json)
    (url : string) (status : Z) (chain_data chain : json) (t : arvore) :
  let nc := corrigir_nome_pokemon NOMES_VALIDOS (limpar_nome nome_) in
  buscar_na_pokeapi NOMES_VALIDOS mundo nome_ = Some d ->
  http mundo (species_url (nome_api NOMES_VALIDOS nome_))
  = Response 200 (Some species_data) ->
  Dyn.getitem species_data "evolution_chain" = Ok evolution_chain ->
  Dyn.getitem evolution_chain "url" = Ok (JStr url) ->
  http mundo url = Response status (Some chain_data) ->
  Dyn.getitem chain_data "chain" = Ok chain ->
  representa chain t ->
  profundidade t <= recursion_limit mundo ->
  extrair_evolucoes (recursion_limit mundo) nc [] chain = Ok (colher nc t)
  /\ evolucao d = lista match colher nc t with
                        | [] => ["Não evolui"]
                        | l => l
                        end.
Proof.
  intros nc Hd Hsp Hec Hurl Hch Hchain Hrep Hdepth.
  assert (extrair_evolucoes (recursion_limit mundo) nc [] chain
          = Ok (colher nc t)) as Hex.
  { by rewrite (extrair_evolucoes_representa nc t chain _ [] Hrep Hdepth). }
  split; [exact Hex|].
  apply buscar_na_pokeapi_Some in Hd.
  destruct Hd as (_ & _ & _ & sd & _ & _ & _ & _ & _ & _ & _ & Hsp' & _ & _
                  & _ & _ & Hevo & _).
  unfold nome_api in Hsp. rewrite Hsp in Hsp'. injection Hsp' as <-.
  fold nc in Hevo.
  destruct species_data as [| | | | | |kvs]; try discriminate.
  simpl in Hec. destruct (Dyn.assoc "evolution_chain" kvs) as [ec|] eqn:Hk;
    [|discriminate]. injection Hec as ->.
  unfold processar_evolucao in Hevo. rewrite Hk, Hurl in Hevo.
  cbn [bind requests_get] in Hevo. rewrite Hch in Hevo.
  cbn [bind response_json snd] in Hevo.
  destruct chain_data as [| | | | | |ckvs]; try discriminate.
  assert (Dyn.truthy (JObj ckvs) = true) as Htr.
  { destruct ckvs; [discriminate|reflexivity]. }
  rewrite Htr, Hchain in Hevo. cbn [bind] in Hevo. rewrite Hex in Hevo.
  cbn [bind] in Hevo. destruct (colher nc t); by injection Hevo as <-.
Qed.

Lemma evolucoes_em_preordem_witness :
  exists d,
    buscar_na_pokeapi ["pikachu"] (mundo_exemplo api_ok (Raise EOFError))
      "Pikachu" = Some d
    /\ evolucao d = lista ["Pichu"; "Raichu"].
Proof.
  eexists. split; [vm_compute; reflexivity|].
  refine (proj2 (evolucoes_em_preordem ["pikachu"]
                   (mundo_exemplo api_ok (Raise EOFError)) "Pikachu" _
                   pikachu_species (JObj [("url", JStr chain_url_pikachu)])
                   chain_url_pikachu 200 pikachu_chain
                   (elo "pichu" [elo "pikachu" [elo "raichu" []]])
                   (No "pichu" [No "pikachu" [No "raichu" []]])
                   _ _ _ _ _ _ _ _)).
  - vm_compute. reflexivity.
  - vm_compute. reflexivity.
  - reflexivity.
  - reflexivity.
  - vm_compute. reflexivity.
  - reflexivity.
  - repeat (econstructor; try reflexivity).
  - simpl. lia.
Defined.

(** ** The comparison *)

Section Comparar.

Variable cache_local : json.
Variable NOMES_VALIDOS : list string.
Variable mundo : World.

(** C3 (amended).  For the intent [Comparar] the answer is built from the
    first two capitalized words found in the text of the memory, whether or
    not they are the same word, each resolved on its own (remote API, then
    cache).  The usage hint is the answer when the text has fewer than two
    such words, and when both resolutions return and one of them finds
    nothing. *)
Theorem comparar_primeiros_dois (m : MemoriaConversa) (d : Dados) :
  gerar_resposta cache_local NOMES_VALIDOS mundo m Comparar d
  = comparar cache_local NOMES_VALIDOS mundo m
  /\ (forall p1 p2 resto d1 d2,
        Py.findall_capitalized (contexto m) = p1 :: p2 :: resto ->
        buscar cache_local NOMES_VALIDOS mundo p1 = Ok (Some d1) ->
        buscar cache_local NOMES_VALIDOS mundo p2 = Ok (Some d2) ->
        comparar cache_local NOMES_VALIDOS mundo m
        = comparacao_texto mundo p1 p2 d1 d2)
  /\ (forall p1 p2 resto o1 o2,
        Py.findall_capitalized (contexto m) = p1 :: p2 :: resto ->
        buscar cache_local NOMES_VALIDOS mundo p1 = Ok o1 ->
        buscar cache_local NOMES_VALIDOS mundo p2 = Ok o2 ->
        o1 = None \/ o2 = None ->
        comparar cache_local NOMES_VALIDOS mundo m
        = Ok "Por favor, pergunte algo como 'Quem é mais forte: Charizard ou Blastoise?'")
  /\ (length (Py.findall_capitalized (contexto m)) < 2 ->
      comparar cache_local NOMES_VALIDOS mundo m
      = Ok "Por favor, pergunte algo como 'Quem é mais forte: Charizard ou Blastoise?'").
Proof.
  split; [reflexivity|]. split; [|split].
  - intros p1 p2 resto d1 d2 Hf H1 H2. unfold comparar.
    rewrite Hf, H1. cbn [bind]. rewrite H2. reflexivity.
  - intros p1 p2 resto o1 o2 Hf H1 H2 Hnone. unfold comparar.
    rewrite Hf, H1. cbn [bind]. rewrite H2. cbn [bind].
    destruct Hnone as [-> | ->]; [reflexivity|]. by destruct o1.
  - intros Hlen. unfold comparar.
    destruct (Py.findall_capitalized (contexto m)) as [|p1 [|p2 resto]];
      [reflexivity|reflexivity|simpl in Hlen; lia].
Qed.

End Comparar.

Lemma comparar_primeiros_dois_witness :
  comparar (JArr [pikachu_cache]) ["pikachu"] mundo_isolado
    {| historico := [("quem vence?", "Pikachu, claro.")];
       ultimo_pokemon := Some "Pikachu" |}
  = Ok dica_comparar
  /\ comparar (JArr [pikachu_cache]) ["pikachu"] mundo_isolado
       {| historico := [("Pikachu ou Mewtwo?", "...")];
          ultimo_pokemon := Some "Pikachu" |}
     = Ok dica_comparar.
Proof.
  split.
  - apply (proj2 (proj2 (proj2 (comparar_primeiros_dois
              (JArr [pikachu_cache]) ["pikachu"] mundo_isolado _
              (Build_Dados "" JNull JNull JNull JNull [] JNull JNull ""))))).
    vm_compute. lia.
  - refine (proj1 (proj2 (proj2 (comparar_primeiros_dois
              (JArr [pikachu_cache]) ["pikachu"] mundo_isolado _
              (Build_Dados "" JNull JNull JNull JNull [] JNull JNull ""))))
              "Pikachu" "Mewtwo" [] _ None _ _ _ _).
    + vm_compute. reflexivity.
    + vm_compute. reflexivity.
    + vm_compute. reflexivity.
    + right. reflexivity.
Defined.

(** C3 (as stated, refuted).  The memory names Pikachu twice and nothing
    else: there are not two distinct names, yet the answer is a comparison
    of Pikachu with itself, not the usage hint. *)
Lemma comparar_mesmo_nome :
  Py.findall_capitalized (contexto memoria_pikachu) = ["Pikachu"; "Pikachu"]
  /\ exists texto,
       comparar (JArr [pikachu_cache]) ["pikachu"] mundo_isolado memoria_pikachu
       = Ok ("⚖️ Comparação entre Pikachu e Pikachu:" +:+ texto)
       /\ comparar (JArr [pikachu_cache]) ["pikachu"] mundo_isolado
            memoria_pikachu
          <> Ok dica_comparar.
Proof.
  split; [vm_compute; reflexivity|].
  eexists. split; [vm_compute; reflexivity|]. vm_compute. discriminate.
Qed.

(** ** [difflib]: what [find_longest_match] returns *)

Section FindLongestMatch.

Context {A : Type} `{Countable A}.
Variables a b : list A.

Import Difflib.

Lemma indices_from_lookup (elt : A) (l : list A) (i0 j : nat) :
  j ∈ indices_from i0 elt l <-> exists t, j = i0 + t /\ l !! t = Some elt.
Proof.
  revert i0. induction l as [|x l IH]; intros i0; simpl.
  - split; [intros Hj; by apply elem_of_nil in Hj|].
    intros (t & _ & Ht). by rewrite lookup_nil in Ht.
  - destruct (decide (x = elt)) as [->|Hne].
    + rewrite elem_of_cons, IH. split.
      * intros [->|(t & -> & Ht)]; [exists 0|exists (S t)]; split; (lia || done).
      * intros ([|t] & -> & Ht); [left; lia|right].
        exists t. split; [lia|done].
    + rewrite IH. split.
      * intros (t & -> & Ht). exists (S t). split; [lia|done].
      * intros ([|t] & -> & Ht); [simpl in Ht; congruence|].
        exists t. split; [lia|done].
Qed.

Lemma b2j_lookup (elt : A) (j : nat) :
  j ∈ b2j b elt -> b !! j = Some elt.
Proof.
  unfold b2j. destruct (popular b elt); [intros Hj; by apply elem_of_nil in Hj|].
  rewrite indices_from_lookup. by intros (t & -> & Ht).
Qed.

Lemma match_at_0 (i j : nat) : match_at a b i j 0.
Proof. intros t Ht. lia. Qed.

Lemma match_at_snoc (i j k : nat) (x : A) :
  match_at a b i j k ->
  a !! (i + k) = Some x -> b !! (j + k) = Some x ->
  match_at a b i j (S k).
Proof.
  intros Hm Ha Hb t Ht. destruct (decide (t = k)) as [->|Hne].
  - eauto.
  - apply Hm. lia.
Qed.

Lemma match_at_cons (i j k : nat) (x : A) :
  match_at a b (S i) (S j) k ->
  a !! i = Some x -> b !! j = Some x ->
  match_at a b i j (S k).
Proof.
  intros Hm Ha Hb [|t] Ht.
  - rewrite !Nat.add_0_r. eauto.
  - destruct (Hm t) as (y & Hy1 & Hy2); [lia|].
    exists y. by rewrite <- !Nat.add_succ_comm.
Qed.

Section Window.

Variables alo ahi blo bhi : nat.

Lemma scan_row_ok (i : nat) (elt : A) (js : list nat) :
  a !! i = Some elt ->
  alo <= i -> i < ahi ->
  (forall j, j ∈ js -> b !! j = Some elt) ->
  forall (j2len newj2len : gmap nat nat) (best : triple),
    dict_ok a b alo blo bhi i j2len ->
    dict_ok a b alo blo bhi (S i) newj2len ->
    bloco_ok a b alo ahi blo bhi best ->
    dict_ok a b alo blo bhi (S i) (fst (scan_row blo bhi i js j2len newj2len best))
    /\ bloco_ok a b alo ahi blo bhi
         (snd (scan_row blo bhi i js j2len newj2len best)).
Proof.
  intros Ha Hlo Hhi. induction js as [|j js IH];
    intros Hjs j2len newj2len best Hd Hn Hb; [done|].
  cbn [scan_row].
  assert (forall j, j ∈ js -> b !! j = Some elt) as Hjs'
    by (intros; apply Hjs; by right).
  assert (b !! j = Some elt) as Hbj by (apply Hjs; left).
  destruct (Nat.ltb_spec j blo) as [Hlt|Hge]; [by apply IH|].
  destruct (Nat.leb_spec bhi j) as [Hbr|Hin]; [done|].
  (* the length of the match that ends at (i, j) *)
  assert (exists k, j2lenget j2len j + 1 = k
                    /\ 1 <= k /\ alo + k <= S i /\ blo + k <= j + 1
                    /\ match_at a b (S i - k) (j + 1 - k) k) as (k & Hk & Hk1 & Hka & Hkb & Hkm).
  { eexists. split; [reflexivity|].
    assert (match_at a b i j 1) as H1.
    { intros t Ht. replace t with 0 by lia. rewrite !Nat.add_0_r. eauto. }
    assert (forall k', j2lenget j2len j = k' ->
              k' = 0 \/ (exists j', j = S j' /\ j2len !! j' = Some k')) as Hcase.
    { intros k' <-. unfold j2lenget. destruct j as [|j']; [by left|].
      destruct (j2len !! j') as [k'|] eqn:Hk'; [|by left].
      right. by exists j'. }
    destruct (Hcase _ eq_refl) as [->|(j' & -> & Hk')].
    - replace (S i - (0 + 1)) with i by lia.
      replace (j + 1 - (0 + 1)) with j by lia. repeat split; (lia || done).
    - destruct (Hd j' _ Hk') as (Hk1 & Hka & Hkb & _ & Hkm).
      set (k' := j2lenget j2len (S j')) in *.
      repeat split; try lia.
      replace (S i - (k' + 1)) with (i - k') by lia.
      replace (S j' + 1 - (k' + 1)) with (j' + 1 - k') by lia.
      replace (k' + 1) with (S k') by lia.
      apply match_at_snoc with elt; [done|..].
      + by replace (i - k' + k') with i by lia.
      + by replace (j' + 1 - k' + k') with (S j') by lia. }
  rewrite Hk. apply IH; [done|done| |].
  - intros j0 k0. rewrite lookup_insert. case_decide as Hj0.
    + intros [= <-]. subst j0. repeat split; (lia || done).
    + apply Hn.
  - destruct (Nat.ltb_spec (size_of best) k); [|done].
    unfold bloco_ok. replace (i + 1 - k) with (S i - k) by lia.
    repeat split; (lia || done).
Qed.

Lemma scan_rows_ok (rows : list nat) :
  forall (i : nat) (j2len : gmap nat nat) (best : triple),
    rows = seq i (length rows) ->
    alo <= i -> i + length rows <= ahi ->
    dict_ok a b alo blo bhi i j2len ->
    bloco_ok a b alo ahi blo bhi best ->
    bloco_ok a b alo ahi blo bhi (scan_rows a b blo bhi rows j2len best).
Proof.
  induction rows as [|i' rows IH]; intros i j2len best Hrows Hlo Hhi Hd Hb;
    [done|].
  simpl in Hrows. injection Hrows as -> Hrows. simpl in Hhi.
  cbn [scan_rows]. destruct (a !! i) as [elt|] eqn:Ha; [|done].
  pose proof (scan_row_ok i elt (b2j b elt) Ha Hlo ltac:(lia)
                (fun j => b2j_lookup elt j) j2len ∅ best Hd) as Hrow.
  destruct (scan_row blo bhi i (b2j b elt) j2len ∅ best) as [d' best'].
  destruct Hrow as [Hd' Hb']; [|done|].
  { intros j k Hjk. by rewrite lookup_empty in Hjk. }
  apply (IH (S i)); (done || lia).
Qed.

Lemma extend_left_ok (junk : bool) (besti : nat) :
  forall bestj bestsize,
    bloco_ok a b alo ahi blo bhi (besti, bestj, bestsize) ->
    bloco_ok a b alo ahi blo bhi
      (extend_left a b junk alo blo besti bestj bestsize).
Proof.
  induction besti as [|i' IH]; intros bestj bestsize Hb; [done|].
  destruct bestj as [|j']; [done|]. cbn [extend_left].
  destruct (Nat.ltb_spec alo (S i')) as [Hi|]; [|done].
  destruct (Nat.ltb_spec blo (S j')) as [Hj|]; [|done].
  destruct (same a b junk i' j') eqn:Hs; [|done]. simpl.
  apply IH. destruct Hb as (? & ? & ? & ? & Hm).
  unfold same in Hs.
  destruct (a !! i') as [x|] eqn:Hx; [|done].
  destruct (b !! j') as [y|] eqn:Hy; [|done].
  apply andb_true_iff in Hs as [Hxy _]. apply bool_decide_eq_true in Hxy.
  subst y. repeat split; try lia. by apply match_at_cons with x.
Qed.

Lemma extend_right_ok (junk : bool) (besti bestj fuel : nat) :
  forall bestsize,
    bloco_ok a b alo ahi blo bhi (besti, bestj, bestsize) ->
    bloco_ok a b alo ahi blo bhi
      (besti, bestj, extend_right a b junk ahi bhi besti bestj fuel bestsize).
Proof.
  induction fuel as [|fuel IH]; intros bestsize Hb; [done|].
  cbn [extend_right].
  destruct (Nat.ltb_spec (besti + bestsize) ahi) as [Hi|]; [|done].
  destruct (Nat.ltb_spec (bestj + bestsize) bhi) as [Hj|]; [|done].
  destruct (same a b junk (besti + bestsize) (bestj + bestsize)) eqn:Hs;
    [|done]. simpl.
  apply IH. destruct Hb as (? & ? & ? & ? & Hm).
  unfold same in Hs.
  destruct (a !! (besti + bestsize)) as [x|] eqn:Hx; [|done].
  destruct (b !! (bestj + bestsize)) as [y|] eqn:Hy; [|done].
  apply andb_true_iff in Hs as [Hxy _]. apply bool_decide_eq_true in Hxy.
  subst y. repeat split; try lia. by apply match_at_snoc with x.
Qed.

Lemma find_longest_match_ok :
  alo <= ahi -> blo <= bhi ->
  bloco_ok a b alo ahi blo bhi (find_longest_match a b alo ahi blo bhi).
Proof.
  intros Ha Hb. unfold find_longest_match.
  pose proof (scan_rows_ok (seq alo (ahi - alo)) alo ∅ (alo, blo, 0)) as H0.
  rewrite length_seq in H0.
  destruct (scan_rows a b blo bhi (seq alo (ahi - alo)) ∅ (alo, blo, 0))
    as [[i0 j0] k0].
  assert (bloco_ok a b alo ahi blo bhi (i0, j0, k0)) as H1.
  { apply H0; [done|lia|lia| |].
    - intros j k Hjk. by rewrite lookup_empty in Hjk.
    - repeat split; try lia. apply match_at_0. }
  pose proof (extend_left_ok false i0 j0 k0 H1) as H2.
  destruct (extend_left a b false alo blo i0 j0 k0) as [[i1 j1] k1].
  pose proof (extend_right_ok false i1 j1 (ahi - (i1 + k1)) k1 H2) as H3.
  set (k2 := extend_right a b false ahi bhi i1 j1 (ahi - (i1 + k1)) k1) in *.
  pose proof (extend_left_ok true i1 j1 k2 H3) as H4.
  destruct (extend_left a b true alo blo i1 j1 k2) as [[i3 j3] k3].
  apply (extend_right_ok true i3 j3 (ahi - (i3 + k3)) k3 H4).
Qed.

End Window.

End FindLongestMatch.

(** ** [difflib]: the matching blocks *)

Section MatchingBlocks.

Context {A : Type} `{Countable A}.
Variables a b : list A.

Import Difflib.

Lemma match_at_app (i j k1 k2 : nat) :
  match_at a b i j k1 ->
  match_at a b (i + k1) (j + k1) k2 ->
  match_at a b i j (k1 + k2).
Proof.
  intros H1 H2 t Ht. destruct (decide (t < k1)) as [Hlt|Hge].
  - by apply H1.
  - destruct (H2 (t - k1)) as (x & Hx1 & Hx2); [lia|].
    exists x. replace (i + t) with (i + k1 + (t - k1)) by lia.
    by replace (j + t) with (j + k1 + (t - k1)) by lia.
Qed.

Lemma total_cons (t : triple) (l : list triple) :
  total (t :: l) = size_of t + total l.
Proof. reflexivity. Qed.

Lemma total_app (l1 l2 : list triple) :
  total (l1 ++ l2) = total l1 + total l2.
Proof. apply sum_list_with_app. Qed.

(** The blocks of a window fit in it, on both sides; if they fill it on
    both sides, the two windows are equal. *)
Lemma blocks_rec_total (n : nat) :
  forall alo ahi blo bhi,
    alo <= ahi -> blo <= bhi ->
    total (blocks_rec a b n (alo, ahi, blo, bhi)) <= ahi - alo
    /\ total (blocks_rec a b n (alo, ahi, blo, bhi)) <= bhi - blo
    /\ (total (blocks_rec a b n (alo, ahi, blo, bhi)) = ahi - alo ->
        total (blocks_rec a b n (alo, ahi, blo, bhi)) = bhi - blo ->
        match_at a b alo blo (ahi - alo)).
Proof.
  induction n as [|n IH]; intros alo ahi blo bhi Ha Hb.
  { simpl. unfold total. simpl. repeat split; try lia.
    intros <- _. apply match_at_0. }
  cbn [blocks_rec].
  pose proof (find_longest_match_ok a b alo ahi blo bhi Ha Hb) as Hok.
  destruct (find_longest_match a b alo ahi blo bhi) as [[i j] k].
  destruct Hok as (Hi & Hik & Hj & Hjk & Hm).
  destruct (Nat.eqb_spec k 0) as [->|Hk].
  { unfold total. simpl. repeat split; try lia.
    intros <- _. apply match_at_0. }
  set (R := if (i + k <? ahi) && (j + k <? bhi)
            then blocks_rec a b n (i + k, ahi, j + k, bhi) else []).
  set (L := if (alo <? i) && (blo <? j)
            then blocks_rec a b n (alo, i, blo, j) else []).
  assert (total R <= ahi - (i + k) /\ total R <= bhi - (j + k)
          /\ (total R = ahi - (i + k) -> total R = bhi - (j + k) ->
              match_at a b (i + k) (j + k) (ahi - (i + k)))) as (HR1 & HR2 & HR3).
  { unfold R. destruct ((i + k <? ahi) && (j + k <? bhi)).
    - apply IH; lia.
    - unfold total. simpl. repeat split; try lia.
      intros <- _. apply match_at_0. }
  assert (total L <= i - alo /\ total L <= j - blo
          /\ (total L = i - alo -> total L = j - blo ->
              match_at a b alo blo (i - alo))) as (HL1 & HL2 & HL3).
  { unfold L. destruct ((alo <? i) && (blo <? j)).
    - apply IH; lia.
    - unfold total. simpl. repeat split; try lia.
      intros <- _. apply match_at_0. }
  rewrite total_cons, total_app. simpl.
  split; [lia|]. split; [lia|]. intros Hta Htb.
  replace (ahi - alo) with ((i - alo) + (k + (ahi - (i + k)))) by lia.
  apply match_at_app; [apply HL3; lia|].
  replace (alo + (i - alo)) with i by lia.
  replace (blo + (i - alo)) with j by lia.
  apply match_at_app; [done|]. apply HR3; lia.
Qed.

Lemma blocks_loop_nil (fuel : nat) (acc : list triple) :
  blocks_loop a b fuel [] acc = acc.
Proof. by destruct fuel. Qed.

Lemma turns_bound (n : nat) :
  forall alo ahi blo bhi,
    alo <= ahi -> blo <= bhi ->
    turns a b n (alo, ahi, blo, bhi) <= 2 * (ahi - alo) + 1.
Proof.
  induction n as [|n IH]; intros alo ahi blo bhi Ha Hb; [simpl; lia|].
  cbn [turns].
  pose proof (find_longest_match_ok a b alo ahi blo bhi Ha Hb) as Hok.
  destruct (find_longest_match a b alo ahi blo bhi) as [[i j] k].
  destruct Hok as (Hi & Hik & Hj & Hjk & Hm).
  destruct (Nat.eqb_spec k 0) as [->|Hk]; [lia|].
  assert ((if (i + k <? ahi) && (j + k <? bhi)
           then turns a b n (i + k, ahi, j + k, bhi) else 0)
          <= 2 * (ahi - (i + k)) + 1) as HR.
  { destruct ((i + k <? ahi) && (j + k <? bhi)); [apply IH; lia|lia]. }
  assert ((if (alo <? i) && (blo <? j)
           then turns a b n (alo, i, blo, j) else 0)
          <= 2 * (i - alo) + 1) as HL.
  { destruct ((alo <? i) && (blo <? j)); [apply IH; lia|lia]. }
  lia.
Qed.

(** The loop spends [turns] turns on the window on top of the queue, and
    appends its blocks. *)
Lemma blocks_loop_rec (n : nat) :
  forall alo ahi blo bhi queue acc fuel,
    alo <= ahi -> blo <= bhi -> ahi - alo < n ->
    turns a b n (alo, ahi, blo, bhi) <= fuel ->
    blocks_loop a b fuel ((alo, ahi, blo, bhi) :: queue) acc
    = blocks_loop a b (fuel - turns a b n (alo, ahi, blo, bhi)) queue
        (acc ++ blocks_rec a b n (alo, ahi, blo, bhi)).
Proof.
  induction n as [|n IH]; intros alo ahi blo bhi queue acc fuel Ha Hb Hn Hf;
    [lia|].
  cbn [turns blocks_rec] in *.
  pose proof (find_longest_match_ok a b alo ahi blo bhi Ha Hb) as Hok.
  destruct fuel as [|fuel].
  { destruct (find_longest_match a b alo ahi blo bhi) as [[i j] k].
    destruct (k =? 0); lia. }
  cbn [blocks_loop].
  destruct (find_longest_match a b alo ahi blo bhi) as [[i j] k].
  destruct Hok as (Hi & Hik & Hj & Hjk & Hm).
  revert Hf. destruct (k =? 0) eqn:Hk; intros Hf.
  { by rewrite app_nil_r, Nat.sub_succ, Nat.sub_0_r. }
  apply Nat.eqb_neq in Hk. revert Hf.
  destruct ((i + k <? ahi) && (j + k <? bhi)) eqn:HR;
    destruct ((alo <? i) && (blo <? j)) eqn:HL; intros Hf.
  - rewrite (IH (i + k) ahi (j + k) bhi); [|lia..].
    rewrite (IH alo i blo j); [|lia..].
    rewrite <- !app_assoc. simpl. f_equal; lia.
  - rewrite (IH (i + k) ahi (j + k) bhi); [|lia..].
    rewrite <- !app_assoc. simpl. rewrite app_nil_r. f_equal; lia.
  - rewrite (IH alo i blo j); [|lia..].
    rewrite <- !app_assoc. simpl. f_equal; lia.
  - simpl. f_equal; lia.
Qed.

Lemma blocks_loop_all :
  blocks_loop a b (2 * length a + 1) [(0, length a, 0, length b)] []
  = blocks_rec a b (S (length a)) (0, length a, 0, length b).
Proof.
  pose proof (turns_bound (S (length a)) 0 (length a) 0 (length b)) as Ht.
  rewrite (blocks_loop_rec (S (length a))) by lia.
  by rewrite blocks_loop_nil.
Qed.

Lemma total_collapse (l : list triple) :
  forall cur, total (collapse cur l) = size_of cur + total l.
Proof.
  induction l as [|[[i2 j2] k2] l IH]; intros [[i1 j1] k1]; cbn [collapse].
  - unfold total. destruct (Nat.eqb_spec k1 0); simpl; lia.
  - destruct ((i1 + k1 =? i2) && (j1 + k1 =? j2)).
    + rewrite IH, total_cons. simpl. lia.
    + rewrite total_app, IH, total_cons. unfold total.
      destruct (Nat.eqb_spec k1 0); simpl; lia.
Qed.

Lemma total_Permutation (l1 l2 : list triple) :
  l1 ≡ₚ l2 -> total l1 = total l2.
Proof. unfold total. by intros ->. Qed.

(** The number of matches that [ratio] counts. *)
Lemma total_get_matching_blocks :
  total (get_matching_blocks a b)
  = total (blocks_rec a b (S (length a)) (0, length a, 0, length b)).
Proof.
  unfold get_matching_blocks. cbv zeta.
  rewrite total_app, total_collapse, blocks_loop_all.
  rewrite (total_Permutation _ _ (merge_sort_Permutation _ _)).
  unfold total at 2. simpl. lia.
Qed.

Lemma matches_le :
  total (get_matching_blocks a b) <= length a
  /\ total (get_matching_blocks a b) <= length b.
Proof.
  rewrite total_get_matching_blocks.
  destruct (blocks_rec_total (S (length a)) 0 (length a) 0 (length b))
    as (Ha & Hb & _); lia.
Qed.

Lemma matches_all :
  total (get_matching_blocks a b) = length a ->
  total (get_matching_blocks a b) = length b ->
  a = b.
Proof.
  rewrite total_get_matching_blocks. intros Ha Hb.
  destruct (blocks_rec_total (S (length a)) 0 (length a) 0 (length b))
    as (_ & _ & Hm); [lia|lia|].
  rewrite !Nat.sub_0_r in Hm. specialize (Hm Ha Hb).
  apply list_eq_same_length with (length a); [congruence|done|].
  intros t x y Ht Hx Hy. destruct (Hm t Ht) as (z & Hz1 & Hz2).
  simpl in Hz1, Hz2. congruence.
Qed.

End MatchingBlocks.

(** ** [difflib]: a sequence against itself *)

Section Reflexive.

Context {A : Type} `{Countable A}.
Variable a : list A.

Import Difflib.

Lemma indices_from_sorted (elt : A) (l : list A) :
  forall i0, StronglySorted lt (indices_from i0 elt l)
             /\ forall j, j ∈ indices_from i0 elt l -> i0 <= j.
Proof.
  induction l as [|x l IH]; intros i0; simpl.
  - split; [constructor|]. intros j Hj. by apply elem_of_nil in Hj.
  - destruct (IH (S i0)) as [Hs Hge]. destruct (decide (x = elt)).
    + split.
      * constructor; [done|]. apply Forall_forall. intros j Hj.
        apply Hge in Hj. lia.
      * intros j Hj. apply elem_of_cons in Hj as [->|Hj]; [lia|].
        apply Hge in Hj. lia.
    + split; [done|]. intros j Hj. apply Hge in Hj. lia.
Qed.

Lemma diag_indexed (i : nat) (x : A) :
  a !! i = Some x -> popular a x = false ->
  diag a a i = S (match i with O => 0 | S r => diag a a r end).
Proof. intros Hx Hp. destruct i; simpl; by rewrite Hx, Hp. Qed.

Lemma diag_popular (i : nat) (x : A) :
  a !! i = Some x -> popular a x = true -> diag a a i = 0.
Proof. intros Hx Hp. destruct i; simpl; by rewrite Hx, Hp. Qed.

(** The value that the inner loop computes at [(i, j)]. *)
Lemma j2lenget_diag (i j : nat) (elt : A) (j2len : gmap nat nat) :
  a !! i = Some elt -> a !! j = Some elt -> popular a elt = false ->
  prev_diag a a i j2len ->
  1 <= j2lenget j2len j + 1
  /\ j2lenget j2len j + 1 <= diag a a i
  /\ j2lenget j2len j + 1 <= diag a a j
  /\ (j = i -> j2lenget j2len j + 1 = diag a a i).
Proof.
  intros Hi Hj Hp Hprev.
  rewrite (diag_indexed i elt Hi Hp), (diag_indexed j elt Hj Hp).
  unfold j2lenget. destruct j as [|j'].
  - split; [lia|]. split; [lia|]. split; [lia|]. intros <-. lia.
  - destruct i as [|r].
    + simpl in Hprev. subst j2len. rewrite lookup_empty. simpl.
      repeat split; lia.
    + destruct Hprev as [Hu He].
      destruct (j2len !! j') as [k'|] eqn:Hk'; simpl.
      * destruct (Hu j' k' Hk') as (Hk1 & Hkr & Hkj).
        repeat split; try lia. intros [= ->].
        rewrite He in Hk' by lia. injection Hk' as <-. lia.
      * repeat split; try lia. intros [= ->].
        destruct (diag a a r) as [|m] eqn:Hd; [lia|].
        rewrite He in Hk' by lia. discriminate.
Qed.

Lemma scan_row_diag (i : nat) (elt : A) (j2len : gmap nat nat) :
  a !! i = Some elt -> popular a elt = false ->
  prev_diag a a i j2len ->
  forall (js : list nat) (newj2len : gmap nat nat) (bi bk : nat),
    StronglySorted lt js ->
    (forall j, j ∈ js -> a !! j = Some elt) ->
    under_diag a a i newj2len ->
    (i ∈ js \/ newj2len !! i = Some (diag a a i)) ->
    (forall r, r < i -> diag a a r <= bk) ->
    (i ∈ js \/ diag a a i <= bk) ->
    exists d' bi' bk',
      scan_row 0 (length a) i js j2len newj2len (bi, bi, bk)
      = (d', (bi', bi', bk'))
      /\ under_diag a a i d'
      /\ d' !! i = Some (diag a a i)
      /\ forall r, r <= i -> diag a a r <= bk'.
Proof.
  intros Hi Hp Hprev. induction js as [|j js IH];
    intros newj2len bi bk Hs Hjs Hu He Hrows Hrow.
  - exists newj2len, bi, bk. split; [done|]. split; [done|].
    destruct He as [He|He]; [by apply elem_of_nil in He|].
    split; [done|]. intros r Hr.
    destruct Hrow as [Hrow|Hrow]; [by apply elem_of_nil in Hrow|].
    destruct (decide (r = i)) as [->|]; [done|]. apply Hrows. lia.
  - cbn [scan_row].
    assert (a !! j = Some elt) as Hj by (apply Hjs; left).
    assert (j < length a) as Hjn by (by eapply lookup_lt_Some).
    replace (j <? 0) with false by done.
    destruct (Nat.leb_spec (length a) j) as [|_]; [lia|].
    destruct (j2lenget_diag i j elt j2len Hi Hj Hp Hprev)
      as (Hk1 & Hki & Hkj & Hkd).
    set (k := j2lenget j2len j + 1) in *.
    apply StronglySorted_inv in Hs as [Hs Hlt].
    rewrite Forall_forall in Hlt.
    assert (forall j0, j0 ∈ js -> a !! j0 = Some elt) as Hjs'
      by (intros; apply Hjs; by right).
    assert (under_diag a a i (<[j:=k]> newj2len)) as Hu'.
    { intros j0 k0. rewrite lookup_insert. case_decide as Hj0.
      - intros [= <-]. by subst j0.
      - apply Hu. }
    assert (i ∈ js \/ <[j:=k]> newj2len !! i = Some (diag a a i)) as He'.
    { destruct (decide (j = i)) as [->|Hne].
      - right. rewrite lookup_insert_eq. f_equal. by apply Hkd.
      - destruct He as [He|He].
        + apply elem_of_cons in He as [->|He]; [done|by left].
        + right. by rewrite lookup_insert_ne. }
    (* the row of the best block does not leave the diagonal *)
    destruct (decide (j = i)) as [->|Hne].
    + rewrite (Hkd eq_refl) in *. unfold size_of. cbn [snd].
      destruct (Nat.ltb_spec bk (diag a a i)) as [Hup|Hno].
      * apply IH; try done.
        -- intros r Hr. specialize (Hrows r Hr). lia.
        -- right. lia.
      * apply IH; try done. by right.
    + assert (k <= bk) as Hkb.
      { destruct (decide (j < i)) as [Hlt'|Hgt].
        - specialize (Hrows j Hlt'). lia.
        - destruct Hrow as [Hrow|Hrow]; [|lia].
          apply elem_of_cons in Hrow as [->|Hrow]; [done|].
          specialize (Hlt i Hrow). lia. }
      unfold size_of. cbn [snd].
      destruct (Nat.ltb_spec bk k) as [|_]; [lia|].
      apply IH; try done.
      destruct Hrow as [Hrow|Hrow]; [|by right].
      apply elem_of_cons in Hrow as [->|Hrow]; [done|by left].
Qed.

Lemma scan_rows_diag (rows : list nat) :
  forall (i : nat) (j2len : gmap nat nat) (bi bk : nat),
    rows = seq i (length rows) ->
    i + length rows <= length a ->
    prev_diag a a i j2len ->
    (forall r, r < i -> diag a a r <= bk) ->
    exists bi' bk',
      scan_rows a a 0 (length a) rows j2len (bi, bi, bk) = (bi', bi', bk').
Proof.
  induction rows as [|i' rows IH]; intros i j2len bi bk Hrows Hn Hprev Hbk.
  - by exists bi, bk.
  - simpl in Hrows. injection Hrows as -> Hrows. simpl in Hn.
    cbn [scan_rows].
    destruct (lookup_lt_is_Some_2 a i) as [elt Hi]; [lia|]. rewrite Hi.
    destruct (popular a elt) eqn:Hp.
    + unfold b2j. rewrite Hp. cbn [scan_row].
      apply (IH (S i)); [done|lia| |].
      * split; [intros j k Hjk; by rewrite lookup_empty in Hjk|].
        rewrite (diag_popular i elt Hi Hp). lia.
      * intros r Hr. destruct (decide (r = i)) as [->|].
        -- rewrite (diag_popular i elt Hi Hp). lia.
        -- apply Hbk. lia.
    + destruct (indices_from_sorted elt a 0) as [Hs _].
      destruct (scan_row_diag i elt j2len Hi Hp Hprev
                  (b2j a elt) ∅ bi bk) as (d' & bi' & bk' & -> & Hu & He & Hb).
      * unfold b2j. by rewrite Hp.
      * intros j. by apply b2j_lookup.
      * intros j k Hjk. by rewrite lookup_empty in Hjk.
      * left. unfold b2j. rewrite Hp. apply indices_from_lookup.
        exists i. by split.
      * done.
      * left. unfold b2j. rewrite Hp. apply indices_from_lookup.
        exists i. by split.
      * apply (IH (S i)); [done|lia| |].
        -- split; [done|]. by intros _.
        -- intros r Hr. apply Hb. lia.
Qed.

Lemma same_diag (i : nat) :
  i < length a -> same a a false i i = true.
Proof.
  intros Hi. unfold same.
  destruct (lookup_lt_is_Some_2 a i Hi) as [x ->].
  by rewrite bool_decide_eq_true_2.
Qed.

Lemma extend_left_diag (d : nat) :
  forall k, d <= length a ->
    extend_left a a false 0 0 d d k = (0, 0, k + d).
Proof.
  induction d as [|d IH]; intros k Hd; [simpl; f_equal; lia|].
  cbn [extend_left]. rewrite same_diag by lia. simpl.
  rewrite IH by lia. f_equal. lia.
Qed.

Lemma extend_right_diag (fuel : nat) :
  forall k, k + fuel = length a ->
    extend_right a a false (length a) (length a) 0 0 fuel k = length a.
Proof.
  induction fuel as [|fuel IH]; intros k Hk; [simpl; lia|].
  cbn [extend_right]. simpl.
  destruct (Nat.ltb_spec k (length a)) as [_|]; [|lia]. simpl.
  rewrite same_diag by lia. apply IH. lia.
Qed.

Lemma find_longest_match_refl :
  find_longest_match a a 0 (length a) 0 (length a) = (0, 0, length a).
Proof.
  pose proof (find_longest_match_ok a a 0 (length a) 0 (length a)) as Hok.
  unfold find_longest_match in *. rewrite Nat.sub_0_r in *.
  pose proof (scan_rows_ok a a 0 (length a) 0 (length a)
                (seq 0 (length a)) 0 ∅ (0, 0, 0)) as Hscan.
  destruct (scan_rows_diag (seq 0 (length a)) 0 ∅ 0 0) as (d & k & Hd).
  { by rewrite length_seq. }
  { rewrite length_seq. lia. }
  { done. }
  { intros r Hr. lia. }
  rewrite Hd in *.
  destruct Hscan as (_ & Hdk & _).
  { by rewrite length_seq. }
  { lia. }
  { rewrite length_seq. lia. }
  { intros j k0 Hjk. by rewrite lookup_empty in Hjk. }
  { repeat split; try lia. apply match_at_0. }
  rewrite extend_left_diag by lia.
  rewrite (extend_right_diag (length a - (0 + (k + d))) (k + d)) by lia.
  simpl. by rewrite Nat.sub_diag.
Qed.

Lemma blocks_rec_refl :
  total (blocks_rec a a (S (length a)) (0, length a, 0, length a))
  = length a.
Proof.
  cbn [blocks_rec]. rewrite find_longest_match_refl.
  destruct (Nat.eqb_spec (length a) 0) as [->|Hn]; [done|].
  simpl. rewrite Nat.ltb_irrefl. simpl. unfold total. simpl. lia.
Qed.

Lemma matches_refl : total (get_matching_blocks a a) = length a.
Proof. rewrite total_get_matching_blocks. apply blocks_rec_refl. Qed.

End Reflexive.

(** ** [difflib]: the three ratios *)

Section Ratios.

Context {A : Type} `{Countable A}.

Import Difflib.

Lemma fullbcount_foldl (x : A) (l : list A) :
  forall m : gmap A Z,
    default 0%Z
      (foldl (fun m elt => <[elt := (default 0 (m !! elt) + 1)%Z]> m) m l !! x)
    = (default 0 (m !! x) + Z.of_nat (length (filter (eq x) l)))%Z.
Proof.
  induction l as [|y l IH]; intros m; simpl; [lia|].
  rewrite IH, filter_cons. destruct (decide (x = y)) as [->|Hne].
  - rewrite lookup_insert_eq. simpl. lia.
  - by rewrite lookup_insert_ne.
Qed.

Lemma fullbcount_count (b : list A) (x : A) :
  default 0%Z (fullbcount b !! x) = Z.of_nat (length (filter (eq x) b)).
Proof. unfold fullbcount. rewrite fullbcount_foldl, lookup_empty. simpl. lia. Qed.

(** While the elements seen so far are a prefix of [b], each one counts. *)
Lemma quick_loop (b : list A) (rest : list A) :
  forall (p : list A) (avail : gmap A Z) (matches : nat),
    b = p ++ rest ->
    (forall x, match avail !! x with
               | Some n => n = (Z.of_nat (length (filter (eq x) b))
                                - Z.of_nat (length (filter (eq x) p)))%Z
               | None => length (filter (eq x) p) = 0
               end) ->
    snd (foldl (quick_step b) (avail, matches) rest) = matches + length rest.
Proof.
  induction rest as [|elt rest IH]; intros p avail matches Hb Hav;
    [simpl; lia|].
  cbn [foldl quick_step].
  set (numb := match avail !! elt with
               | Some n => n
               | None => default 0%Z (fullbcount b !! elt)
               end).
  assert (numb = (Z.of_nat (length (filter (eq elt) b))
                  - Z.of_nat (length (filter (eq elt) p)))%Z) as Hnumb.
  { unfold numb. specialize (Hav elt). destruct (avail !! elt) as [n|].
    - done.
    - rewrite fullbcount_count. lia. }
  assert (0 < numb)%Z as Hpos.
  { rewrite Hnumb, Hb, !filter_app, filter_cons, decide_True by done.
    rewrite !length_app. simpl. lia. }
  destruct (Z.ltb_spec 0 numb) as [_|]; [|lia].
  rewrite (IH (p ++ [elt])); [simpl; lia|by rewrite <- app_assoc|].
  intros x. rewrite lookup_insert. case_decide as Hx.
  - subst x. rewrite Hnumb, filter_app, length_app, filter_cons, decide_True by done.
    simpl. lia.
  - specialize (Hav x). rewrite filter_app, length_app, filter_cons, decide_False by done.
    simpl. destruct (avail !! x); lia.
Qed.

Lemma quick_matches_refl (a : list A) :
  snd (foldl (quick_step a) (∅, 0) a) = length a.
Proof.
  rewrite (quick_loop a a [] ∅ 0); [done|done|].
  intros x. by rewrite lookup_empty.
Qed.

Lemma calculate_ratio_S (m t : nat) :
  calculate_ratio m (S t) == (2 * Z.of_nat m) # (Pos.of_succ_nat t).
Proof.
  unfold calculate_ratio, Qdiv, Qeq, Qmult, Qinv, inject_Z.
  change (Z.of_nat (S t)) with (Z.pos (Pos.of_succ_nat t)). simpl. lia.
Qed.

Lemma calculate_ratio_all (n : nat) : calculate_ratio n (n + n) == 1.
Proof.
  destruct (n + n) as [|t] eqn:Hn; [reflexivity|].
  rewrite calculate_ratio_S. unfold Qeq. simpl.
  rewrite Zpos_P_of_succ_nat. lia.
Qed.

Lemma calculate_ratio_le_1 (m t : nat) :
  2 * m <= t -> (calculate_ratio m t <= 1)%Q.
Proof.
  intros Hmt. destruct t as [|t]; [apply Qle_refl|].
  rewrite calculate_ratio_S. unfold Qle. simpl.
  rewrite Zpos_P_of_succ_nat. lia.
Qed.

Lemma calculate_ratio_eq_1 (m t : nat) :
  calculate_ratio m t == 1 -> t = 0 \/ 2 * m = t.
Proof.
  destruct t as [|t]; [by left|]. rewrite calculate_ratio_S.
  unfold Qeq. simpl. rewrite Zpos_P_of_succ_nat. lia.
Qed.

Lemma ratio_refl (a : list A) : ratio a a == 1.
Proof. unfold ratio. rewrite matches_refl. apply calculate_ratio_all. Qed.

Lemma quick_ratio_refl (a : list A) : quick_ratio a a == 1.
Proof. unfold quick_ratio. rewrite quick_matches_refl. apply calculate_ratio_all. Qed.

Lemma real_quick_ratio_refl (a : list A) : real_quick_ratio a a == 1.
Proof. unfold real_quick_ratio. rewrite Nat.min_id. apply calculate_ratio_all. Qed.

Lemma ratio_le_1 (a b : list A) : (ratio a b <= 1)%Q.
Proof.
  unfold ratio. apply calculate_ratio_le_1.
  destruct (matches_le a b). lia.
Qed.

Lemma ratio_eq_1 (a b : list A) : ratio a b == 1 -> a = b.
Proof.
  unfold ratio. intros Heq. destruct (matches_le a b) as [Ha Hb].
  apply calculate_ratio_eq_1 in Heq as [Hz|Hm].
  - destruct a, b; simpl in Hz; (done || lia).
  - apply matches_all; lia.
Qed.

End Ratios.

(** ** [get_close_matches] and [corrigir_nome_pokemon] *)

Section CloseMatches.

Import Difflib.

Lemma chars_inj (x y : string) : chars x = chars y -> x = y.
Proof.
  unfold chars. intros Hxy.
  rewrite <- (String.string_of_list_ascii_of_string x),
          <- (String.string_of_list_ascii_of_string y).
  by rewrite Hxy.
Qed.

Lemma compare_refl (s : string) : String.compare s s = Eq.
Proof.
  induction s as [|c s IH]; [done|]. simpl.
  unfold Ascii.compare. by rewrite N.compare_refl.
Qed.

Lemma ltb_irrefl (s : string) : String.ltb s s = false.
Proof. unfold String.ltb. by rewrite compare_refl. Qed.

Lemma Qle_bool_cutoff (q : Q) : q == 1 -> Qle_bool cutoff q = true.
Proof. intros ->. reflexivity. Qed.

Lemma close_enough_refl (s : string) : close_enough s s = true.
Proof.
  unfold close_enough.
  rewrite (Qle_bool_cutoff _ (real_quick_ratio_refl (chars s))).
  rewrite (Qle_bool_cutoff _ (quick_ratio_refl (chars s))).
  by rewrite (Qle_bool_cutoff _ (ratio_refl (chars s))).
Qed.

Variable word : string.

Lemma scored_possivel (possibilities : list string) :
  Forall (possivel word) (scored word possibilities).
Proof.
  apply Forall_forall. intros p Hp. unfold scored in Hp.
  apply list_elem_of_omap in Hp as (x & _ & Hx).
  destruct (close_enough word x); [|discriminate]. injection Hx as <-.
  split; simpl.
  - apply ratio_le_1.
  - intros Heq. apply ratio_eq_1 in Heq. by apply chars_inj.
Qed.

Lemma scored_exato (possibilities : list string) :
  word ∈ possibilities -> Exists (exato word) (scored word possibilities).
Proof.
  intros Hin. apply Exists_exists.
  exists (ratio (chars word) (chars word), word). split.
  - unfold scored. apply list_elem_of_omap. exists word. split; [done|].
    by rewrite close_enough_refl.
  - split; [apply ratio_refl|done].
Qed.

Lemma scored_gt_exato (m p : Q * string) :
  exato word m -> possivel word p -> scored_gt p m = false.
Proof.
  intros [Hm1 Hm2] [Hp1 Hp2]. unfold scored_gt.
  destruct (Qeq_bool (fst p) (fst m)) eqn:Heq.
  - apply Qeq_bool_eq in Heq. rewrite Hm1 in Heq.
    rewrite (Hp2 Heq), Hm2. apply ltb_irrefl.
  - apply negb_false_iff, Qle_bool_iff. by rewrite Hm1.
Qed.

Lemma max_scored_stays (rest : list (Q * string)) :
  forall m, exato word m -> Forall (possivel word) rest ->
            exato word (max_scored m rest).
Proof.
  unfold max_scored. induction rest as [|p rest IH]; intros m Hm Hr; [done|].
  apply Forall_cons in Hr as [Hp Hr]. simpl.
  rewrite (scored_gt_exato m p Hm Hp). by apply IH.
Qed.

Lemma max_scored_reaches (rest : list (Q * string)) :
  forall m, possivel word m -> Forall (possivel word) rest ->
            Exists (exato word) rest -> exato word (max_scored m rest).
Proof.
  unfold max_scored. induction rest as [|p rest IH]; intros m Hm Hr He.
  { by apply Exists_nil in He. }
  apply Forall_cons in Hr as [Hp Hr]. simpl.
  apply Exists_cons in He as [He|He].
  - (* [p] is the exact match *)
    destruct (scored_gt p m) eqn:Hgt.
    + by apply (max_scored_stays rest p).
    + apply (max_scored_stays rest m); [|done].
      destruct He as [He1 He2], Hm as [Hm1 Hm2]. unfold scored_gt in Hgt.
      destruct (Qeq_bool (fst p) (fst m)) eqn:Heq.
      * apply Qeq_bool_eq in Heq. rewrite He1 in Heq.
        split; [by symmetry|]. apply Hm2. by symmetry.
      * apply negb_false_iff, Qle_bool_iff in Hgt.
        apply Qeq_bool_neq in Heq. exfalso. apply Heq.
        apply Qle_antisym; [done|]. by rewrite He1.
  - destruct (scored_gt p m); by apply IH.
Qed.

Lemma get_close_matches_exact (possibilities : list string) :
  word ∈ possibilities -> get_close_matches word possibilities = [word].
Proof.
  intros Hin. unfold get_close_matches, nlargest1.
  pose proof (scored_possivel possibilities) as Hall.
  pose proof (scored_exato possibilities Hin) as Hex.
  destruct (scored word possibilities) as [|p rest].
  { by apply Exists_nil in Hex. }
  apply Forall_cons in Hall as [Hp Hrest]. simpl. f_equal.
  apply Exists_cons in Hex as [Hex|Hex].
  - by destruct (max_scored_stays rest p Hex Hrest).
  - by destruct (max_scored_reaches rest p Hp Hrest Hex).
Qed.

Lemma get_close_matches_none (possibilities : list string) :
  (forall x, x ∈ possibilities ->
             (ratio (chars x) (chars word) < cutoff)%Q) ->
  get_close_matches word possibilities = [].
Proof.
  intros Hlow. unfold get_close_matches.
  assert (scored word possibilities = []) as ->; [|done].
  unfold scored. induction possibilities as [|x l IH]; [done|]. simpl.
  assert (close_enough word x = false) as ->.
  { unfold close_enough.
    assert (Qle_bool cutoff (ratio (chars x) (chars word)) = false) as ->.
    { apply not_true_is_false. intros Hle. apply Qle_bool_iff in Hle.
      apply (Qlt_not_le _ _ (Hlow x ltac:(left))). done. }
    by rewrite andb_false_r. }
  apply IH. intros y Hy. apply Hlow. by right.
Qed.

End CloseMatches.

Lemma nomes_validos_lower (cache_local : json) (NOMES_VALIDOS : list string) :
  nomes_validos cache_local = Ok NOMES_VALIDOS ->
  forall s, s ∈ NOMES_VALIDOS -> Py.lower s = s.
Proof.
  unfold nomes_validos. intros Hn. bind_ok Hn as pokes Hp. clear Hp.
  revert NOMES_VALIDOS Hn. induction pokes as [|p pokes IH];
    intros NOMES Hn s Hs.
  - injection Hn as <-. by apply elem_of_nil in Hs.
  - cbn [mapE] in Hn. bind_ok Hn as y Hy. bind_ok Hn as ys Hys.
    injection Hn as <-.
    apply elem_of_cons in Hs as [->|Hs]; [|by apply (IH ys)].
    bind_ok Hy as n Hn'. bind_ok Hy as n' Hn''. injection Hy as <-.
    apply lower_idem.
Qed.

Lemma corrigir_nome_pokemon_exact (NOMES_VALIDOS : list string) (s : string) :
  Py.lower s ∈ NOMES_VALIDOS ->
  corrigir_nome_pokemon NOMES_VALIDOS s = Py.lower s.
Proof.
  intros Hin. unfold corrigir_nome_pokemon.
  by rewrite get_close_matches_exact.
Qed.

(** C9.  [corrigir_nome_pokemon] is a function from strings to strings: it
    returns for every input.  Every name of the list built when the module
    is loaded is a fixed point.  When every known name scores below the
    cutoff against the lower-cased input, the result is the lower-cased
    input. *)
Theorem corrigir_nome_pokemon_props (cache_local : json)
    (NOMES_VALIDOS : list string) :
  nomes_validos cache_local = Ok NOMES_VALIDOS ->
  (forall s, s ∈ NOMES_VALIDOS -> corrigir_nome_pokemon NOMES_VALIDOS s = s)
  /\ (forall s,
        (forall x, x ∈ NOMES_VALIDOS ->
           (Difflib.ratio (Difflib.chars x) (Difflib.chars (Py.lower s))
            < Difflib.cutoff)%Q) ->
        corrigir_nome_pokemon NOMES_VALIDOS s = Py.lower s).
Proof.
  intros Hn. split.
  - intros s Hs. pose proof (nomes_validos_lower _ _ Hn s Hs) as Hl.
    rewrite corrigir_nome_pokemon_exact; [done|]. by rewrite Hl.
  - intros s Hlow. unfold corrigir_nome_pokemon.
    by rewrite get_close_matches_none.
Qed.

Lemma corrigir_nome_pokemon_props_witness :
  corrigir_nome_pokemon ["pikachu"; "raichu"] "raichu" = "raichu"
  /\ corrigir_nome_pokemon ["pikachu"; "raichu"] "Mewtwo" = "mewtwo".
Proof.
  destruct (corrigir_nome_pokemon_props
              (JArr [JObj [("nome", JStr "Pikachu")];
                     JObj [("nome", JStr "Raichu")]])
              ["pikachu"; "raichu"] eq_refl) as [Hfix Hnone].
  split.
  - apply Hfix. right. left.
  - apply Hnone. intros x Hx.
    apply elem_of_cons in Hx as [->|Hx]; [vm_compute; reflexivity|].
    apply list_elem_of_singleton in Hx as ->. vm_compute. reflexivity.
Defined.

(** ** The local cache as fallback *)


Lemma registro_do_cache_JObj (kvs : list (string * json)) (n : string)
    (st : list (string * json)) :
  Dyn.assoc "nome" kvs = Some (JStr n) ->
  Dyn.assoc "stats" kvs = Some (JObj st) ->
  exists d, registro_do_cache (JObj kvs) = Ok d
            /\ nome d = n /\ stats d = remapear st /\ fonte d = "Cache Local".
Proof.
  intros Hn Hs. unfold registro_do_cache, Dyn.getitem. rewrite Hn, Hs.
  cbn [bind Dyn.as_str Dyn.get]. eexists. split; [reflexivity|]. by simpl.
Qed.

Lemma procurar_presente (nc : string) (pokes : list json) :
  forall nomes,
    mapE (fun p => do n <- Dyn.getitem p "nome";
                   do s <- Dyn.as_str n;
                   Ok (Py.lower s)) pokes = Ok nomes ->
    Forall tem_stats pokes ->
    nc ∈ nomes ->
    exists d kvs st,
      procurar nc pokes = Ok (Some d)
      /\ JObj kvs ∈ pokes
      /\ Dyn.assoc "nome" kvs = Some (JStr (nome d))
      /\ Py.lower (nome d) = nc
      /\ Dyn.assoc "stats" kvs = Some (JObj st)
      /\ stats d = remapear st
      /\ fonte d = "Cache Local".
Proof.
  induction pokes as [|poke pokes IH]; intros nomes Hn Hst Hin.
  { injection Hn as <-. by apply elem_of_nil in Hin. }
  cbn [mapE] in Hn. bind_ok Hn as y Hy. bind_ok Hn as ys Hys.
  injection Hn as <-. apply Forall_cons in Hst as [[st Hst] Hrest].
  bind_ok Hy as vn Hvn. bind_ok Hy as n Hn'. injection Hy as <-.
  destruct poke as [| | | | | |kvs]; try discriminate.
  simpl in Hvn, Hst.
  destruct (Dyn.assoc "nome" kvs) as [vn'|] eqn:Hnome; [|discriminate].
  injection Hvn as ->.
  destruct vn as [| | | |s| |]; try discriminate. injection Hn' as ->.
  destruct (Dyn.assoc "stats" kvs) as [vs|] eqn:Hstats; [|discriminate].
  injection Hst as ->.
  cbn [procurar Dyn.get bind]. rewrite Hnome.
  cbn [from_option id bind Dyn.as_str].
  destruct (String.eqb_spec (Py.lower n) nc) as [Heq|Hne].
  - destruct (registro_do_cache_JObj kvs n st Hnome Hstats)
      as (d & -> & Hd1 & Hd2 & Hd3).
    exists d, kvs, st. cbn [bind]. subst n.
    split; [done|]. split; [left|]. done.
  - apply elem_of_cons in Hin as [->|Hin]; [done|].
    destruct (IH ys eq_refl Hrest Hin)
      as (d & kvs' & st' & Hp & Hk & Hrest').
    exists d, kvs', st'. split; [done|]. split; [by right|done].
Qed.




(** A note on the hypothesis of C5.  A name that the cleaning changes and
    the correction does not restore is not found under that name: a
    record named "???" is cleaned to the empty string, which no record
    matches.  The first-generation names are not of that kind. *)
Example cache_nome_pontuado :
  nomes_validos cache_interrogacao = Ok ["???"]
  /\ buscar_na_pokeapi ["???"] mundo_isolado "???" = None
  /\ buscar_no_json cache_interrogacao ["???"] "???" = Ok None
  /\ buscar_dados cache_interrogacao ["???"] mundo_isolado ["???"] = Ok None.
Proof. repeat split; vm_compute; reflexivity. Qed.

(** * Further properties of the script *)

(** ** Strings as lists of characters *)

Section StringLists.

Import Difflib.

Lemma chars_cons (c : ascii) (s : string) : chars (String c s) = c :: chars s.
Proof. reflexivity. Qed.

Lemma app_cons (c : ascii) (s1 s2 : string) :
  String c s1 +:+ s2 = String c (s1 +:+ s2).
Proof. reflexivity. Qed.

Lemma chars_app (s1 s2 : string) : chars (s1 +:+ s2) = chars s1 ++ chars s2.
Proof.
  induction s1 as [|c s1 IH]; [done|].
  by rewrite app_cons, !chars_cons, IH.
Qed.

Lemma chars_rev_app (s1 s2 : string) :
  chars (String.rev_app s1 s2) = reverse (chars s1) ++ chars s2.
Proof.
  revert s2. induction s1 as [|c s1 IH]; intros s2; [done|].
  cbn [String.rev_app]. rewrite IH, !chars_cons, reverse_cons, <- app_assoc.
  done.
Qed.

Lemma chars_rev (s : string) : chars (String.rev s) = reverse (chars s).
Proof. unfold String.rev. by rewrite chars_rev_app, app_nil_r. Qed.

Lemma rev_involutive (s : string) : String.rev (String.rev s) = s.
Proof. apply chars_inj. by rewrite !chars_rev, reverse_involutive. Qed.

Lemma chars_smap (f : ascii -> ascii) (s : string) :
  chars (Py.smap f s) = f <$> chars s.
Proof.
  induction s as [|c s IH]; [done|].
  cbn [Py.smap]. by rewrite !chars_cons, IH.
Qed.

Lemma chars_sfilter (p : ascii -> bool) (s : string) :
  chars (Py.sfilter p s) = filter (fun c => p c = true) (chars s).
Proof.
  induction s as [|c s IH]; [done|].
  cbn [Py.sfilter]. rewrite chars_cons, filter_cons.
  destruct (p c) eqn:Hp.
  - rewrite decide_True by done. by rewrite chars_cons, IH.
  - rewrite decide_False by (by intros ?). done.
Qed.

Lemma sfilter_id (p : ascii -> bool) (s : string) :
  Py.sfilter p s = s <-> Forall (fun c => p c = true) (chars s).
Proof.
  split.
  - intros Hs. rewrite <- Hs, chars_sfilter. apply Forall_forall.
    intros c Hc. by apply list_elem_of_filter in Hc as [? _].
  - intros Hall. induction s as [|c s IH]; [done|].
    rewrite chars_cons in Hall. apply Forall_cons in Hall as [Hc Hs].
    cbn [Py.sfilter]. by rewrite Hc, IH.
Qed.

Lemma sfilter_smap (p : ascii -> bool) (f : ascii -> ascii) (s : string) :
  (forall c, p (f c) = p c) ->
  Py.sfilter p (Py.smap f s) = Py.smap f (Py.sfilter p s).
Proof.
  intros Hpf. induction s as [|c s IH]; [done|]. simpl. rewrite Hpf, IH.
  by destruct (p c).
Qed.

(** [lstrip] drops a run of white space and stops at the first character
    that is not white space. *)
Lemma lstrip_spec (s : string) :
  exists pre,
    chars s = pre ++ chars (Py.lstrip s)
    /\ Forall (fun c => Py.isspace c = true) pre
    /\ forall c, head (chars (Py.lstrip s)) = Some c -> Py.isspace c = false.
Proof.
  induction s as [|c s (pre & Hs & Hpre & Hhd)]; [by exists []|].
  cbn [Py.lstrip]. destruct (Py.isspace c) eqn:Hc.
  - exists (c :: pre). rewrite chars_cons, Hs. split; [done|].
    split; [by constructor|done].
  - exists []. split; [done|]. split; [done|].
    rewrite chars_cons. by intros c' [= <-].
Qed.

Lemma lstrip_id (s : string) :
  (forall c, head (chars s) = Some c -> Py.isspace c = false) ->
  Py.lstrip s = s.
Proof.
  destruct s as [|c s]; [done|]. intros Hhd. simpl.
  by rewrite (Hhd c eq_refl).
Qed.

Lemma lstrip_smap (f : ascii -> ascii) (s : string) :
  (forall c, Py.isspace (f c) = Py.isspace c) ->
  Py.lstrip (Py.smap f s) = Py.smap f (Py.lstrip s).
Proof.
  intros Hf. induction s as [|c s IH]; [done|]. simpl. rewrite Hf.
  by destruct (Py.isspace c).
Qed.

Lemma rev_smap (f : ascii -> ascii) (s : string) :
  String.rev (Py.smap f s) = Py.smap f (String.rev s).
Proof.
  apply chars_inj. by rewrite chars_rev, !chars_smap, chars_rev, fmap_reverse.
Qed.

(** [strip] drops white space at both ends. *)
Lemma strip_spec (s : string) :
  exists pre pos,
    chars s = pre ++ chars (Py.strip s) ++ pos
    /\ Forall (fun c => Py.isspace c = true) pre
    /\ Forall (fun c => Py.isspace c = true) pos
    /\ (forall c, head (chars (Py.strip s)) = Some c -> Py.isspace c = false)
    /\ (forall c, last (chars (Py.strip s)) = Some c -> Py.isspace c = false).
Proof.
  unfold Py.strip.
  destruct (lstrip_spec s) as (pre & Hs & Hpre & Hhd).
  destruct (lstrip_spec (String.rev (Py.lstrip s))) as (pos & Hr & Hpos & Hlast).
  set (A := Py.lstrip s) in *.
  set (B := Py.lstrip (String.rev A)) in *.
  rewrite chars_rev in Hr.
  assert (chars A = reverse (chars B) ++ reverse pos) as HA.
  { rewrite <- reverse_app, <- Hr. by rewrite reverse_involutive. }
  exists pre, (reverse pos). rewrite chars_rev. split; [by rewrite Hs, HA|].
  split; [done|]. split; [by apply Forall_reverse|]. split.
  - intros c Hc. rewrite head_reverse in Hc.
    destruct (chars B) as [|b0 B0] eqn:HB using rev_ind; [done|].
    apply Hhd. rewrite HA, reverse_app. simpl. clear IHB0.
    rewrite last_snoc in Hc. injection Hc as ->. done.
  - intros c Hc. rewrite last_reverse in Hc. by apply Hlast.
Qed.

Lemma strip_id (s : string) :
  (forall c, head (chars s) = Some c -> Py.isspace c = false) ->
  (forall c, last (chars s) = Some c -> Py.isspace c = false) ->
  Py.strip s = s.
Proof.
  intros Hhd Hlast. unfold Py.strip. rewrite (lstrip_id s Hhd).
  rewrite lstrip_id; [apply rev_involutive|].
  intros c. rewrite chars_rev, head_reverse. apply Hlast.
Qed.

Lemma strip_idem (s : string) : Py.strip (Py.strip s) = Py.strip s.
Proof.
  destruct (strip_spec s) as (_ & _ & _ & _ & _ & Hhd & Hlast).
  by apply strip_id.
Qed.

Lemma strip_smap (f : ascii -> ascii) (s : string) :
  (forall c, Py.isspace (f c) = Py.isspace c) ->
  Py.strip (Py.smap f s) = Py.smap f (Py.strip s).
Proof.
  intros Hf. unfold Py.strip.
  by rewrite (lstrip_smap f s Hf), rev_smap, (lstrip_smap f _ Hf), rev_smap.
Qed.

Lemma strip_Forall (P : ascii -> Prop) (s : string) :
  Forall P (chars s) -> Forall P (chars (Py.strip s)).
Proof.
  destruct (strip_spec s) as (pre & pos & Hs & _). rewrite Hs.
  intros Hall. apply Forall_app in Hall as [_ Hall].
  by apply Forall_app in Hall as [Hall _].
Qed.

Lemma isspace_to_lower (c : ascii) : Py.isspace (Py.to_lower c) = Py.isspace c.
Proof. destruct c as [[] [] [] [] [] [] [] []]; reflexivity. Qed.

Lemma ispunct_to_lower (c : ascii) : Py.ispunct (Py.to_lower c) = Py.ispunct c.
Proof. destruct c as [[] [] [] [] [] [] [] []]; reflexivity. Qed.

Lemma ascii_puro_bool (s : string) :
  forallb (fun c => Py.code c <? 128) (chars s) = true -> ascii_puro s.
Proof.
  unfold ascii_puro. rewrite forallb_forall, Forall_forall.
  intros Hall c Hc. apply list_elem_of_In, Hall in Hc.
  by apply Nat.ltb_lt in Hc.
Qed.

End StringLists.

(** ** The name utilities *)

Section Nomes.

Import Difflib.

Lemma remove_punctuation_idem (s : string) :
  Py.remove_punctuation (Py.remove_punctuation s) = Py.remove_punctuation s.
Proof.
  unfold Py.remove_punctuation. apply sfilter_id. rewrite chars_sfilter.
  apply Forall_forall. intros c Hc. by apply list_elem_of_filter in Hc as [? _].
Qed.

Lemma remove_punctuation_strip (s : string) :
  Py.remove_punctuation s = s ->
  Py.remove_punctuation (Py.strip s) = Py.strip s.
Proof.
  unfold Py.remove_punctuation. rewrite !sfilter_id. apply strip_Forall.
Qed.

(** X1.  [limpar_nome] returns a string without ASCII punctuation and
    without white space at either end; it is idempotent, and the strings
    it leaves unchanged are exactly those. *)
Theorem limpar_nome_props (s : string) :
  Py.remove_punctuation (limpar_nome s) = limpar_nome s
  /\ Py.strip (limpar_nome s) = limpar_nome s
  /\ limpar_nome (limpar_nome s) = limpar_nome s
  /\ (limpar_nome s = s <-> Py.remove_punctuation s = s /\ Py.strip s = s).
Proof.
  assert (Py.remove_punctuation (limpar_nome s) = limpar_nome s) as Hp.
  { unfold limpar_nome. apply remove_punctuation_strip,
      remove_punctuation_idem. }
  assert (Py.strip (limpar_nome s) = limpar_nome s) as Hs.
  { unfold limpar_nome. apply strip_idem. }
  split; [done|]. split; [done|]. split.
  - unfold limpar_nome at 1. by rewrite Hp, Hs.
  - split.
    + intros Heq. by rewrite <- Heq.
    + intros [Hp' Hs']. unfold limpar_nome. by rewrite Hp', Hs'.
Qed.

Lemma lower_limpar_nome (s : string) :
  Py.lower (limpar_nome s) = limpar_nome (Py.lower s).
Proof.
  unfold limpar_nome, Py.lower, Py.remove_punctuation.
  rewrite <- strip_smap by apply isspace_to_lower.
  rewrite sfilter_smap; [done|].
  intros c. by rewrite ispunct_to_lower.
Qed.

(** Replacing a character leaves no occurrence of it, and brings in no
    character that was not there or in the replacement. *)
Lemma replace_not_elem (c old : ascii) (new s : string) :
  c ∉ chars new ->
  c = old \/ c ∉ chars s ->
  c ∉ chars (Py.replace old new s).
Proof.
  intros Hnew Hs. induction s as [|x s IH]; [by apply not_elem_of_nil|].
  cbn [Py.replace]. destruct (Ascii.eqb_spec x old) as [->|Hne].
  - rewrite chars_app, elem_of_app. intros [?|Hin]; [done|].
    revert Hin. apply IH. destruct Hs as [?|Hs]; [by left|right].
    rewrite chars_cons in Hs. by apply not_elem_of_cons in Hs as [_ ?].
  - rewrite chars_cons. apply not_elem_of_cons. split.
    + destruct Hs as [->|Hs]; [done|]. rewrite chars_cons in Hs.
      by apply not_elem_of_cons in Hs as [? _].
    + apply IH. destruct Hs as [?|Hs]; [by left|right].
      rewrite chars_cons in Hs. by apply not_elem_of_cons in Hs as [_ ?].
Qed.

Lemma lower_app (s1 s2 : string) :
  Py.lower (s1 +:+ s2) = Py.lower s1 +:+ Py.lower s2.
Proof.
  unfold Py.lower. induction s1 as [|c s1 IH]; [done|].
  rewrite app_cons. cbn [Py.smap]. by rewrite IH, app_cons.
Qed.

Lemma lower_replace (old : ascii) (new s : string) :
  Py.lower new = new -> Py.lower s = s ->
  Py.lower (Py.replace old new s) = Py.replace old new s.
Proof.
  intros Hnew. induction s as [|c s IH]; [done|]. intros Hs.
  unfold Py.lower in Hs. cbn [Py.smap] in Hs. injection Hs as Hc Hs.
  cbn [Py.replace]. destruct (Ascii.eqb c old).
  - by rewrite lower_app, Hnew, IH.
  - unfold Py.lower. cbn [Py.smap]. rewrite Hc. f_equal. by apply IH.
Qed.

Lemma CORRECOES_API_lower (k v : string) :
  Dyn.assoc k CORRECOES_API = Some v -> Py.lower v = v.
Proof.
  unfold CORRECOES_API. cbn [Dyn.assoc].
  repeat (destruct (String.eqb k _); [by intros [= <-]|]). done.
Qed.

(** X2.  The slug that [normalizar_nome_para_api] returns never holds a
    space, a full stop or an apostrophe, and is in lower case. *)
Theorem normalizar_nome_para_api_props (nome_ : string) :
  (" "%char ∉ chars (normalizar_nome_para_api nome_))
  /\ ("."%char ∉ chars (normalizar_nome_para_api nome_))
  /\ ("'"%char ∉ chars (normalizar_nome_para_api nome_))
  /\ Py.lower (normalizar_nome_para_api nome_) = normalizar_nome_para_api nome_.
Proof.
  unfold normalizar_nome_para_api.
  set (n := default _ _).
  assert (" "%char ∉ chars (Py.replace " " "-" n)) as H1.
  { apply replace_not_elem; [|by left].
    intros Hin. apply list_elem_of_singleton in Hin. discriminate. }
  assert (" "%char ∉ chars (Py.replace "." "" (Py.replace " " "-" n))) as H2.
  { apply replace_not_elem; [apply not_elem_of_nil|by right]. }
  assert ("."%char ∉ chars (Py.replace "." "" (Py.replace " " "-" n))) as H3.
  { apply replace_not_elem; [apply not_elem_of_nil|by left]. }
  split; [|split; [|split]].
  - apply replace_not_elem; [apply not_elem_of_nil|by right].
  - apply replace_not_elem; [apply not_elem_of_nil|by right].
  - apply replace_not_elem; [apply not_elem_of_nil|by left].
  - repeat apply lower_replace; try done.
    unfold n. destruct (Dyn.assoc _ CORRECOES_API) as [v|] eqn:Hv; simpl.
    + by apply CORRECOES_API_lower in Hv.
    + unfold Py.lower. rewrite <- strip_smap by apply isspace_to_lower.
      fold (Py.lower nome_). fold (Py.lower (Py.lower nome_)).
      by rewrite lower_idem.
Qed.

Lemma max_scored_elem (rest : list (Q * string)) :
  forall p, max_scored p rest ∈ p :: rest.
Proof.
  unfold max_scored. induction rest as [|q rest IH]; intros p; [left|].
  simpl. destruct (scored_gt q p).
  - right. apply IH.
  - specialize (IH p). apply elem_of_cons in IH as [->|IH]; [left|].
    by do 2 right.
Qed.

Lemma get_close_matches_elem (word x : string) (possibilities : list string) :
  x ∈ get_close_matches word possibilities ->
  x ∈ possibilities /\ close_enough word x = true.
Proof.
  unfold get_close_matches, nlargest1.
  destruct (scored word possibilities) as [|p rest] eqn:Hs;
    [intros Hx; by apply elem_of_nil in Hx|].
  intros Hx. apply list_elem_of_singleton in Hx.
  pose proof (max_scored_elem rest p) as Hin. rewrite <- Hs in Hin.
  unfold scored in Hin. apply list_elem_of_omap in Hin as (y & Hy & Hf).
  destruct (close_enough word y) eqn:Hc; [|discriminate].
  injection Hf as Hf. rewrite <- Hf in Hx. simpl in Hx. by subst.
Qed.

Lemma get_close_matches_length (word : string) (possibilities : list string) :
  length (get_close_matches word possibilities) <= 1.
Proof.
  unfold get_close_matches, nlargest1.
  destruct (scored word possibilities); simpl; lia.
Qed.

Lemma get_close_matches_nil (word : string) (possibilities : list string) :
  get_close_matches word possibilities = [] ->
  forall x, x ∈ possibilities -> close_enough word x = false.
Proof.
  unfold get_close_matches, nlargest1.
  destruct (scored word possibilities) as [|p rest] eqn:Hs; [|done].
  intros _ x Hx. destruct (close_enough word x) eqn:Hc; [|done].
  assert ((ratio (chars x) (chars word), x) ∈ scored word possibilities) as Hin.
  { unfold scored. apply list_elem_of_omap. exists x. by rewrite Hc. }
  rewrite Hs in Hin. by apply elem_of_nil in Hin.
Qed.

(** X3.  [corrigir_nome_pokemon] never invents a name: its result is a
    known name that passes the three similarity tests against the
    lower-cased input (so its ratio is at least the cutoff), or else no
    known name passes them and the result is the lower-cased input.  When
    the known names are in lower case, correcting twice is correcting
    once. *)
Theorem corrigir_nome_pokemon_resultado (NOMES_VALIDOS : list string)
    (s : string) :
  (corrigir_nome_pokemon NOMES_VALIDOS s ∈ NOMES_VALIDOS
   /\ close_enough (Py.lower s) (corrigir_nome_pokemon NOMES_VALIDOS s) = true
   /\ (cutoff <= ratio (chars (corrigir_nome_pokemon NOMES_VALIDOS s))
                       (chars (Py.lower s)))%Q
   \/ corrigir_nome_pokemon NOMES_VALIDOS s = Py.lower s
      /\ forall x, x ∈ NOMES_VALIDOS -> close_enough (Py.lower s) x = false)
  /\ ((forall x, x ∈ NOMES_VALIDOS -> Py.lower x = x) ->
      corrigir_nome_pokemon NOMES_VALIDOS (corrigir_nome_pokemon NOMES_VALIDOS s)
      = corrigir_nome_pokemon NOMES_VALIDOS s).
Proof.
  assert (corrigir_nome_pokemon NOMES_VALIDOS s ∈ NOMES_VALIDOS
          /\ close_enough (Py.lower s) (corrigir_nome_pokemon NOMES_VALIDOS s)
             = true
          \/ corrigir_nome_pokemon NOMES_VALIDOS s = Py.lower s
             /\ get_close_matches (Py.lower s) NOMES_VALIDOS = []) as Hcases.
  { unfold corrigir_nome_pokemon.
    destruct (get_close_matches (Py.lower s) NOMES_VALIDOS) as [|x l] eqn:Hg.
    - by right.
    - left. apply (get_close_matches_elem (Py.lower s) x NOMES_VALIDOS).
      rewrite Hg. left. }
  split.
  - destruct Hcases as [[Hin Hc]|[Heq Hnil]].
    + left. split; [done|]. split; [done|].
      unfold close_enough in Hc. apply andb_true_iff in Hc as [_ Hc].
      by apply Qle_bool_iff.
    + right. split; [done|]. by apply get_close_matches_nil.
  - intros Hlow. destruct Hcases as [[Hin _]|[Heq Hnil]].
    + rewrite corrigir_nome_pokemon_exact; rewrite (Hlow _ Hin); done.
    + rewrite Heq. unfold corrigir_nome_pokemon. by rewrite lower_idem, Hnil.
Qed.

Lemma corrigir_nome_pokemon_resultado_witness :
  corrigir_nome_pokemon ["pikachu"; "raichu"]
    (corrigir_nome_pokemon ["pikachu"; "raichu"] "Pikachuu")
  = corrigir_nome_pokemon ["pikachu"; "raichu"] "Pikachuu".
Proof.
  apply corrigir_nome_pokemon_resultado. intros x Hx.
  repeat (apply elem_of_cons in Hx as [->|Hx]; [reflexivity|]).
  by apply elem_of_nil in Hx.
Defined.

End Nomes.

(** ** Detecting names and resolving them *)

Section Deteccao.

Import Difflib.

Lemma to_upper_to_lower (c : ascii) :
  Py.to_upper (Py.to_lower c) = Py.to_upper c.
Proof. destruct c as [[] [] [] [] [] [] [] []]; reflexivity. Qed.

Lemma capitalize_lower (s : string) :
  Py.capitalize (Py.lower s) = Py.capitalize s.
Proof.
  destruct s as [|c s]; [done|]. unfold Py.lower. cbn [Py.smap Py.capitalize].
  fold (Py.lower s). fold (Py.lower (Py.lower s)).
  by rewrite to_upper_to_lower, lower_idem.
Qed.

Lemma split_go_smap (f : ascii -> ascii) (s : string) :
  (forall c, Py.isspace (f c) = Py.isspace c) ->
  forall cur,
    Py.split_go (Py.smap f <$> cur) (Py.smap f s)
    = Py.smap f <$> Py.split_go cur s.
Proof.
  intros Hf. induction s as [|c s IH]; intros cur.
  - destruct cur as [w|]; [|done]. cbn. by rewrite rev_smap.
  - cbn [Py.smap Py.split_go]. rewrite Hf. destruct (Py.isspace c).
    + rewrite fmap_app. f_equal; [|apply (IH None)].
      destruct cur as [w|]; [|done]. cbn. by rewrite rev_smap.
    + rewrite <- IH. f_equal. by destruct cur.
Qed.

Lemma split_lower (s : string) :
  Py.split (Py.lower s) = Py.lower <$> Py.split s.
Proof. apply (split_go_smap _ _ isspace_to_lower None). Qed.

Lemma split_go_palavras (s : string) :
  forall cur,
    (forall w, cur = Some w -> palavra_ok w) ->
    Forall palavra_ok (Py.split_go cur s).
Proof.
  assert (forall w, palavra_ok w -> palavra_ok (String.rev w)) as Hrev.
  { intros w [Hne Hw]. split.
    - intros He. apply Hne. by rewrite <- (rev_involutive w), He.
    - rewrite chars_rev. by apply Forall_reverse. }
  assert (forall cur, (forall w, cur = Some w -> palavra_ok w) ->
            Forall palavra_ok (option_list (String.rev <$> cur))) as Hcur.
  { intros [w|] Hw; cbn; [|constructor].
    constructor; [|constructor]. by apply Hrev, Hw. }
  induction s as [|c s IH]; intros cur Hw; cbn [Py.split_go].
  - by apply Hcur.
  - destruct (Py.isspace c) eqn:Hc.
    + apply Forall_app. split; [by apply Hcur|]. by apply IH.
    + apply IH. intros w [= <-]. split; [done|].
      rewrite chars_cons. constructor; [done|].
      destruct cur as [w|]; cbn; [by apply Hw|constructor].
Qed.

Lemma split_palavras (s : string) : Forall palavra_ok (Py.split s).
Proof. by apply split_go_palavras. Qed.

Lemma extrair_nomes_lower (NOMES_VALIDOS : list string) (texto : string) :
  extrair_nomes_de_pokemon NOMES_VALIDOS (Py.lower texto)
  = extrair_nomes_de_pokemon NOMES_VALIDOS texto.
Proof.
  unfold extrair_nomes_de_pokemon. rewrite split_lower.
  set (g := fun palavra : string => _).
  assert (forall p, g (Py.lower p) = g p) as Hg.
  { intros p. unfold g.
    by rewrite capitalize_lower, <- lower_limpar_nome, lower_idem. }
  induction (Py.split texto) as [|p l IH]; [done|].
  rewrite fmap_cons. change (omap g (?x :: ?r))
    with (match g x with Some y => y :: omap g r | None => omap g r end).
  by rewrite Hg, IH.
Qed.

(** X4.  On texts of ASCII characters, [extrair_nomes_de_pokemon] does
    not look at the case of the letters: two such texts that differ in
    case only give the same names. *)
Theorem extrair_nomes_sem_caixa (NOMES_VALIDOS : list string)
    (texto1 texto2 : string) :
  ascii_puro texto1 -> ascii_puro texto2 ->
  Py.lower texto1 = Py.lower texto2 ->
  extrair_nomes_de_pokemon NOMES_VALIDOS texto1
  = extrair_nomes_de_pokemon NOMES_VALIDOS texto2.
Proof.
  intros _ _ Heq.
  rewrite <- (extrair_nomes_lower _ texto1), <- (extrair_nomes_lower _ texto2).
  by rewrite Heq.
Qed.

Lemma extrair_nomes_sem_caixa_witness :
  ascii_puro "PIKACHU ou raichu?" /\ ascii_puro "pikachu ou RAICHU?"
  /\ Py.lower "PIKACHU ou raichu?" = Py.lower "pikachu ou RAICHU?"
  /\ extrair_nomes_de_pokemon ["pikachu"; "raichu"] "PIKACHU ou raichu?"
     = extrair_nomes_de_pokemon ["pikachu"; "raichu"] "pikachu ou RAICHU?".
Proof.
  assert (ascii_puro "PIKACHU ou raichu?") as H1
    by (apply ascii_puro_bool; reflexivity).
  assert (ascii_puro "pikachu ou RAICHU?") as H2
    by (apply ascii_puro_bool; reflexivity).
  split; [exact H1|]. split; [exact H2|]. split; [reflexivity|].
  apply (extrair_nomes_sem_caixa _ _ _ H1 H2). reflexivity.
Defined.

Lemma conhecido_capitalize (NOMES_VALIDOS : list string) (p : string) :
  conhecido NOMES_VALIDOS (Py.capitalize p) <-> conhecido NOMES_VALIDOS p.
Proof.
  unfold conhecido. by rewrite !lower_limpar_nome, lower_capitalize.
Qed.

Lemma capitalize_palavra (p : string) :
  palavra_ok p -> palavra_ok (Py.capitalize p).
Proof.
  intros [Hne Hp]. destruct p as [|c p]; [done|]. split; [done|].
  cbn [Py.capitalize]. rewrite chars_cons in *.
  apply Forall_cons in Hp as [Hc Hp]. constructor.
  - revert Hc. clear. destruct c as [[] [] [] [] [] [] [] []]; by cbv.
  - unfold Py.lower. rewrite chars_smap. apply Forall_fmap.
    eapply Forall_impl; [exact Hp|]. intros x Hx. cbn.
    by rewrite isspace_to_lower.
Qed.

Lemma limpar_nome_chars (s : string) :
  Forall (fun c => Py.ispunct c = false) (chars (limpar_nome s)).
Proof.
  unfold limpar_nome. apply strip_Forall.
  unfold Py.remove_punctuation. rewrite chars_sfilter.
  apply Forall_forall. intros c Hc. apply list_elem_of_filter in Hc as [Hc _].
  by apply negb_true_iff in Hc.
Qed.

Lemma limpar_nome_sem_espaco (s : string) :
  Forall (fun c => Py.isspace c = false) (chars s) ->
  Forall (fun c => Py.isspace c = false) (chars (limpar_nome s)).
Proof.
  intros Hs. unfold limpar_nome. apply strip_Forall.
  unfold Py.remove_punctuation. rewrite chars_sfilter.
  apply Forall_forall. intros c Hc. apply list_elem_of_filter in Hc as [_ Hc].
  revert c Hc. by apply Forall_forall.
Qed.

(** X5.  Every name that [extrair_nomes_de_pokemon] returns is a word of
    the text, capitalized; cleaned and lower-cased it is a known name,
    one without white space and without ASCII punctuation, and it is the
    name that [corrigir_nome_pokemon] then settles on.  So a known name
    that holds a space or a punctuation mark is never detected. *)
Theorem nomes_detectados_props (NOMES_VALIDOS : list string)
    (texto n : string) :
  n ∈ extrair_nomes_de_pokemon NOMES_VALIDOS texto ->
  (exists palavra, palavra ∈ Py.split texto /\ n = Py.capitalize palavra)
  /\ palavra_ok n
  /\ Py.lower (limpar_nome n) ∈ NOMES_VALIDOS
  /\ Forall (fun c => Py.isspace c = false /\ Py.ispunct c = false)
            (chars (Py.lower (limpar_nome n)))
  /\ corrigir_nome_pokemon NOMES_VALIDOS (limpar_nome n)
     = Py.lower (limpar_nome n).
Proof.
  unfold extrair_nomes_de_pokemon. intros Hn.
  apply list_elem_of_omap in Hn as (p & Hp & Hn).
  destruct (bool_decide _) eqn:Hin; [|discriminate]. injection Hn as <-.
  apply bool_decide_eq_true in Hin.
  assert (palavra_ok p) as Hok.
  { pose proof (split_palavras texto) as Hall.
    by apply (proj1 (Forall_forall _ _) Hall). }
  apply capitalize_palavra in Hok as Hcap.
  assert (conhecido NOMES_VALIDOS (Py.capitalize p)) as Hc
    by by apply conhecido_capitalize.
  split; [by exists p|]. split; [done|]. split; [done|]. split.
  - unfold Py.lower. rewrite chars_smap. apply Forall_fmap.
    pose proof (limpar_nome_chars (Py.capitalize p)) as H1.
    pose proof (limpar_nome_sem_espaco _ (proj2 Hcap)) as H2.
    apply Forall_forall. intros c Hin'. cbn.
    rewrite isspace_to_lower, ispunct_to_lower. split.
    + by apply (proj1 (Forall_forall _ _) H2).
    + by apply (proj1 (Forall_forall _ _) H1).
  - by apply corrigir_nome_pokemon_exact.
Qed.

Lemma nomes_detectados_props_witness :
  "Pikachu?" ∈ extrair_nomes_de_pokemon ["pikachu"] "e o pikachu?"
  /\ corrigir_nome_pokemon ["pikachu"] (limpar_nome "Pikachu?") = "pikachu".
Proof.
  assert ("Pikachu?" ∈ extrair_nomes_de_pokemon ["pikachu"] "e o pikachu?")
    as Hin by (vm_compute; left).
  split; [exact Hin|].
  exact (proj2 (proj2 (proj2 (proj2
           (nomes_detectados_props ["pikachu"] "e o pikachu?" "Pikachu?"
              Hin))))).
Defined.

(** What [buscar_no_json] does with a name that is known as it stands,
    when the list of names is the one computed from the cache. *)
Lemma buscar_no_json_conhecido (cache_local : json)
    (NOMES_VALIDOS : list string) (pokes : list json) (n : string) :
  cache_local = JArr pokes ->
  Forall tem_stats pokes ->
  nomes_validos cache_local = Ok NOMES_VALIDOS ->
  conhecido NOMES_VALIDOS n ->
  exists d kvs st,
    buscar_no_json cache_local NOMES_VALIDOS n = Ok (Some d)
    /\ JObj kvs ∈ pokes
    /\ Dyn.assoc "nome" kvs = Some (JStr (nome d))
    /\ Py.lower (nome d) = Py.lower (limpar_nome n)
    /\ Dyn.assoc "stats" kvs = Some (JObj st)
    /\ stats d = remapear st
    /\ fonte d = "Cache Local".
Proof.
  intros -> Hst Hn Hc. unfold buscar_no_json.
  rewrite (corrigir_nome_pokemon_exact _ _ Hc).
  unfold nomes_validos in Hn. cbn [Dyn.iter bind] in *.
  by apply (procurar_presente _ _ NOMES_VALIDOS).
Qed.

(** X6.  When the list of known names is the one computed from the cache
    and every record of the cache has a [stats] object, a name detected
    in a text is always resolved: whatever the remote API does,
    [buscar] returns a record for it, and [buscar_no_json] returns the
    record of the cache under that name. *)
Theorem deteccao_resolvida (cache_local : json) (NOMES_VALIDOS : list string)
    (mundo : World) (pokes : list json) (texto n : string) :
  cache_local = JArr pokes ->
  Forall tem_stats pokes ->
  nomes_validos cache_local = Ok NOMES_VALIDOS ->
  n ∈ extrair_nomes_de_pokemon NOMES_VALIDOS texto ->
  (exists d kvs st,
     buscar_no_json cache_local NOMES_VALIDOS n = Ok (Some d)
     /\ JObj kvs ∈ pokes
     /\ Dyn.assoc "nome" kvs = Some (JStr (nome d))
     /\ Py.lower (nome d) = Py.lower (limpar_nome n)
     /\ Dyn.assoc "stats" kvs = Some (JObj st)
     /\ stats d = remapear st
     /\ fonte d = "Cache Local")
  /\ exists d, buscar cache_local NOMES_VALIDOS mundo n = Ok (Some d)
               /\ Py.lower (nome d) = Py.lower (limpar_nome n).
Proof.
  intros Hcache Hst Hn Hin.
  assert (conhecido NOMES_VALIDOS n) as Hc.
  { unfold extrair_nomes_de_pokemon in Hin.
    apply list_elem_of_omap in Hin as (p & _ & Hin).
    destruct (bool_decide _) eqn:Hb; [|discriminate]. injection Hin as <-.
    apply bool_decide_eq_true in Hb. by apply conhecido_capitalize. }
  destruct (buscar_no_json_conhecido _ _ _ _ Hcache Hst Hn Hc)
    as (d & kvs & st & Hb & Hrest).
  split; [by exists d, kvs, st|].
  unfold buscar.
  destruct (buscar_na_pokeapi NOMES_VALIDOS mundo n) as [d'|] eqn:Hapi.
  - exists d'. split; [done|].
    apply buscar_na_pokeapi_Some in Hapi. cbn zeta in Hapi.
    destruct Hapi as (? & ? & ? & ? & ? & ? & ? & Hapi).
    destruct Hapi as (_ & _ & _ & _ & _ & _ & _ & _ & _ & _ & -> & _).
    by rewrite lower_capitalize, (corrigir_nome_pokemon_exact _ _ Hc), lower_idem.
  - exists d. split; [done|]. by destruct Hrest as (_ & _ & -> & _).
Qed.

Lemma deteccao_resolvida_witness :
  exists d, buscar (JArr [pikachu_cache]) ["pikachu"] mundo_isolado "Pikachu?"
            = Ok (Some d)
            /\ Py.lower (nome d) = Py.lower (limpar_nome "Pikachu?").
Proof.
  refine (proj2 (deteccao_resolvida (JArr [pikachu_cache]) ["pikachu"]
                   mundo_isolado
                   _ "e o pikachu?" "Pikachu?" eq_refl _ eq_refl _)).
  - constructor; [|constructor]. eexists. reflexivity.
  - vm_compute. left.
Defined.

End Deteccao.

(** ** What [responder] does to the memory *)

Section Memoria.

Variable cache_local : json.
Variable NOMES_VALIDOS : list string.
Variable mundo : World.
Variable detectar_intencao : string -> Intencao.

Lemma buscar_dados_Some (nomes : list string) (d : Dados) :
  buscar_dados cache_local NOMES_VALIDOS mundo nomes = Ok (Some d) ->
  exists n, n ∈ nomes /\ buscar cache_local NOMES_VALIDOS mundo n = Ok (Some d).
Proof.
  induction nomes as [|n nomes IH]; [discriminate|]. cbn [buscar_dados].
  destruct (buscar cache_local NOMES_VALIDOS mundo n) as [[d'|]|e] eqn:Hb;
    cbn [bind]; [| |discriminate].
  - intros [= ->]. exists n. split; [left|done].
  - intros Hr. destruct (IH Hr) as (n' & Hin & Hn').
    exists n'. split; [by right|done].
Qed.

Lemma buscar_dados_primeiro (n : string) (nomes : list string) (d : Dados) :
  buscar cache_local NOMES_VALIDOS mundo n = Ok (Some d) ->
  buscar_dados cache_local NOMES_VALIDOS mundo (n :: nomes) = Ok (Some d).
Proof. intros Hb. cbn [buscar_dados]. by rewrite Hb. Qed.

Lemma limpar_nome_idem (s : string) :
  limpar_nome (limpar_nome s) = limpar_nome s.
Proof.
  unfold limpar_nome.
  rewrite (remove_punctuation_strip _ (remove_punctuation_idem s)).
  apply strip_idem.
Qed.

Lemma buscar_conhecido (n : string) (d : Dados) :
  conhecido NOMES_VALIDOS n ->
  buscar cache_local NOMES_VALIDOS mundo n = Ok (Some d) ->
  conhecido NOMES_VALIDOS (nome d).
Proof.
  intros Hc. pose proof Hc as Hc'. unfold conhecido in *. unfold buscar.
  assert (limpar_nome (Py.lower (limpar_nome n)) = Py.lower (limpar_nome n))
    as Hl.
  { by rewrite <- lower_limpar_nome, limpar_nome_idem. }
  destruct (buscar_na_pokeapi NOMES_VALIDOS mundo n) as [d'|] eqn:Hapi.
  - intros [= <-]. apply buscar_na_pokeapi_Some in Hapi. cbn zeta in Hapi.
    destruct Hapi as (? & ? & ? & ? & ? & ? & ? & Hapi).
    destruct Hapi as (_ & _ & _ & _ & _ & _ & _ & _ & _ & _ & -> & _).
    rewrite (corrigir_nome_pokemon_exact _ _ Hc).
    by rewrite lower_limpar_nome, lower_capitalize, lower_idem, Hl.
  - unfold buscar_no_json. rewrite (corrigir_nome_pokemon_exact _ _ Hc).
    intros Hb. bind_ok Hb as pokes Hp.
    apply procurar_Some in Hb as (_ & _ & _ & Hn).
    by rewrite lower_limpar_nome, Hn, Hl.
Qed.

Lemma extrair_nomes_conhecidos (texto n : string) :
  n ∈ extrair_nomes_de_pokemon NOMES_VALIDOS texto ->
  conhecido NOMES_VALIDOS n.
Proof.
  unfold extrair_nomes_de_pokemon. intros Hin.
  apply list_elem_of_omap in Hin as (p & _ & Hin).
  destruct (bool_decide _) eqn:Hb; [|discriminate]. injection Hin as <-.
  apply bool_decide_eq_true in Hb. by apply conhecido_capitalize.
Qed.

Lemma com_historico_conhecidos (m : MemoriaConversa) (texto n : string) :
  ultimo_conhecido NOMES_VALIDOS m ->
  n ∈ com_historico m (extrair_nomes_de_pokemon NOMES_VALIDOS texto) ->
  conhecido NOMES_VALIDOS n.
Proof.
  intros Hm. unfold com_historico.
  destruct (extrair_nomes_de_pokemon NOMES_VALIDOS texto) as [|x l] eqn:He.
  - destruct (ultimo_pokemon m) as [u|] eqn:Hu;
      [|intros Hin; by apply elem_of_nil in Hin].
    destruct (String.eqb u EmptyString);
      [intros Hin; by apply elem_of_nil in Hin|].
    intros Hin. apply list_elem_of_singleton in Hin as ->. by apply Hm.
  - rewrite <- He. apply extrair_nomes_conhecidos.
Qed.

Lemma confirmar_elem (nomes l : list string) (n : string) :
  confirmar mundo nomes = Ok l -> n ∈ l -> n ∈ nomes.
Proof.
  unfold confirmar. destruct nomes as [|n0 [|n1 r]]; try by intros [= <-].
  intros Hc. bind_ok Hc as c Hi. injection Hc as <-.
  intros Hin. apply list_elem_of_singleton in Hin as ->.
  destruct (String.eqb c "1"); [left|right; left].
Qed.

Lemma deque_append_length {A : Type} (n : nat) (d : list A) (x : A) :
  length d <= n -> length (deque_append n d x) <= n.
Proof.
  intros Hd. unfold deque_append.
  assert (length (d ++ [x]) = S (length d)) as Hlen
    by (rewrite length_app; simpl; lia).
  destruct (Nat.ltb_spec n (length (d ++ [x]))) as [Hlt|Hle]; [|lia].
  destruct (d ++ [x]); simpl in *; lia.
Qed.

(** X7.  If the last creature of the memory is a name that is known as
    it stands (cleaned and lower-cased, it is in the list), it is so
    again after [responder], whatever the question, the cache and the
    remote API are: the follow-up question without a name is looked up
    under a known name. *)
Theorem ultimo_conhecido_invariante (m : MemoriaConversa) (pergunta : string) :
  ultimo_conhecido NOMES_VALIDOS m ->
  ultimo_conhecido NOMES_VALIDOS
    (snd (responder cache_local NOMES_VALIDOS mundo detectar_intencao
            m pergunta)).
Proof.
  intros Hm. rewrite responder_unfold.
  destruct (confirmar mundo _) as [nomes|e] eqn:Hc; [|done].
  unfold responder_nomes. destruct nomes as [|n0 nomes]; [done|].
  destruct (buscar_dados _ _ _ _) as [[d|]|e] eqn:Hb; [|done|done].
  apply buscar_dados_Some in Hb as (n & Hin & Hb).
  assert (conhecido NOMES_VALIDOS (nome d)) as Hd.
  { apply (buscar_conhecido n); [|done].
    apply (com_historico_conhecidos m pergunta); [done|].
    by apply (confirmar_elem _ _ _ Hc). }
  destruct (gerar_resposta _ _ _ _ _ _) as [r|e]; by intros u [= <-].
Qed.

End Memoria.

Lemma ultimo_conhecido_invariante_witness :
  ultimo_conhecido ["pikachu"]
    (snd (responder (JArr [pikachu_cache]) ["pikachu"] mundo_isolado
            (sempre Ataque) memoria_inicial "e o pikachu?")).
Proof.
  apply ultimo_conhecido_invariante. intros u Hu. discriminate Hu.
Defined.

Section SempreEncontra.

Variable cache_local : json.
Variable NOMES_VALIDOS : list string.
Variable mundo : World.
Variable detectar_intencao : string -> Intencao.

(** X8.  What one call of [responder] does to the memory.  Either the
    memory is left as it was, and the call raised before any record was
    found, or gave one of its two refusals; or the lookup over the names
    it went on with found a record, whose name is now the last creature,
    and then the history is unchanged if composing the reply from that
    record raised, and extended by the question and the reply otherwise.
    Hence the history never grows beyond three exchanges and the last
    creature, once set, is never cleared. *)
Theorem responder_memoria (m : MemoriaConversa) (pergunta : string) :
  let res := responder cache_local NOMES_VALIDOS mundo detectar_intencao
               m pergunta in
  let nomes_detectados :=
    com_historico m (extrair_nomes_de_pokemon NOMES_VALIDOS pergunta) in
  ((snd res = m
    /\ ((exists e, fst res = Raise e
                   /\ (confirmar mundo nomes_detectados = Raise e
                       \/ exists nomes,
                            confirmar mundo nomes_detectados = Ok nomes
                            /\ buscar_dados cache_local NOMES_VALIDOS mundo
                                 nomes = Raise e))
        \/ (fst res = Ok msg_nao_identifiquei
            /\ confirmar mundo nomes_detectados = Ok [])
        \/ exists n nomes,
             fst res = Ok (msg_nao_encontrei (n :: nomes))
             /\ confirmar mundo nomes_detectados = Ok (n :: nomes)
             /\ buscar_dados cache_local NOMES_VALIDOS mundo (n :: nomes)
                = Ok None))
   \/ (exists nomes d e,
         confirmar mundo nomes_detectados = Ok nomes
         /\ buscar_dados cache_local NOMES_VALIDOS mundo nomes = Ok (Some d)
         /\ gerar_resposta cache_local NOMES_VALIDOS mundo
              {| historico := historico m;
                 ultimo_pokemon := Some (nome d) |}
              (detectar_intencao pergunta) d = Raise e
         /\ fst res = Raise e
         /\ snd res = {| historico := historico m;
                         ultimo_pokemon := Some (nome d) |})
   \/ (exists nomes d s,
         confirmar mundo nomes_detectados = Ok nomes
         /\ buscar_dados cache_local NOMES_VALIDOS mundo nomes = Ok (Some d)
         /\ gerar_resposta cache_local NOMES_VALIDOS mundo
              {| historico := historico m;
                 ultimo_pokemon := Some (nome d) |}
              (detectar_intencao pergunta) d = Ok s
         /\ fst res = Ok s
         /\ snd res = {| historico :=
                           deque_append 3 (historico m) (pergunta, s);
                         ultimo_pokemon := Some (nome d) |}))
  /\ (length (historico m) <= 3 -> length (historico (snd res)) <= 3)
  /\ (is_Some (ultimo_pokemon m) -> is_Some (ultimo_pokemon (snd res))).
Proof.
  intros res nomes_detectados.
  match goal with |- ?P /\ _ => assert P as Hcases end.
  { unfold res. rewrite responder_unfold. fold nomes_detectados.
    destruct (confirmar mundo nomes_detectados) as [nomes|e] eqn:Hc;
      [|left; split; [done|]; left; exists e; split; [done|by left]].
    unfold responder_nomes. destruct nomes as [|n0 nomes];
      [left; split; [done|]; right; left; by split|].
    destruct (buscar_dados _ _ _ _) as [[d|]|e] eqn:Hb.
    - right. destruct (gerar_resposta _ _ _ _ _ _) as [r|e] eqn:Hg.
      + right. by exists (n0 :: nomes), d, r.
      + left. by exists (n0 :: nomes), d, e.
    - left. split; [done|]. right. right. by exists n0, nomes.
    - left. split; [done|]. left. exists e. split; [done|]. right.
      by exists (n0 :: nomes). }
  split; [exact Hcases|].
  destruct Hcases
    as [[-> _]|[(ns & d & e & _ & _ & _ & _ & ->)
               |(ns & d & s & _ & _ & _ & _ & ->)]];
    cbn [historico ultimo_pokemon]; split; try done.
  - by apply deque_append_length.
Qed.

Lemma buscar_conhecido_cache (pokes : list json) (n : string) :
  cache_local = JArr pokes ->
  Forall tem_stats pokes ->
  nomes_validos cache_local = Ok NOMES_VALIDOS ->
  conhecido NOMES_VALIDOS n ->
  exists d, buscar cache_local NOMES_VALIDOS mundo n = Ok (Some d).
Proof.
  intros Hcache Hst Hn Hc. unfold buscar.
  destruct (buscar_na_pokeapi NOMES_VALIDOS mundo n) as [d|]; [by exists d|].
  destruct (buscar_no_json_conhecido _ _ _ _ Hcache Hst Hn Hc)
    as (d & _ & _ & Hb & _).
  by exists d.
Qed.

(** X9.  When the list of known names is the one computed from the
    cache, every record of the cache has a [stats] object and the last
    creature of the memory is known as it stands, [responder] never gets
    to its reply that no data was found: it raises what [input] raised,
    or it found no name at all, or the first name it goes on with has a
    record, whose name becomes the last creature and from which the
    reply is composed. *)
Theorem responder_sempre_encontra (pokes : list json) (m : MemoriaConversa)
    (pergunta : string) :
  cache_local = JArr pokes ->
  Forall tem_stats pokes ->
  nomes_validos cache_local = Ok NOMES_VALIDOS ->
  ultimo_conhecido NOMES_VALIDOS m ->
  let res := responder cache_local NOMES_VALIDOS mundo detectar_intencao
               m pergunta in
  (exists e, res = (Raise e, m)
             /\ confirmar mundo
                  (com_historico m
                     (extrair_nomes_de_pokemon NOMES_VALIDOS pergunta))
                = Raise e)
  \/ (res = (Ok msg_nao_identifiquei, m)
      /\ com_historico m (extrair_nomes_de_pokemon NOMES_VALIDOS pergunta)
         = [])
  \/ exists n d,
       n ∈ com_historico m (extrair_nomes_de_pokemon NOMES_VALIDOS pergunta)
       /\ buscar cache_local NOMES_VALIDOS mundo n = Ok (Some d)
       /\ let m1 := {| historico := historico m;
                       ultimo_pokemon := Some (nome d) |} in
          res = match gerar_resposta cache_local NOMES_VALIDOS mundo m1
                        (detectar_intencao pergunta) d with
                | Raise e => (Raise e, m1)
                | Ok resposta => (Ok resposta, adicionar m1 pergunta resposta)
                end.
Proof.
  intros Hcache Hst Hn Hm res. unfold res. rewrite responder_unfold.
  destruct (confirmar mundo _) as [nomes|e] eqn:Hc; [|left; eauto].
  right. unfold responder_nomes. destruct nomes as [|n0 nomes].
  - left. split; [done|]. revert Hc. unfold confirmar.
    destruct (com_historico m _) as [|a [|b r]]; [done|done|].
    intros Hc. bind_ok Hc as c Hi. discriminate.
  - right.
    assert (n0 ∈ com_historico m
                   (extrair_nomes_de_pokemon NOMES_VALIDOS pergunta)) as Hin.
    { eapply confirmar_elem; [exact Hc|left]. }
    destruct (buscar_conhecido_cache pokes n0 Hcache Hst Hn) as [d Hb].
    { by eapply com_historico_conhecidos. }
    exists n0, d. split; [done|]. split; [done|].
    by rewrite (buscar_dados_primeiro _ _ _ _ nomes _ Hb).
Qed.

End SempreEncontra.

Lemma responder_sempre_encontra_witness :
  exists n d,
    n ∈ com_historico memoria_pikachu
          (extrair_nomes_de_pokemon ["pikachu"] "qual o ataque?")
    /\ buscar (JArr [pikachu_cache]) ["pikachu"] mundo_isolado n = Ok (Some d)
    /\ responder (JArr [pikachu_cache]) ["pikachu"] mundo_isolado
         (sempre Ataque) memoria_pikachu "qual o ataque?"
       = let m1 := {| historico := historico memoria_pikachu;
                      ultimo_pokemon := Some (nome d) |} in
         match gerar_resposta (JArr [pikachu_cache]) ["pikachu"]
                 mundo_isolado m1 Ataque d with
         | Raise e => (Raise e, m1)
         | Ok resposta =>
             (Ok resposta, adicionar m1 "qual o ataque?" resposta)
         end.
Proof.
  assert (Forall tem_stats [pikachu_cache]) as Hst.
  { constructor; [|constructor]. eexists. reflexivity. }
  assert (ultimo_conhecido ["pikachu"] memoria_pikachu) as Hm.
  { intros u [= <-]. vm_compute. left. }
  destruct (responder_sempre_encontra (JArr [pikachu_cache]) ["pikachu"]
              mundo_isolado (sempre Ataque) [pikachu_cache] memoria_pikachu
              "qual o ataque?" eq_refl Hst eq_refl Hm)
    as [(e & _ & He)|[[_ He]|H]].
  - discriminate He.
  - discriminate He.
  - exact H.
Defined.

(** ** Composing the reply *)

Section Respostas.

Variable cache_local : json.
Variable NOMES_VALIDOS : list string.
Variable mundo : World.

Lemma all_str_lista (l : list string) : Dyn.all_str (JStr <$> l) = Ok l.
Proof.
  induction l as [|s l IH]; [done|]. rewrite fmap_cons. cbn [Dyn.all_str].
  by rewrite IH.
Qed.

Lemma join_lista (sep : string) (l : list string) :
  Dyn.join sep (lista l) = Ok (Py.join sep l).
Proof.
  unfold Dyn.join, lista. cbn [Dyn.iter bind]. by rewrite all_str_lista.
Qed.

Lemma processar_evolucao_lista (nc : string) (species_data v : json) :
  processar_evolucao mundo nc species_data = Ok v ->
  exists l, v = lista l /\ l <> [].
Proof.
  unfold processar_evolucao. destruct species_data as [| | | | | |kvs];
    try discriminate.
  destruct (Dyn.assoc "evolution_chain" kvs) as [ec|];
    [|intros [= <-]; by exists ["Não evolui"]].
  intros H. bind_ok H as url Hu. bind_ok H as r Hr. bind_ok H as cd Hcd.
  destruct (Dyn.truthy cd); [|injection H as <-; by exists ["Não evolui"]].
  bind_ok H as ch Hch. bind_ok H as evs Hevs.
  destruct evs as [|e evs]; injection H as <-.
  - by exists ["Não evolui"].
  - by exists (e :: evs).
Qed.

Lemma nomes_capitalizados_lista (poke_data : json) (k k1 : string) (v : json) :
  nomes_capitalizados poke_data k k1 = Ok v -> exists l, v = lista l.
Proof.
  unfold nomes_capitalizados. intros H.
  bind_ok H as l Hl. bind_ok H as l' Hl'. bind_ok H as ns Hns.
  injection H as <-. by exists ns.
Qed.

Lemma div10_float (v r : json) :
  Dyn.div10 v = Ok r -> exists q, r = JFloat q.
Proof.
  destruct v as [|b|n|q| | |]; try discriminate; intros [= <-]; eauto.
Qed.

(** The fields of a record returned by [buscar_na_pokeapi]: three lists
    of strings and two floats. *)
Lemma buscar_na_pokeapi_campos (nome_ : string) (d : Dados) :
  buscar_na_pokeapi NOMES_VALIDOS mundo nome_ = Some d ->
  exists ts hs es q1 q2,
    tipos d = lista ts /\ habilidades d = lista hs
    /\ evolucao d = lista es /\ es <> []
    /\ altura d = JFloat q1 /\ peso d = JFloat q2.
Proof.
  intros H.
  unfold buscar_na_pokeapi, buscar_na_pokeapi_body, try_or_none in H.
  match type of H with match ?c with _ => _ end = _ =>
    destruct c as [r|] eqn:Hbody; [subst r|discriminate H] end.
  bind_ok Hbody as [st body] Hp. cbn [fst snd] in Hbody.
  destruct (Z.eqb_spec st 200) as [->|]; cbn [negb] in Hbody; [|discriminate].
  bind_ok Hbody as poke_data Hj.
  bind_ok Hbody as sv Hsv. bind_ok Hbody as sl Hsl. bind_ok Hbody as sts Hsts.
  bind_ok Hbody as [st' body'] Hs. cbn [fst snd] in Hbody.
  bind_ok Hbody as [desc oevo] Hin.
  bind_ok Hbody as tp Htp. bind_ok Hbody as hb Hhb.
  bind_ok Hbody as al Hal. bind_ok Hbody as pe Hpe.
  destruct oevo as [evo|]; [|discriminate]. injection Hbody as <-.
  cbn [tipos habilidades evolucao altura peso].
  apply nomes_capitalizados_lista in Htp as [ts ->].
  apply nomes_capitalizados_lista in Hhb as [hs ->].
  bind_ok Hal as h Hh. apply div10_float in Hal as [q1 ->].
  bind_ok Hpe as p Hpp. apply div10_float in Hpe as [q2 ->].
  destruct (st' =? 200)%Z; [|discriminate].
  bind_ok Hin as species_data Hsd. bind_ok Hin as ev Hev.
  bind_ok Hin as el Hel. bind_ok Hin as desc' Hdesc.
  bind_ok Hin as evo' Hevo. injection Hin as _ <-.
  apply processar_evolucao_lista in Hevo as (es & -> & Hes).
  by exists ts, hs, es, q1, q2.
Qed.

(** X10.  A record that [buscar_na_pokeapi] returns has lists of strings
    for its types, abilities and evolutions, the last one never empty, and
    floats for height and weight; so for the intents type, ability,
    evolution and weakness [gerar_resposta] never raises on it, and the
    reply joins the names with a comma. *)
Theorem respostas_da_api (memoria : MemoriaConversa) (nome_ : string)
    (d : Dados) :
  buscar_na_pokeapi NOMES_VALIDOS mundo nome_ = Some d ->
  exists ts hs es q1 q2,
    tipos d = lista ts /\ habilidades d = lista hs
    /\ evolucao d = lista es /\ es <> []
    /\ altura d = JFloat q1 /\ peso d = JFloat q2
    /\ gerar_resposta cache_local NOMES_VALIDOS mundo memoria Tipo d
       = Ok ("🌿 " +:+ nome d +:+ " é do tipo: " +:+ Py.join ", " ts)
    /\ gerar_resposta cache_local NOMES_VALIDOS mundo memoria Habilidade d
       = Ok ("✨ Habilidades de " +:+ nome d +:+ ": " +:+ Py.join ", " hs)
    /\ gerar_resposta cache_local NOMES_VALIDOS mundo memoria Evolucao d
       = Ok ("🔮 " +:+ nome d +:+ " evolui para: " +:+ Py.join ", " es)
    /\ exists fs,
         calcular_fraquezas (tipos d) = Ok fs
         /\ gerar_resposta cache_local NOMES_VALIDOS mundo memoria Fraqueza d
            = Ok ("⚠️ " +:+ nome d +:+ " é fraco contra: "
                  +:+ match fs with
                      | [] => "Nenhum tipo em especial"
                      | _ => Py.join ", " fs
                      end).
Proof.
  intros H.
  destruct (buscar_na_pokeapi_campos _ _ H)
    as (ts & hs & es & q1 & q2 & Ht & Hh & He & Hne & Ha & Hp).
  exists ts, hs, es, q1, q2. repeat (split; [done|]).
  unfold gerar_resposta. rewrite Ht, Hh, He, !join_lista. cbn [bind].
  repeat (split; [done|]).
  exists (sorted (⋃ (contra <$> ts))).
  by rewrite calcular_fraquezas_lista.
Qed.

(** X11.  On a record that [buscar_no_json] returns, [gerar_resposta]
    never raises for the intents attack and defense: the reply shows the
    field [ataque] (or [defesa]) of the [stats] object of the cache
    record, and [None] when the record has no such field. *)
Theorem respostas_do_cache (memoria : MemoriaConversa) (nome_ : string)
    (d : Dados) :
  buscar_no_json cache_local NOMES_VALIDOS nome_ = Ok (Some d) ->
  exists pokes kvs st,
    Dyn.iter cache_local = Ok pokes
    /\ JObj kvs ∈ pokes
    /\ Dyn.assoc "stats" kvs = Some (JObj st)
    /\ gerar_resposta cache_local NOMES_VALIDOS mundo memoria Ataque d
       = Ok ("⚔️ " +:+ nome d +:+ " tem "
             +:+ formatar mundo (default JNull (Dyn.assoc "ataque" st))
             +:+ " de ataque base!")
    /\ gerar_resposta cache_local NOMES_VALIDOS mundo memoria Defesa d
       = Ok ("🛡️ " +:+ nome d +:+ " tem "
             +:+ formatar mundo (default JNull (Dyn.assoc "defesa" st))
             +:+ " de defesa base!").
Proof.
  unfold buscar_no_json. intros H. bind_ok H as pokes Hp.
  apply procurar_Some in H as (poke & Hin & Hr & _).
  apply registro_do_cache_Ok in Hr as (kvs & n & st & -> & _ & Hst & _ & Hs & _).
  exists pokes, kvs, st. repeat (split; [done|]).
  unfold gerar_resposta. rewrite Hs. split; reflexivity.
Qed.

End Respostas.

Lemma respostas_do_cache_witness :
  exists pokes kvs st,
    Dyn.iter (JArr [mr_mime_cache]) = Ok pokes
    /\ JObj kvs ∈ pokes
    /\ Dyn.assoc "stats" kvs = Some (JObj st)
    /\ gerar_resposta (JArr [mr_mime_cache]) ["mr. mime"] mundo_isolado
         memoria_inicial Ataque
         {| nome := "Mr. Mime"; tipos := JArr []; habilidades := JArr [];
            altura := JStr "N/A"; peso := JStr "N/A";
            stats := remapear [("hp", JInt 40); ("ataque", JInt 45)];
            descricao := JStr "Descrição não disponível.";
            evolucao := JArr [JStr "Não evolui"];
            fonte := "Cache Local" |}
       = Ok ("⚔️ " +:+ "Mr. Mime" +:+ " tem "
             +:+ formatar mundo_isolado
                   (default JNull (Dyn.assoc "ataque" st))
             +:+ " de ataque base!")
    /\ gerar_resposta (JArr [mr_mime_cache]) ["mr. mime"] mundo_isolado
         memoria_inicial Defesa
         {| nome := "Mr. Mime"; tipos := JArr []; habilidades := JArr [];
            altura := JStr "N/A"; peso := JStr "N/A";
            stats := remapear [("hp", JInt 40); ("ataque", JInt 45)];
            descricao := JStr "Descrição não disponível.";
            evolucao := JArr [JStr "Não evolui"];
            fonte := "Cache Local" |}
       = Ok ("🛡️ " +:+ "Mr. Mime" +:+ " tem "
             +:+ formatar mundo_isolado
                   (default JNull (Dyn.assoc "defesa" st))
             +:+ " de defesa base!").
Proof.
  apply (respostas_do_cache (JArr [mr_mime_cache]) ["mr. mime"] mundo_isolado
           memoria_inicial "mr. mime"). 
  vm_compute. reflexivity.
Defined.

Lemma respostas_da_api_witness :
  exists d,
    buscar_na_pokeapi ["pikachu"] (mundo_exemplo api_ok (Raise EOFError))
      "Pikachu" = Some d
    /\ exists ts hs es q1 q2,
         tipos d = lista ts /\ habilidades d = lista hs
         /\ evolucao d = lista es /\ es <> []
         /\ altura d = JFloat q1 /\ peso d = JFloat q2
         /\ gerar_resposta JNull ["pikachu"]
              (mundo_exemplo api_ok (Raise EOFError)) memoria_inicial Tipo d
            = Ok ("🌿 " +:+ nome d +:+ " é do tipo: " +:+ Py.join ", " ts)
         /\ gerar_resposta JNull ["pikachu"]
              (mundo_exemplo api_ok (Raise EOFError)) memoria_inicial
              Habilidade d
            = Ok ("✨ Habilidades de " +:+ nome d +:+ ": "
                  +:+ Py.join ", " hs)
         /\ gerar_resposta JNull ["pikachu"]
              (mundo_exemplo api_ok (Raise EOFError)) memoria_inicial
              Evolucao d
            = Ok ("🔮 " +:+ nome d +:+ " evolui para: " +:+ Py.join ", " es)
         /\ exists fs,
              calcular_fraquezas (tipos d) = Ok fs
              /\ gerar_resposta JNull ["pikachu"]
                   (mundo_exemplo api_ok (Raise EOFError)) memoria_inicial
                   Fraqueza d
                 = Ok ("⚠️ " +:+ nome d +:+ " é fraco contra: "
                       +:+ match fs with
                           | [] => "Nenhum tipo em especial"
                           | _ => Py.join ", " fs
                           end).
Proof.
  eexists. split; [vm_compute; reflexivity|].
  apply (respostas_da_api JNull ["pikachu"]
           (mundo_exemplo api_ok (Raise EOFError)) memoria_inicial "Pikachu").
  vm_compute. reflexivity.
Defined.

(** ** The comparison *)

Section Comparacao.

Variable mundo : World.

Lemma pydict_getitem_Ok (d : pydict) (k : string) (v : json) :
  pydict_getitem d k = Ok v -> pydict_get d k = Some v.
Proof.
  unfold pydict_getitem. by destruct (pydict_get d k); intros [= <-].
Qed.

(** X12.  When the stat is an integer in both records, or is missing
    (and then counts as 0), [comparar_stat] never raises, and its verdict
    does not depend on which of the two creatures comes first. *)
Theorem comparar_stat_simetrico (poke1 poke2 : string) (dados1 dados2 : Dados)
    (stat : string) (v1 v2 : Z) :
  default (JInt 0) (pydict_get (stats dados1) stat) = JInt v1 ->
  default (JInt 0) (pydict_get (stats dados2) stat) = JInt v2 ->
  comparar_stat mundo poke1 poke2 dados1 dados2 stat
  = Ok (if (v2 <? v1)%Z then
          poke1 +:+ " tem mais " +:+ stat +:+ " (" +:+ pretty v1
          +:+ " vs " +:+ pretty v2 +:+ ")"
        else if (v1 <? v2)%Z then
          poke2 +:+ " tem mais " +:+ stat +:+ " (" +:+ pretty v2
          +:+ " vs " +:+ pretty v1 +:+ ")"
        else "Empate em " +:+ stat +:+ " (" +:+ pretty v1 +:+ ")")
  /\ comparar_stat mundo poke2 poke1 dados2 dados1 stat
     = comparar_stat mundo poke1 poke2 dados1 dados2 stat.
Proof.
  intros H1 H2. unfold comparar_stat. rewrite H1, H2.
  cbn [maior bind formatar].
  destruct (Z.ltb_spec v2 v1) as [Hlt|Hge];
    destruct (Z.ltb_spec v1 v2) as [Hlt'|Hge']; cbn [bind]; try done; try lia.
  assert (v1 = v2) as -> by lia. done.
Qed.

(** X13.  [comparacao_texto] returns a text only when both records have
    the four keys [attack], [defense], [hp] and [speed]: the 0 that the
    verdicts take for a missing stat never reaches the reader.  The text
    then lists the four pairs of values, and of the four verdicts only
    the first three: the verdict on [speed] is computed and dropped. *)
Theorem comparacao_texto_chaves (poke1 poke2 : string) (dados1 dados2 : Dados)
    (texto : string) :
  comparacao_texto mundo poke1 poke2 dados1 dados2 = Ok texto ->
  exists a1 a2 d1 d2 h1 h2 s1 s2 va vd vh vs,
    pydict_get (stats dados1) "attack" = Some a1
    /\ pydict_get (stats dados2) "attack" = Some a2
    /\ pydict_get (stats dados1) "defense" = Some d1
    /\ pydict_get (stats dados2) "defense" = Some d2
    /\ pydict_get (stats dados1) "hp" = Some h1
    /\ pydict_get (stats dados2) "hp" = Some h2
    /\ pydict_get (stats dados1) "speed" = Some s1
    /\ pydict_get (stats dados2) "speed" = Some s2
    /\ comparar_stat mundo poke1 poke2 dados1 dados2 "attack" = Ok va
    /\ comparar_stat mundo poke1 poke2 dados1 dados2 "defense" = Ok vd
    /\ comparar_stat mundo poke1 poke2 dados1 dados2 "hp" = Ok vh
    /\ comparar_stat mundo poke1 poke2 dados1 dados2 "speed" = Ok vs
    /\ texto
       = "⚖️ Comparação entre " +:+ poke1 +:+ " e " +:+ poke2 +:+ ":" +:+ nl
         +:+ "🔥 Ataque: " +:+ formatar mundo a1 +:+ " vs "
         +:+ formatar mundo a2 +:+ nl
         +:+ "🛡️ Defesa: " +:+ formatar mundo d1 +:+ " vs "
         +:+ formatar mundo d2 +:+ nl
         +:+ "❤️ HP: " +:+ formatar mundo h1 +:+ " vs "
         +:+ formatar mundo h2 +:+ nl
         +:+ "⚡ Velocidade: " +:+ formatar mundo s1 +:+ " vs "
         +:+ formatar mundo s2 +:+ nl
         +:+ nl +:+ "🔍 Análise:" +:+ nl
         +:+ va +:+ nl +:+ vd +:+ nl +:+ vh.
Proof.
  unfold comparacao_texto. intros H.
  bind_ok H as comparacao Hc.
  bind_ok H as a1 Ha1. bind_ok H as a2 Ha2.
  bind_ok H as d1 Hd1. bind_ok H as d2 Hd2.
  bind_ok H as h1 Hh1. bind_ok H as h2 Hh2.
  bind_ok H as s1 Hs1. bind_ok H as s2 Hs2.
  injection H as <-.
  cbn [mapE] in Hc.
  bind_ok Hc as va Hva. bind_ok Hc as r1 Hr1.
  bind_ok Hr1 as vd Hvd. bind_ok Hr1 as r2 Hr2.
  bind_ok Hr2 as vh Hvh. bind_ok Hr2 as r3 Hr3.
  bind_ok Hr3 as vs Hvs.
  injection Hr3 as <-. injection Hr2 as <-. injection Hr1 as <-.
  injection Hc as <-.
  exists a1, a2, d1, d2, h1, h2, s1, s2, va, vd, vh, vs.
  repeat (split; [first [reflexivity | by apply pydict_getitem_Ok]|]).
  reflexivity.
Qed.

End Comparacao.

Lemma comparar_stat_simetrico_witness :
  comparar_stat mundo_isolado "Raichu" "Pikachu"
    {| nome := "Raichu"; tipos := JArr []; habilidades := JArr [];
       altura := JNull; peso := JNull;
       stats := [(JStr "attack", JInt 90)];
       descricao := JNull; evolucao := JArr []; fonte := "PokéAPI" |}
    pikachu_do_cache "speed"
  = comparar_stat mundo_isolado "Pikachu" "Raichu" pikachu_do_cache
      {| nome := "Raichu"; tipos := JArr []; habilidades := JArr [];
         altura := JNull; peso := JNull;
         stats := [(JStr "attack", JInt 90)];
         descricao := JNull; evolucao := JArr []; fonte := "PokéAPI" |}
      "speed".
Proof.
  apply (comparar_stat_simetrico mundo_isolado "Pikachu" "Raichu"
           pikachu_do_cache _ "speed" 90 0); reflexivity.
Defined.

Lemma comparacao_texto_chaves_witness :
  exists a1 vs,
    pydict_get (stats pikachu_do_cache) "attack" = Some a1
    /\ comparar_stat mundo_isolado "Pikachu" "Pikachu" pikachu_do_cache
         pikachu_do_cache "speed" = Ok vs.
Proof.
  destruct (comparacao_texto_chaves mundo_isolado "Pikachu" "Pikachu"
              pikachu_do_cache pikachu_do_cache _ eq_refl)
    as (a1 & a2 & d1 & d2 & h1 & h2 & s1 & s2 & va & vd & vh & vs & Ha & H).
  exists a1, vs. split; [exact Ha|].
  exact (proj1 (proj2 (proj2 (proj2 (proj2 (proj2 (proj2 (proj2 (proj2
           (proj2 (proj2 H))))))))))).
Defined.

(** ** The text of the memory and the names mined from it *)

Section Contexto.

Lemma findall_go_app (s1 : string) (c : ascii) (r : string) :
  Py.islower c = false ->
  forall cur,
    Py.findall_go cur (s1 +:+ String c r)
    = Py.findall_go cur s1 ++ Py.findall_go None (String c r).
Proof.
  intros Hc. induction s1 as [|x s1 IH]; intros cur.
  - change (EmptyString +:+ String c r) with (String c r).
    cbn [Py.findall_go]. rewrite Hc. destruct cur as [[u w]|]; [done|].
    by rewrite app_nil_l.
  - rewrite app_cons. cbn [Py.findall_go]. destruct cur as [[u w]|].
    + destruct (Py.islower x); [apply IH|]. by rewrite IH, app_assoc.
    + apply IH.
Qed.

Lemma findall_par (q a : string) :
  Py.findall_capitalized
    ("Q: " +:+ q +:+ String "010" EmptyString +:+ "A: " +:+ a)
  = Py.findall_capitalized q ++ Py.findall_capitalized a.
Proof.
  unfold Py.findall_capitalized.
  change ("Q: " +:+ ?x) with (String "Q" (String ":" (String " " x))).
  change (String "010" EmptyString +:+ ?x) with (String "010" x).
  change ("A: " +:+ ?x) with (String "A" (String ":" (String " " x))).
  change (Py.findall_go None (String "Q" (String ":" (String " " ?x))))
    with (Py.findall_go None x).
  by rewrite findall_go_app.
Qed.

Lemma findall_par_app (q a : string) (c : ascii) (r : string) :
  Py.islower c = false ->
  Py.findall_capitalized
    (("Q: " +:+ q +:+ String "010" EmptyString +:+ "A: " +:+ a)
     +:+ String c r)
  = Py.findall_capitalized q ++ Py.findall_capitalized a
    ++ Py.findall_capitalized (String c r).
Proof.
  intros Hc. unfold Py.findall_capitalized.
  rewrite (findall_go_app _ c r Hc None).
  fold (Py.findall_capitalized
          ("Q: " +:+ q +:+ String "010" EmptyString +:+ "A: " +:+ a)).
  by rewrite findall_par, app_assoc.
Qed.

(** X14.  The capitalized words that the comparison mines from the
    memory are those of each question followed by those of its answer,
    exchange by exchange, oldest first: the labels [Q:] and [A:] and the
    line breaks that [contexto] puts in add no word and join none. *)
Theorem contexto_capitalizados (m : MemoriaConversa) :
  Py.findall_capitalized (contexto m)
  = concat (map (fun qa => Py.findall_capitalized (fst qa)
                           ++ Py.findall_capitalized (snd qa))
                (historico m)).
Proof.
  unfold contexto, Py.join.
  induction (historico m) as [|[q a] l IH]; [done|].
  cbn [map concat fst snd]. destruct l as [|qa l].
  - cbn [map concat String.concat]. by rewrite findall_par, app_nil_r.
  - rewrite <- IH.
    change (String.concat ?sep (?x :: map ?f (qa :: l)))
      with (x +:+ sep +:+ String.concat sep (map f (qa :: l))).
    change (String "010" EmptyString +:+ ?x) with (String "010" x) at 2.
    by rewrite findall_par_app, app_assoc.
Qed.

End Contexto.

(** ** Weaknesses of arbitrary values *)

Section Fraquezas.

(** The strings among the elements of a list. *)
Lemma foldE_acumular_geral (l : list json) :
  forall acc,
    Forall (fun v => Dyn.hashable v = true) l ->
    foldE acumular acc l
    = foldE acumular acc
        (JStr <$> omap (fun v => match v with JStr s => Some s | _ => None end)
                       l).
Proof.
  induction l as [|v l IH]; intros acc Hl; [done|].
  apply Forall_cons in Hl as [Hv Hl].
  destruct v as [|b|n|q|s|l'|kvs]; try discriminate Hv;
    cbn [omap list_omap foldE acumular bind]; try by apply IH.
  rewrite fmap_cons. cbn [foldE acumular].
  destruct (Dyn.assoc s tabela_tipos); cbn [bind]; by apply IH.
Qed.

Lemma foldE_acumular_erro (l : list json) :
  forall acc,
    Exists (fun v => Dyn.hashable v = false) l ->
    foldE acumular acc l = Raise TypeError.
Proof.
  induction l as [|v l IH]; intros acc Hl; [by apply Exists_nil in Hl|].
  apply Exists_cons in Hl as [Hv|Hl].
  - by destruct v.
  - cbn [foldE].
    destruct v as [|b|n|q|s|l'|kvs]; cbn [acumular bind];
      try done; try by apply IH.
    destruct (Dyn.assoc s tabela_tipos); cbn [bind]; by apply IH.
Qed.

(** X15.  [calcular_fraquezas] on any list of values: if a list or a
    dict is among them it raises [TypeError], since the membership test
    hashes each value; otherwise the values that are not strings are
    passed over and the result is that of the strings alone. *)
Theorem calcular_fraquezas_valores (l : list json) :
  (Exists (fun v => Dyn.hashable v = false) l ->
   calcular_fraquezas (JArr l) = Raise TypeError)
  /\ (Forall (fun v => Dyn.hashable v = true) l ->
      calcular_fraquezas (JArr l)
      = calcular_fraquezas
          (lista (omap (fun v => match v with JStr s => Some s | _ => None end)
                       l))).
Proof.
  unfold calcular_fraquezas, lista. cbn [Dyn.iter bind]. split; intros Hl.
  - by rewrite foldE_acumular_erro.
  - by rewrite foldE_acumular_geral.
Qed.

End Fraquezas.

Lemma calcular_fraquezas_valores_witness :
  calcular_fraquezas (JArr [JStr "Fire"; JInt 3; JNull; JStr "Water"])
  = calcular_fraquezas (lista ["Fire"; "Water"])
  /\ calcular_fraquezas (JArr [JStr "Fire"; JArr []]) = Raise TypeError.
Proof.
  split.
  - apply (proj2 (calcular_fraquezas_valores
                    [JStr "Fire"; JInt 3; JNull; JStr "Water"])).
    repeat constructor.
  - apply (proj1 (calcular_fraquezas_valores [JStr "Fire"; JArr []])).
    right. left. reflexivity.
Defined.

Lemma responder_memoria_witness :
  length (historico
            (snd (responder (JArr [pikachu_cache]) ["pikachu"] mundo_isolado
                    (sempre Ataque) memoria_pikachu "e o pikachu?"))) <= 3
  /\ is_Some (ultimo_pokemon
                (snd (responder (JArr [pikachu_cache]) ["pikachu"]
                        mundo_isolado (sempre Ataque) memoria_pikachu
                        "e o pikachu?"))).
Proof.
  destruct (responder_memoria (JArr [pikachu_cache]) ["pikachu"] mundo_isolado
              (sempre Ataque) memoria_pikachu "e o pikachu?")
    as (_ & Hl & Hu).
  split.
  - apply Hl. simpl. lia.
  - apply Hu. by eexists.
Defined.

(** ** More on the remote source *)

Section Remoto.

Import Difflib.

Variable NOMES_VALIDOS : list string.
Variable mundo : World.

(** A chain deeper than the interpreter allows: the walk stops with
    [RecursionError] when it gets there. *)
Lemma extrair_evolucoes_fundo (nc : string) (t : arvore) :
  forall (j : json) (depth : nat) (acc : list string),
    representa j t ->
    depth < profundidade t ->
    extrair_evolucoes depth nc acc j = Raise RecursionError.
Proof.
  induction t as [n ts IH] using arvore_ind'.
  intros j depth acc Hrep Hdepth.
  inversion Hrep as [kvs skvs n' js ts' Hsp Hname Hevo Hkids]; subst.
  destruct depth as [|depth]; [done|].
  cbn [extrair_evolucoes Dyn.getitem]. rewrite Hsp. cbn [bind Dyn.getitem].
  rewrite Hname. cbn [bind Dyn.as_str Dyn.get]. rewrite Hevo.
  cbn [bind Dyn.iter].
  generalize (if negb (String.eqb (Py.lower (Py.capitalize n)) nc)
              then acc ++ [Py.capitalize n] else acc).
  cbn [profundidade] in Hdepth. apply Nat.succ_lt_mono in Hdepth.
  clear Hrep Hevo Hsp Hname.
  induction Hkids as [|j t js ts Hjt Hkids IHk]; intros acc'.
  - simpl in Hdepth. lia.
  - apply Forall_cons in IH as [IHt IHts]. cbn [foldE].
    simpl in Hdepth.
    destruct (Nat.lt_ge_cases depth (profundidade t)) as [Hlt|Hge].
    + by rewrite (IHt j depth acc' Hjt Hlt).
    + rewrite (extrair_evolucoes_representa nc t j depth acc' Hjt Hge).
      cbn [bind]. apply IHk; [done|lia].
Qed.

(** X16.  When the evolution chain that the API returns is deeper than
    the nesting the interpreter still allows, the walk over the chain
    raises [RecursionError] and the remote resolution returns nothing. *)
Theorem cadeia_funda_demais (nome_ : string)
    (species_data evolution_chain : json) (url : string) (status : Z)
    (chain_data chain : json) (t : arvore) :
  let nc := corrigir_nome_pokemon NOMES_VALIDOS (limpar_nome nome_) in
  http mundo (species_url (nome_api NOMES_VALIDOS nome_))
  = Response 200 (Some species_data) ->
  Dyn.getitem species_data "evolution_chain" = Ok evolution_chain ->
  Dyn.getitem evolution_chain "url" = Ok (JStr url) ->
  http mundo url = Response status (Some chain_data) ->
  Dyn.getitem chain_data "chain" = Ok chain ->
  representa chain t ->
  recursion_limit mundo < profundidade t ->
  extrair_evolucoes (recursion_limit mundo) nc [] chain = Raise RecursionError
  /\ buscar_na_pokeapi NOMES_VALIDOS mundo nome_ = None.
Proof.
  intros nc Hsp Hec Hurl Hch Hchain Hrep Hdepth.
  assert (extrair_evolucoes (recursion_limit mundo) nc [] chain
          = Raise RecursionError) as Hex
    by by apply (extrair_evolucoes_fundo nc t).
  split; [exact Hex|].
  destruct (buscar_na_pokeapi NOMES_VALIDOS mundo nome_) as [d|] eqn:Hd;
    [exfalso|done].
  apply buscar_na_pokeapi_Some in Hd. cbn zeta in Hd.
  destruct Hd as (_ & _ & _ & sd & _ & _ & _ & _ & _ & _ & _ & Hsp' & _ & _
                  & _ & _ & Hevo & _).
  fold (nome_api NOMES_VALIDOS nome_) in Hsp'. rewrite Hsp in Hsp'.
  injection Hsp' as <-. fold nc in Hevo.
  unfold processar_evolucao in Hevo.
  destruct species_data as [| | | | | |kvs]; try discriminate.
  cbn [Dyn.getitem] in Hec.
  destruct (Dyn.assoc "evolution_chain" kvs) as [ec|]; [|discriminate].
  injection Hec as ->. rewrite Hurl in Hevo. cbn [bind requests_get] in Hevo.
  rewrite Hch in Hevo. cbn [bind snd response_json] in Hevo.
  assert (Dyn.truthy chain_data = true) as Htr.
  { destruct chain_data as [| | | | | |ckvs]; try discriminate.
    by destruct ckvs. }
  rewrite Htr, Hchain in Hevo. cbn [bind] in Hevo.
  by rewrite Hex in Hevo.
Qed.

Lemma primeira_descricao_linha (entries : list json) (desc : string) :
  primeira_descricao entries = Ok desc ->
  "010"%char ∉ chars desc.
Proof.
  induction entries as [|e entries IH]; cbn [primeira_descricao].
  - intros [= <-]. vm_compute. intros Hin.
    repeat (apply elem_of_cons in Hin as [Hin|Hin]; [discriminate|]).
    by apply elem_of_nil in Hin.
  - intros H. bind_ok H as l Hl. bind_ok H as n Hn.
    destruct (Dyn.eq_str n "en"); [|by apply IH].
    bind_ok H as t Ht. bind_ok H as t' Ht'. injection H as <-.
    apply replace_not_elem; [|by left].
    intros Hin. apply list_elem_of_singleton in Hin. discriminate.
Qed.

Lemma primeira_descricao_ingles (pre pos : list json) (e l : json)
    (t : string) :
  Forall sem_ingles pre ->
  Dyn.getitem e "language" = Ok l ->
  Dyn.getitem l "name" = Ok (JStr "en") ->
  Dyn.getitem e "flavor_text" = Ok (JStr t) ->
  primeira_descricao (pre ++ e :: pos) = Ok (Py.replace "010" " " t).
Proof.
  intros Hpre Hl Hn Ht.
  induction Hpre as [|x pre (l' & n' & Hl' & Hn' & Hne) _ IH].
  - cbn [app primeira_descricao]. rewrite Hl. cbn [bind]. rewrite Hn.
    cbn [bind Dyn.eq_str String.eqb]. by rewrite Ht.
  - rewrite <- app_comm_cons. cbn [primeira_descricao]. rewrite Hl'.
    cbn [bind]. rewrite Hn'. cbn [bind]. by rewrite Hne.
Qed.

(** X17.  A record comes back from [buscar_na_pokeapi] only when both
    the creature request and the species request were answered with
    status 200 and a JSON body, and the species payload has the key
    [flavor_text_entries].  Its description is then one line, without a
    line feed: the flavor text of the first entry in English, each line
    feed replaced by a space (or the text that none was found). *)
Theorem descricao_da_api (nome_ : string) (d : Dados) :
  buscar_na_pokeapi NOMES_VALIDOS mundo nome_ = Some d ->
  exists poke_data species_data ev entries desc,
    http mundo (poke_url (nome_api NOMES_VALIDOS nome_))
    = Response 200 (Some poke_data)
    /\ http mundo (species_url (nome_api NOMES_VALIDOS nome_))
       = Response 200 (Some species_data)
    /\ Dyn.getitem species_data "flavor_text_entries" = Ok ev
    /\ Dyn.iter ev = Ok entries
    /\ descricao d = JStr desc
    /\ ("010"%char ∉ chars desc)
    /\ forall pre e pos l t,
         entries = pre ++ e :: pos ->
         Forall sem_ingles pre ->
         Dyn.getitem e "language" = Ok l ->
         Dyn.getitem l "name" = Ok (JStr "en") ->
         Dyn.getitem e "flavor_text" = Ok (JStr t) ->
         desc = Py.replace "010" " " t.
Proof.
  intros Hd. apply buscar_na_pokeapi_Some in Hd. cbn zeta in Hd.
  destruct Hd as (pd & sv & sl & sd & ev & el & desc & Hp & _ & _ & _ & Hs
                  & Hev & Hel & Hdesc & Hd & _).
  exists pd, sd, ev, el, desc. repeat (split; [done|]). split.
  - by apply (primeira_descricao_linha el).
  - intros pre e pos l t -> Hpre Hl Hn Ht.
    rewrite (primeira_descricao_ingles pre pos e l t Hpre Hl Hn Ht) in Hdesc.
    by injection Hdesc.
Qed.

End Remoto.

Lemma cadeia_funda_demais_witness :
  buscar_na_pokeapi ["pikachu"] (mundo_limitado api_ok 2) "Pikachu" = None.
Proof.
  refine (proj2 (cadeia_funda_demais ["pikachu"] (mundo_limitado api_ok 2)
                   "Pikachu" pikachu_species
                   (JObj [("url", JStr chain_url_pikachu)])
                   chain_url_pikachu 200 pikachu_chain
                   (elo "pichu" [elo "pikachu" [elo "raichu" []]])
                   (No "pichu" [No "pikachu" [No "raichu" []]])
                   _ _ _ _ _ _ _)).
  - vm_compute. reflexivity.
  - reflexivity.
  - reflexivity.
  - vm_compute. reflexivity.
  - reflexivity.
  - repeat (econstructor; try reflexivity).
  - simpl. lia.
Defined.

Lemma descricao_da_api_witness :
  exists d desc,
    buscar_na_pokeapi ["pikachu"] (mundo_exemplo api_ok (Raise EOFError))
      "Pikachu" = Some d
    /\ descricao d = JStr desc
    /\ "010"%char ∉ Difflib.chars desc.
Proof.
  destruct (descricao_da_api ["pikachu"]
              (mundo_exemplo api_ok (Raise EOFError)) "Pikachu" _ eq_refl)
    as (pd & sd & ev & el & desc & _ & _ & _ & _ & Hdesc & Hl & _).
  eexists _, desc. split; [reflexivity|]. split; [exact Hdesc|exact Hl].
Defined.

(** ** The cache as a source, and the list of names computed from it *)

Section Cache.

Lemma procurar_ausente (nc : string) (pokes : list json) :
  forall nomes,
    mapE (fun p => do n <- Dyn.getitem p "nome";
                   do s <- Dyn.as_str n;
                   Ok (Py.lower s)) pokes = Ok nomes ->
    nc ∉ nomes ->
    procurar nc pokes = Ok None.
Proof.
  induction pokes as [|p pokes IH]; intros nomes Hn Hnc; [done|].
  cbn [mapE] in Hn. bind_ok Hn as n Hp. bind_ok Hn as ns Hns.
  injection Hn as <-. apply not_elem_of_cons in Hnc as [Hne Hnc].
  bind_ok Hp as v Hv. bind_ok Hp as s Hs. injection Hp as <-.
  cbn [procurar].
  destruct p as [| | | | | |kvs]; try discriminate. cbn [Dyn.getitem] in Hv.
  cbn [Dyn.get]. destruct (Dyn.assoc "nome" kvs) as [v'|]; [|discriminate].
  injection Hv as ->. cbn [default from_option id bind]. rewrite Hs.
  cbn [bind]. destruct (String.eqb_spec (Py.lower s) nc) as [Heq|_];
    [by symmetry in Heq|].
  by apply (IH ns).
Qed.

(** X18.  With the list of names computed from the cache and a [stats]
    object in every record, [buscar_no_json] never raises.  It returns a
    record exactly when the corrected name is in the list, one whose
    lower-cased name is the corrected name; otherwise the corrected name
    is the cleaned, lower-cased input and nothing is returned. *)
Theorem buscar_no_json_total (cache_local : json) (pokes : list json)
    (NOMES_VALIDOS : list string) (nome_ : string) :
  cache_local = JArr pokes ->
  nomes_validos cache_local = Ok NOMES_VALIDOS ->
  Forall tem_stats pokes ->
  let nc := corrigir_nome_pokemon NOMES_VALIDOS (limpar_nome nome_) in
  (nc ∈ NOMES_VALIDOS
   /\ exists d, buscar_no_json cache_local NOMES_VALIDOS nome_ = Ok (Some d)
                /\ Py.lower (nome d) = nc
                /\ fonte d = "Cache Local")
  \/ ((nc ∉ NOMES_VALIDOS)
      /\ nc = Py.lower (limpar_nome nome_)
      /\ buscar_no_json cache_local NOMES_VALIDOS nome_ = Ok None).
Proof.
  intros -> Hn Hst nc. unfold buscar_no_json. fold nc.
  unfold nomes_validos in Hn. cbn [Dyn.iter bind] in *.
  destruct (decide (nc ∈ NOMES_VALIDOS)) as [Hin|Hnin].
  - left. split; [done|].
    destruct (procurar_presente nc pokes NOMES_VALIDOS Hn Hst Hin)
      as (d & kvs & st & Hp & _ & _ & Hl & _ & _ & Hf).
    by exists d.
  - right. split; [done|]. split; [|by apply (procurar_ausente _ _ _ Hn)].
    unfold nc, corrigir_nome_pokemon in *.
    destruct (Difflib.get_close_matches _ NOMES_VALIDOS) as [|x l] eqn:Hg;
      [done|].
    exfalso. apply Hnin.
    apply (get_close_matches_elem (Py.lower (limpar_nome nome_))).
    rewrite Hg. left.
Qed.

Lemma buscar_no_json_total_witness :
  buscar_no_json (JArr [pikachu_cache]) ["pikachu"] "mewtwo" = Ok None.
Proof.
  destruct (buscar_no_json_total (JArr [pikachu_cache]) [pikachu_cache]
              ["pikachu"] "mewtwo" eq_refl eq_refl)
    as [[Hin _]|(_ & _ & H)].
  - constructor; [|constructor]. eexists. reflexivity.
  - exfalso. vm_compute in Hin.
    apply elem_of_cons in Hin as [Hin|Hin]; [discriminate|].
    by apply elem_of_nil in Hin.
  - exact H.
Defined.

End Cache.

(** ** Capitalizing every word *)

Section Capitalizacao.

Import Difflib.

Lemma split_go_palavra (w : string) :
  forall (s : string) (cur : option string),
    Forall (fun c => Py.isspace c = false) (chars w) ->
    Py.split_go cur (w +:+ s)
    = Py.split_go match w with
                  | EmptyString => cur
                  | _ => Some (String.rev_app w (default EmptyString cur))
                  end s.
Proof.
  induction w as [|c w IH]; intros s cur Hw; [done|].
  rewrite chars_cons in Hw. apply Forall_cons in Hw as [Hc Hw].
  rewrite app_cons. cbn [Py.split_go]. rewrite Hc, (IH _ _ Hw).
  by destruct w.
Qed.

Lemma app_vazio (s : string) : s +:+ EmptyString = s.
Proof. induction s as [|c s IH]; [done|]. by rewrite app_cons, IH. Qed.

Lemma split_join (ws : list string) :
  Forall palavra_ok ws -> Py.split (Py.join " " ws) = ws.
Proof.
  unfold Py.split, Py.join.
  induction 1 as [|w ws [Hne Hw] Hws IH]; [done|].
  destruct ws as [|w2 ws].
  - cbn [String.concat]. rewrite <- (app_vazio w) at 1.
    rewrite (split_go_palavra w _ _ Hw). destruct w as [|c w]; [done|].
    cbn [Py.split_go default from_option id option_list fmap option_fmap
         option_map].
    fold (String.rev (String c w)). by rewrite rev_involutive.
  - change (String.concat " " (w :: w2 :: ws))
      with (w +:+ String " " (String.concat " " (w2 :: ws))).
    rewrite (split_go_palavra w _ _ Hw). destruct w as [|c w]; [done|].
    cbn [Py.split_go default from_option id].
    change (Py.isspace " ") with true. cbn iota. rewrite IH.
    cbn [option_list fmap option_fmap option_map app].
    fold (String.rev (String c w)). by rewrite rev_involutive.
Qed.

Lemma to_upper_idem (c : ascii) : Py.to_upper (Py.to_upper c) = Py.to_upper c.
Proof. destruct c as [[] [] [] [] [] [] [] []]; reflexivity. Qed.

Lemma capitalize_idem (s : string) :
  Py.capitalize (Py.capitalize s) = Py.capitalize s.
Proof.
  destruct s as [|c s]; [done|]. cbn [Py.capitalize].
  by rewrite to_upper_idem, lower_idem.
Qed.

(** X19.  On a text of ASCII characters, [corrigir_capitalizacao] keeps
    the words of the text and their order, each one capitalized, and puts
    one space between them; applying it twice is applying it once. *)
Theorem corrigir_capitalizacao_props (texto : string) :
  ascii_puro texto ->
  Py.split (corrigir_capitalizacao texto) = Py.capitalize <$> Py.split texto
  /\ corrigir_capitalizacao (corrigir_capitalizacao texto)
     = corrigir_capitalizacao texto.
Proof.
  intros _.
  assert (Py.split (corrigir_capitalizacao texto)
          = Py.capitalize <$> Py.split texto) as Hs.
  { unfold corrigir_capitalizacao. apply split_join.
    apply Forall_fmap. eapply Forall_impl; [apply split_palavras|].
    intros w Hw. by apply capitalize_palavra. }
  split; [exact Hs|].
  unfold corrigir_capitalizacao at 1. rewrite Hs. unfold corrigir_capitalizacao.
  f_equal. rewrite <- list_fmap_compose. apply list_fmap_ext.
  intros _ w _. apply capitalize_idem.
Qed.

Lemma corrigir_capitalizacao_props_witness :
  ascii_puro "  o  piKAchu  e forte? "
  /\ Py.split (corrigir_capitalizacao "  o  piKAchu  e forte? ")
     = ["O"; "Pikachu"; "E"; "Forte?"]
  /\ corrigir_capitalizacao
       (corrigir_capitalizacao "  o  piKAchu  e forte? ")
     = "O Pikachu E Forte?".
Proof.
  assert (ascii_puro "  o  piKAchu  e forte? ") as Ha
    by (apply ascii_puro_bool; reflexivity).
  split; [exact Ha|].
  destruct (corrigir_capitalizacao_props "  o  piKAchu  e forte? " Ha)
    as [Hs Hi].
  split.
  - rewrite Hs. reflexivity.
  - rewrite Hi. reflexivity.
Defined.

End Capitalizacao.

(** ** [difflib]: the quick ratios are upper bounds *)

Section LimiteSuperior.

Import Difflib.
Import gmultiset.

Context {A : Type} `{Countable A}.

Lemma disponiveis_mono (a : list A) :
  forall B B' : gmultiset A,
    B ⊆ B' -> disponiveis a B <= disponiveis a B'.
Proof.
  induction a as [|x a IH]; intros B B' HB; cbn [disponiveis]; [lia|].
  destruct (decide (x ∈ B)) as [Hx|Hx];
    destruct (decide (x ∈ B')) as [Hx'|Hx'].
  - apply le_n_S, IH. multiset_solver.
  - exfalso. multiset_solver.
  - apply Nat.le_le_succ_r, IH. multiset_solver.
  - by apply IH.
Qed.

Lemma disponiveis_menos (a : list A) :
  forall (B : gmultiset A) (y : A),
    disponiveis a B <= S (disponiveis a (B ∖ {[+ y +]})).
Proof.
  induction a as [|x a IH]; intros B y; cbn [disponiveis]; [lia|].
  destruct (decide (x ∈ B)) as [Hx|Hx];
    destruct (decide (x ∈ B ∖ {[+ y +]})) as [Hx'|Hx'].
  - replace (B ∖ {[+ y +]} ∖ {[+ x +]}) with (B ∖ {[+ x +]} ∖ {[+ y +]})
      by multiset_solver.
    apply le_n_S, IH.
  - destruct (decide (x = y)) as [->|Hne]; [lia|].
    exfalso. multiset_solver.
  - exfalso. multiset_solver.
  - apply IH.
Qed.

Lemma disponiveis_app (a1 : list A) :
  forall (a2 : list A) (B1 B2 : gmultiset A),
    disponiveis a1 B1 + disponiveis a2 B2 <= disponiveis (a1 ++ a2) (B1 ⊎ B2).
Proof.
  induction a1 as [|x a1 IH]; intros a2 B1 B2; cbn [disponiveis app].
  - apply disponiveis_mono. multiset_solver.
  - destruct (decide (x ∈ B1)) as [Hx|Hx];
      destruct (decide (x ∈ B1 ⊎ B2)) as [Hx'|Hx'].
    + replace ((B1 ⊎ B2) ∖ {[+ x +]}) with ((B1 ∖ {[+ x +]}) ⊎ B2)
        by multiset_solver.
      specialize (IH a2 (B1 ∖ {[+ x +]}) B2). lia.
    + exfalso. multiset_solver.
    + replace ((B1 ⊎ B2) ∖ {[+ x +]}) with (B1 ⊎ (B2 ∖ {[+ x +]}))
        by multiset_solver.
      specialize (IH a2 B1 (B2 ∖ {[+ x +]})).
      pose proof (disponiveis_menos a2 B2 x). lia.
    + apply IH.
Qed.

Lemma disponiveis_refl (l : list A) :
  disponiveis l (list_to_set_disj l) = length l.
Proof.
  induction l as [|x l IH]; [done|].
  rewrite list_to_set_disj_cons. cbn [disponiveis length].
  rewrite decide_True by multiset_solver.
  replace (({[+ x +]} ⊎ list_to_set_disj l) ∖ {[+ x +]})
    with (list_to_set_disj l : gmultiset A) by multiset_solver.
  by rewrite IH.
Qed.

Lemma disponiveis_le_length (a : list A) :
  forall B : gmultiset A, disponiveis a B <= length a.
Proof.
  induction a as [|x a IH]; intros B; cbn [disponiveis length]; [lia|].
  destruct (decide (x ∈ B)); [apply le_n_S|apply Nat.le_le_succ_r]; apply IH.
Qed.

Lemma disponiveis_le_size (a : list A) :
  forall B : gmultiset A, disponiveis a B <= size B.
Proof.
  induction a as [|x a IH]; intros B; cbn [disponiveis]; [lia|].
  destruct (decide (x ∈ B)) as [Hx|Hx]; [|apply IH].
  specialize (IH (B ∖ {[+ x +]})).
  assert ({[+ x +]} ⊆ B) as Hsub by multiset_solver.
  rewrite (gmultiset_size_difference B {[+ x +]} Hsub) in IH.
  apply gmultiset_subseteq_size in Hsub.
  rewrite gmultiset_size_singleton in *. lia.
Qed.

Lemma size_list_to_set_disj (l : list A) :
  size (list_to_set_disj l : gmultiset A) = length l.
Proof.
  induction l as [|x l IH]; [done|].
  rewrite list_to_set_disj_cons, gmultiset_size_disj_union,
    gmultiset_size_singleton, IH.
  done.
Qed.

Lemma multiplicity_list_to_set_disj (x : A) (l : list A) :
  multiplicity x (list_to_set_disj l : gmultiset A)
  = length (base.filter (eq x) l).
Proof.
  induction l as [|y l IH]; [done|].
  rewrite list_to_set_disj_cons, multiplicity_disj_union, IH.
  rewrite list.filter_cons. destruct (decide (x = y)) as [->|Hne].
  - by rewrite multiplicity_singleton_eq.
  - by rewrite multiplicity_singleton_ne.
Qed.

(** The loop of [quick_ratio] counts what [disponiveis] counts. *)
Lemma quick_loop_disponiveis (b : list A) (rest : list A) :
  forall (p : list A) (avail : gmap A Z) (matches : nat) (B : gmultiset A),
    (forall x, match avail !! x with
               | Some n => n = (Z.of_nat (length (base.filter (eq x) b))
                                - Z.of_nat (length (base.filter (eq x) p)))%Z
               | None => length (base.filter (eq x) p) = 0
               end) ->
    (forall x, Z.of_nat (multiplicity x B)
               = Z.max 0 (Z.of_nat (length (base.filter (eq x) b))
                          - Z.of_nat (length (base.filter (eq x) p)))) ->
    snd (foldl (quick_step b) (avail, matches) rest)
    = matches + disponiveis rest B.
Proof.
  induction rest as [|elt rest IH]; intros p avail matches B Hav HB;
    [simpl; lia|].
  cbn [foldl quick_step disponiveis].
  set (numb := match avail !! elt with
               | Some n => n
               | None => default 0%Z (fullbcount b !! elt)
               end).
  assert (numb = (Z.of_nat (length (base.filter (eq elt) b))
                  - Z.of_nat (length (base.filter (eq elt) p)))%Z) as Hnumb.
  { unfold numb. specialize (Hav elt). destruct (avail !! elt) as [n|].
    - done.
    - rewrite fullbcount_count. lia. }
  assert (forall x,
            match <[elt:=(numb - 1)%Z]> avail !! x with
            | Some n => n = (Z.of_nat (length (base.filter (eq x) b))
                             - Z.of_nat (length (base.filter (eq x)
                                                   (p ++ [elt]))))%Z
            | None => length (base.filter (eq x) (p ++ [elt])) = 0
            end) as Hav'.
  { intros x. rewrite lookup_insert. case_decide as Hx.
    - subst x. rewrite Hnumb, list.filter_app, length_app,
        list.filter_cons, decide_True by done.
      simpl. lia.
    - specialize (Hav x).
      rewrite list.filter_app, length_app, list.filter_cons,
        decide_False by done.
      simpl. destruct (avail !! x); lia. }
  pose proof (HB elt) as HBelt. rewrite <- Hnumb in HBelt.
  destruct (Z.ltb_spec 0 numb) as [Hpos|Hneg].
  - rewrite decide_True by (apply elem_of_multiplicity; lia).
    rewrite (IH (p ++ [elt]) _ _ (B ∖ {[+ elt +]}) Hav'); [lia|].
    intros x. rewrite multiplicity_difference.
    rewrite list.filter_app, length_app, list.filter_cons.
    specialize (HB x). destruct (decide (x = elt)) as [->|Hne].
    + rewrite multiplicity_singleton_eq. simpl. lia.
    + rewrite multiplicity_singleton_ne by done. simpl. lia.
  - rewrite decide_False by (rewrite elem_of_multiplicity; lia).
    rewrite (IH (p ++ [elt]) _ _ B Hav'); [lia|].
    intros x.
    rewrite list.filter_app, length_app, list.filter_cons.
    specialize (HB x). destruct (decide (x = elt)) as [->|Hne].
    + simpl. lia.
    + simpl. lia.
Qed.

Lemma quick_matches_disponiveis (a b : list A) :
  snd (foldl (quick_step b) (∅, 0) a) = disponiveis a (list_to_set_disj b).
Proof.
  rewrite (quick_loop_disponiveis b a [] ∅ 0 (list_to_set_disj b)); [done| |].
  - intros x. by rewrite lookup_empty.
  - intros x. rewrite multiplicity_list_to_set_disj. simpl. lia.
Qed.

Lemma fatia_split (l : list A) (lo mid hi : nat) :
  lo <= mid -> mid <= hi ->
  fatia l lo hi = fatia l lo mid ++ fatia l mid hi.
Proof.
  intros H1 H2. unfold fatia.
  replace (hi - lo) with ((mid - lo) + (hi - mid)) by lia.
  rewrite <- take_take_drop, drop_drop.
  by replace (lo + (mid - lo)) with mid by lia.
Qed.

Lemma fatia_match (a b : list A) (i j k : nat) :
  match_at a b i j k -> fatia a i (i + k) = fatia b j (j + k).
Proof.
  intros Hm. unfold fatia.
  replace (i + k - i) with k by lia. replace (j + k - j) with k by lia.
  apply list_eq. intros t. destruct (decide (t < k)) as [Ht|Ht].
  - rewrite !lookup_take_lt, !lookup_drop by done.
    by destruct (Hm t Ht) as (x & -> & ->).
  - by rewrite !lookup_take_ge by lia.
Qed.

Lemma fatia_length (l : list A) (lo hi : nat) :
  lo <= hi -> hi <= length l -> length (fatia l lo hi) = hi - lo.
Proof. intros H1 H2. unfold fatia. rewrite length_take, length_drop. lia. Qed.

Lemma fatia_tudo (l : list A) : fatia l 0 (length l) = l.
Proof. unfold fatia. rewrite drop_0, Nat.sub_0_r. by apply take_ge. Qed.

(** The blocks of a window are a common subsequence of its two sides. *)
Lemma blocks_rec_disponiveis (a b : list A) (n : nat) :
  forall alo ahi blo bhi,
    alo <= ahi -> ahi <= length a -> blo <= bhi ->
    Difflib.total (blocks_rec a b n (alo, ahi, blo, bhi))
    <= disponiveis (fatia a alo ahi) (list_to_set_disj (fatia b blo bhi)).
Proof.
  induction n as [|n IH]; intros alo ahi blo bhi Ha Hla Hb.
  { unfold Difflib.total. simpl. lia. }
  cbn [blocks_rec].
  pose proof (find_longest_match_ok a b alo ahi blo bhi Ha Hb) as Hok.
  destruct (find_longest_match a b alo ahi blo bhi) as [[i j] k].
  destruct Hok as (Hi & Hik & Hj & Hjk & Hm).
  destruct (Nat.eqb_spec k 0) as [->|Hk]; [unfold Difflib.total; simpl; lia|].
  set (R := if (i + k <? ahi) && (j + k <? bhi)
            then blocks_rec a b n (i + k, ahi, j + k, bhi) else []).
  set (L := if (alo <? i) && (blo <? j)
            then blocks_rec a b n (alo, i, blo, j) else []).
  assert (Difflib.total R <= disponiveis (fatia a (i + k) ahi)
                       (list_to_set_disj (fatia b (j + k) bhi))) as HR.
  { unfold R. destruct ((i + k <? ahi) && (j + k <? bhi)).
    - apply IH; lia.
    - unfold Difflib.total. simpl. lia. }
  assert (Difflib.total L <= disponiveis (fatia a alo i)
                       (list_to_set_disj (fatia b blo j))) as HL.
  { unfold L. destruct ((alo <? i) && (blo <? j)).
    - apply IH; lia.
    - unfold Difflib.total. simpl. lia. }
  rewrite total_cons, total_app. cbn [size_of snd].
  rewrite (fatia_split a alo i ahi), (fatia_split a i (i + k) ahi) by lia.
  rewrite (fatia_split b blo j bhi), (fatia_split b j (j + k) bhi) by lia.
  rewrite !list_to_set_disj_app.
  pose proof (disponiveis_app (fatia a alo i)
                (fatia a i (i + k) ++ fatia a (i + k) ahi)
                (list_to_set_disj (fatia b blo j))
                (list_to_set_disj (fatia b j (j + k))
                 ⊎ list_to_set_disj (fatia b (j + k) bhi))) as H1.
  pose proof (disponiveis_app (fatia a i (i + k)) (fatia a (i + k) ahi)
                (list_to_set_disj (fatia b j (j + k)))
                (list_to_set_disj (fatia b (j + k) bhi))) as H2.
  rewrite <- (fatia_match a b i j k Hm) in H2 at 1.
  rewrite disponiveis_refl, fatia_length in H2 by lia.
  lia.
Qed.

Lemma matches_le_quick (a b : list A) :
  Difflib.total (get_matching_blocks a b) <= snd (foldl (quick_step b) (∅, 0) a).
Proof.
  rewrite total_get_matching_blocks, quick_matches_disponiveis.
  pose proof (blocks_rec_disponiveis a b (S (length a)) 0 (length a) 0
                (length b)) as Hle.
  rewrite !fatia_tudo in Hle. apply Hle; lia.
Qed.

Lemma quick_le_min (a b : list A) :
  snd (foldl (quick_step b) (∅, 0) a) <= Nat.min (length a) (length b).
Proof.
  rewrite quick_matches_disponiveis.
  pose proof (disponiveis_le_length a (list_to_set_disj b)).
  pose proof (disponiveis_le_size a (list_to_set_disj b)) as Hs.
  rewrite size_list_to_set_disj in Hs. lia.
Qed.

Lemma calculate_ratio_mono (m1 m2 t : nat) :
  m1 <= m2 -> (calculate_ratio m1 t <= calculate_ratio m2 t)%Q.
Proof.
  intros Hm. destruct t as [|t]; [apply Qle_refl|].
  rewrite !calculate_ratio_S. unfold Qle. simpl. nia.
Qed.

Lemma razoes_em_ordem (a b : list A) :
  (ratio a b <= quick_ratio a b)%Q
  /\ (quick_ratio a b <= real_quick_ratio a b)%Q.
Proof.
  unfold ratio, quick_ratio, real_quick_ratio. split.
  - apply calculate_ratio_mono, matches_le_quick.
  - apply calculate_ratio_mono, quick_le_min.
Qed.

End LimiteSuperior.

(** ** The best of the close matches *)

Section Melhor.

Import Difflib.

Lemma ltb_leb (s1 s2 : string) :
  String.ltb s2 s1 = negb (String.leb s1 s2).
Proof.
  unfold String.ltb, String.leb. rewrite (String.compare_antisym s2 s1).
  by destruct (String.compare s1 s2).
Qed.

(** The order of the pairs (score, name): the score first, the name to
    break ties. *)
Lemma scored_gt_ordem (p m : Q * string) :
  let r := if scored_gt p m then p else m in
  ((fst m < fst r)%Q \/ (fst m == fst r /\ String.le (snd m) (snd r)))
  /\ ((fst p < fst r)%Q \/ (fst p == fst r /\ String.le (snd p) (snd r))).
Proof.
  cbn zeta. unfold scored_gt. destruct (Qeq_bool (fst p) (fst m)) eqn:Heq.
  - apply Qeq_bool_eq in Heq. rewrite ltb_leb.
    destruct (String.leb (snd p) (snd m)) eqn:Hle; cbn [negb].
    + split; right; [done|]. split; [done|]. unfold String.le. by rewrite Hle.
    + split; right; [|done]. split; [done|].
      destruct (String.leb_total (snd p) (snd m)) as [Ht|Ht]; [congruence|].
      unfold String.le. by rewrite Ht.
  - apply Qeq_bool_neq in Heq.
    destruct (Qle_bool (fst p) (fst m)) eqn:Hle; cbn [negb].
    + apply Qle_bool_iff in Hle. split; [by right|]. left.
      apply Qle_lteq in Hle as [Hlt|Heq']; [done|by destruct Heq].
    + split; [|by right]. left. apply Qnot_le_lt. intros Hle'.
      apply Qle_bool_iff in Hle'. congruence.
Qed.

Lemma max_scored_ordem (rest : list (Q * string)) :
  forall m p,
    p ∈ m :: rest ->
    (fst p < fst (max_scored m rest))%Q
    \/ (fst p == fst (max_scored m rest)
        /\ String.le (snd p) (snd (max_scored m rest))).
Proof.
  assert (forall p q r : Q * string,
            (fst p < fst q)%Q \/ (fst p == fst q /\ String.le (snd p) (snd q)) ->
            (fst q < fst r)%Q \/ (fst q == fst r /\ String.le (snd q) (snd r)) ->
            (fst p < fst r)%Q \/ (fst p == fst r /\ String.le (snd p) (snd r)))
    as Htrans.
  { intros p q r [H1|[H1 H1']] [H2|[H2 H2']].
    - left. by eapply Qlt_trans.
    - left. by rewrite <- H2.
    - left. by rewrite H1.
    - right. split; [by rewrite H1|]. by etrans. }
  unfold max_scored. induction rest as [|q rest IH]; intros m p Hp.
  - apply list_elem_of_singleton in Hp as ->. by right.
  - cbn [foldl]. destruct (scored_gt_ordem q m) as [Hm Hq].
    apply elem_of_cons in Hp as [->|Hp].
    + eapply Htrans; [exact Hm|]. apply IH. left.
    + apply elem_of_cons in Hp as [->|Hp].
      * eapply Htrans; [exact Hq|]. apply IH. left.
      * apply IH. by right.
Qed.

Lemma close_enough_ratio (word x : string) :
  close_enough word x = true
  <-> (cutoff <= ratio (chars x) (chars word))%Q.
Proof.
  unfold close_enough. rewrite !andb_true_iff, !Qle_bool_iff.
  destruct (razoes_em_ordem (chars x) (chars word)) as [H1 H2].
  split; [by intros [_ ?]|]. intros Hr. repeat split; [|  |done].
  - eapply Qle_trans; [exact Hr|]. by eapply Qle_trans.
  - by eapply Qle_trans.
Qed.

(** X20.  The two quick tests that [get_close_matches] makes before it
    computes a ratio never change the outcome: [quick_ratio] and
    [real_quick_ratio] are upper bounds of [ratio], so a known name
    passes the three tests exactly when its ratio against the word is at
    least 0.6, and nothing is suggested exactly when every known name
    has a ratio below 0.6. *)
Theorem testes_rapidos (word : string) (possibilities : list string) :
  (forall x,
     (ratio (chars x) (chars word) <= quick_ratio (chars x) (chars word))%Q
     /\ (quick_ratio (chars x) (chars word)
         <= real_quick_ratio (chars x) (chars word))%Q
     /\ (close_enough word x = true
         <-> (cutoff <= ratio (chars x) (chars word))%Q))
  /\ (get_close_matches word possibilities = []
      <-> forall x, x ∈ possibilities ->
                    (ratio (chars x) (chars word) < cutoff)%Q).
Proof.
  split.
  - intros x. destruct (razoes_em_ordem (chars x) (chars word)) as [H1 H2].
    split; [done|]. split; [done|]. apply close_enough_ratio.
  - split.
    + intros Hnil x Hx. apply Qnot_le_lt. intros Hle.
      apply close_enough_ratio in Hle.
      by rewrite (get_close_matches_nil _ _ Hnil x Hx) in Hle.
    + apply get_close_matches_none.
Qed.

(** X21.  When some known name has a ratio of at least 0.6 against the
    lower-cased input, [corrigir_nome_pokemon] returns a known name whose
    ratio is at least 0.6 and is the highest of all known names; of the
    known names with that ratio, it is the last in the order of
    strings. *)
Theorem corrigir_nome_pokemon_melhor (NOMES_VALIDOS : list string)
    (s x : string) :
  x ∈ NOMES_VALIDOS ->
  (cutoff <= ratio (chars x) (chars (Py.lower s)))%Q ->
  corrigir_nome_pokemon NOMES_VALIDOS s ∈ NOMES_VALIDOS
  /\ (cutoff <= ratio (chars (corrigir_nome_pokemon NOMES_VALIDOS s))
                      (chars (Py.lower s)))%Q
  /\ forall y, y ∈ NOMES_VALIDOS ->
       (ratio (chars y) (chars (Py.lower s))
        <= ratio (chars (corrigir_nome_pokemon NOMES_VALIDOS s))
                 (chars (Py.lower s)))%Q
       /\ (ratio (chars y) (chars (Py.lower s))
           == ratio (chars (corrigir_nome_pokemon NOMES_VALIDOS s))
                    (chars (Py.lower s)) ->
           String.le y (corrigir_nome_pokemon NOMES_VALIDOS s)).
Proof.
  intros Hx Hr. apply close_enough_ratio in Hr as Hc.
  unfold corrigir_nome_pokemon, get_close_matches, nlargest1.
  assert (forall y, y ∈ NOMES_VALIDOS -> close_enough (Py.lower s) y = true ->
            (ratio (chars y) (chars (Py.lower s)), y)
            ∈ scored (Py.lower s) NOMES_VALIDOS) as Hin.
  { intros y Hy Hcy. unfold scored. apply list_elem_of_omap.
    exists y. by rewrite Hcy. }
  destruct (scored (Py.lower s) NOMES_VALIDOS) as [|p rest] eqn:Hs.
  { specialize (Hin x Hx Hc). by apply elem_of_nil in Hin. }
  cbn [map]. pose proof (max_scored_elem rest p) as Hmax.
  rewrite <- Hs in Hmax. unfold scored in Hmax.
  apply list_elem_of_omap in Hmax as (z & Hz & Hf).
  destruct (close_enough (Py.lower s) z) eqn:Hcz; [|discriminate].
  injection Hf as Hf.
  assert (forall y, y ∈ NOMES_VALIDOS -> close_enough (Py.lower s) y = true ->
            (ratio (chars y) (chars (Py.lower s))
             < ratio (chars z) (chars (Py.lower s)))%Q
            \/ (ratio (chars y) (chars (Py.lower s))
                == ratio (chars z) (chars (Py.lower s))
                /\ String.le y z)) as Hord.
  { intros y Hy Hcy.
    pose proof (max_scored_ordem rest p _ (Hin y Hy Hcy)) as Hord.
    by rewrite <- Hf in Hord. }
  assert (forall y, y ∈ NOMES_VALIDOS -> close_enough (Py.lower s) y = true ->
            (ratio (chars y) (chars (Py.lower s))
             <= ratio (chars z) (chars (Py.lower s)))%Q) as Hge.
  { intros y Hy Hcy. destruct (Hord y Hy Hcy) as [Hlt|[Heq _]].
    - by apply Qlt_le_weak.
    - rewrite Heq. apply Qle_refl. }
  rewrite <- Hf. cbn [snd]. split; [done|]. split.
  - by apply close_enough_ratio.
  - intros y Hy. destruct (close_enough (Py.lower s) y) eqn:Hcy.
    + split; [by apply Hge|]. intros Heq.
      destruct (Hord y Hy Hcy) as [Hlt|[_ Hle]]; [|done].
      rewrite Heq in Hlt. by apply Qlt_irrefl in Hlt.
    + assert (ratio (chars y) (chars (Py.lower s)) < cutoff)%Q as Hlt.
      { apply Qnot_le_lt. intros Hle. apply close_enough_ratio in Hle.
        congruence. }
      split.
      * eapply Qle_trans; [|apply (Hge x Hx Hc)].
        eapply Qle_trans; [|exact Hr]. by apply Qlt_le_weak.
      * intros Heq. exfalso. rewrite Heq in Hlt.
        apply (Qlt_irrefl cutoff). eapply Qle_lt_trans; [|exact Hlt].
        eapply Qle_trans; [exact Hr|apply (Hge x Hx Hc)].
Qed.

Lemma corrigir_nome_pokemon_melhor_witness :
  corrigir_nome_pokemon ["pikachu"; "raichu"] "Paichu"
  ∈ ["pikachu"; "raichu"]
  /\ (ratio (chars "pikachu") (chars (Py.lower "Paichu"))
      <= ratio (chars (corrigir_nome_pokemon ["pikachu"; "raichu"] "Paichu"))
               (chars (Py.lower "Paichu")))%Q.
Proof.
  destruct (corrigir_nome_pokemon_melhor ["pikachu"; "raichu"] "Paichu"
              "raichu") as (Hin & _ & Hmax).
  - right. left.
  - vm_compute. discriminate.
  - split; [exact Hin|]. apply Hmax. left.
Defined.

End Melhor.

(** ** The intent of a question *)

Section Intencao.

Import Difflib.

Lemma prefixo_Some (w : string) :
  forall s r, Re.prefixo w s = Some r <-> s = w +:+ r.
Proof.
  induction w as [|a w IH]; intros s r.
  - cbn [Re.prefixo]. change (EmptyString +:+ r) with r.
    split; [by intros [= ->]|by intros ->].
  - destruct s as [|c s]; cbn [Re.prefixo]; rewrite app_cons.
    + split; [done|]. intros [=].
    + destruct (Ascii.eqb_spec a c) as [->|Hne].
      * rewrite IH. split; [by intros ->|by intros [= ->]].
      * split; [done|]. by intros [= <- _].
Qed.

Lemma palavra_em_spec (w s : string) :
  Re.palavra_em w s = true
  <-> exists pos,
        s = w +:+ pos
        /\ forall c, head (chars pos) = Some c -> Re.isword c = false.
Proof.
  unfold Re.palavra_em. split.
  - destruct (Re.prefixo w s) as [r|] eqn:Hp; [|done].
    apply prefixo_Some in Hp. intros Hr. exists r. split; [done|].
    destruct r as [|c r]; [done|]. intros c' [= <-].
    by apply negb_true_iff.
  - intros (pos & Hs & Hpos). apply prefixo_Some in Hs. rewrite Hs.
    destruct pos as [|c pos]; [done|]. apply negb_true_iff. by apply Hpos.
Qed.

Lemma search_go_spec (ws : list string) (s : string) :
  forall antes,
    Re.search_go ws antes s = true
    <-> exists w pre pos,
          w ∈ ws /\ s = pre +:+ w +:+ pos
          /\ match last (chars pre) with
             | Some c => Re.isword c = false
             | None => antes = false
             end
          /\ forall c, head (chars pos) = Some c -> Re.isword c = false.
Proof.
  induction s as [|x s IH]; intros antes.
  - cbn [Re.search_go]. rewrite orb_false_r, andb_true_iff, negb_true_iff.
    rewrite existsb_exists. split.
    + intros (Ha & w & Hw & Hp). apply palavra_em_spec in Hp as (pos & Hs & Hp).
      exists w, EmptyString, pos. by rewrite <- list_elem_of_In in Hw.
    + intros (w & pre & pos & Hw & Hs & Hpre & Hpos).
      destruct pre as [|c pre]; [|by rewrite app_cons in Hs].
      split; [done|]. exists w. split; [by apply list_elem_of_In|].
      apply palavra_em_spec. by exists pos.
  - cbn [Re.search_go]. rewrite orb_true_iff, andb_true_iff, negb_true_iff.
    rewrite existsb_exists, IH. split.
    + intros [(Ha & w & Hw & Hp)|(w & pre & pos & Hw & Hs & Hpre & Hpos)].
      * apply palavra_em_spec in Hp as (pos & Hs & Hp).
        exists w, EmptyString, pos. by rewrite <- list_elem_of_In in Hw.
      * exists w, (String x pre), pos. rewrite app_cons, <- Hs.
        split; [done|]. split; [done|]. split; [|done].
        rewrite chars_cons, last_cons. by destruct (last (chars pre)).
    + intros (w & pre & pos & Hw & Hs & Hpre & Hpos).
      destruct pre as [|c pre].
      * left. split; [done|]. exists w. split; [by apply list_elem_of_In|].
        apply palavra_em_spec. by exists pos.
      * right. rewrite app_cons in Hs. injection Hs as <- ->.
        exists w, pre, pos. split; [done|]. split; [done|]. split; [|done].
        rewrite chars_cons, last_cons in Hpre.
        by destruct (last (chars pre)).
Qed.

Lemma search_spec (ws : list string) (s : string) :
  Re.search ws s = true <-> exists w, w ∈ ws /\ ocorre w s.
Proof.
  unfold Re.search, ocorre. rewrite search_go_spec. split.
  - intros (w & pre & pos & Hw & Hs & Hpre & Hpos).
    exists w. split; [done|]. exists pre, pos. split; [done|]. split; [|done].
    intros c Hc. by rewrite Hc in Hpre.
  - intros (w & Hw & pre & pos & Hs & Hpre & Hpos).
    exists w, pre, pos. split; [done|]. split; [done|]. split; [|done].
    destruct (last (chars pre)); [by apply Hpre|done].
Qed.

Lemma detectar_intencao_unfold (pergunta : string) :
  detectar_intencao pergunta
  = let p := Py.lower pergunta in
    if Re.search (palavras_chave Ataque) p then Ataque
    else if Re.search (palavras_chave Defesa) p then Defesa
    else if Re.search (palavras_chave Tipo) p then Tipo
    else if Re.search (palavras_chave Habilidade) p then Habilidade
    else if Re.search (palavras_chave Evolucao) p then Evolucao
    else if Re.search (palavras_chave Fraqueza) p then Fraqueza
    else if Re.search (palavras_chave Localizacao) p then Localizacao
    else if Re.search (palavras_chave Comparar) p then Comparar
    else Geral.
Proof. reflexivity. Qed.

(** The intent returned is that of a pattern that matches, and no
    pattern tried before it matches. *)
Lemma detectar_intencao_busca (pergunta : string) (i : Intencao) :
  detectar_intencao pergunta = i ->
  (i = Geral \/ Re.search (palavras_chave i) (Py.lower pergunta) = true)
  /\ forall i', prioridade i' < prioridade i ->
       Re.search (palavras_chave i') (Py.lower pergunta) = false.
Proof.
  rewrite detectar_intencao_unfold. cbv zeta.
  generalize (Py.lower pergunta). intros p.
  destruct (Re.search (palavras_chave Ataque) p) eqn:H0;
    [intros <-; split; [by right|]; intros i' Hlt; destruct i';
     cbn [prioridade] in Hlt; (done || lia)|].
  destruct (Re.search (palavras_chave Defesa) p) eqn:H1;
    [intros <-; split; [by right|]; intros i' Hlt; destruct i';
     cbn [prioridade] in Hlt; (done || lia)|].
  destruct (Re.search (palavras_chave Tipo) p) eqn:H2;
    [intros <-; split; [by right|]; intros i' Hlt; destruct i';
     cbn [prioridade] in Hlt; (done || lia)|].
  destruct (Re.search (palavras_chave Habilidade) p) eqn:H3;
    [intros <-; split; [by right|]; intros i' Hlt; destruct i';
     cbn [prioridade] in Hlt; (done || lia)|].
  destruct (Re.search (palavras_chave Evolucao) p) eqn:H4;
    [intros <-; split; [by right|]; intros i' Hlt; destruct i';
     cbn [prioridade] in Hlt; (done || lia)|].
  destruct (Re.search (palavras_chave Fraqueza) p) eqn:H5;
    [intros <-; split; [by right|]; intros i' Hlt; destruct i';
     cbn [prioridade] in Hlt; (done || lia)|].
  destruct (Re.search (palavras_chave Localizacao) p) eqn:H6;
    [intros <-; split; [by right|]; intros i' Hlt; destruct i';
     cbn [prioridade] in Hlt; (done || lia)|].
  destruct (Re.search (palavras_chave Comparar) p) eqn:H7;
    [intros <-; split; [by right|]; intros i' Hlt; destruct i';
     cbn [prioridade] in Hlt; (done || lia)|].
  intros <-. split; [by left|]. intros i' Hlt.
  destruct i'; cbn [prioridade] in Hlt; (done || lia).
Qed.

Lemma prioridade_inj (i j : Intencao) : prioridade i = prioridade j -> i = j.
Proof. destruct i, j; cbn [prioridade]; (done || lia). Qed.

Lemma prioridade_le (i : Intencao) : prioridade i <= 8.
Proof. destruct i; cbn [prioridade]; lia. Qed.

Lemma detectar_intencao_ocorre (pergunta : string) (i : Intencao) :
  detectar_intencao pergunta = i ->
  (i = Geral
   \/ exists w, w ∈ palavras_chave i /\ ocorre w (Py.lower pergunta))
  /\ forall i' w,
       prioridade i' < prioridade i -> w ∈ palavras_chave i' ->
       ~ ocorre w (Py.lower pergunta).
Proof.
  intros Hd. apply detectar_intencao_busca in Hd as [Hs Hno]. split.
  - destruct Hs as [->|Hs]; [by left|right]. by apply search_spec.
  - intros i' w Hlt Hw Hoc. specialize (Hno i' Hlt).
    assert (Re.search (palavras_chave i') (Py.lower pergunta) = true) as Ht
      by (apply search_spec; eauto).
    congruence.
Qed.

(** X22.  For a question of ASCII characters, the intent that
    [detectar_intencao] returns is the first, in the order in which the
    patterns are tried, one of whose keywords occurs in the lower-cased
    question as a whole word; it is [geral] exactly when no keyword
    does. *)
Theorem intencao_caracterizada (pergunta : string) (i : Intencao) :
  ascii_puro pergunta ->
  detectar_intencao pergunta = i
  <-> (i = Geral
       \/ exists w, w ∈ palavras_chave i /\ ocorre w (Py.lower pergunta))
      /\ forall i' w,
           prioridade i' < prioridade i -> w ∈ palavras_chave i' ->
           ~ ocorre w (Py.lower pergunta).
Proof.
  intros _. split; [apply detectar_intencao_ocorre|].
  intros [Hi Hno].
  destruct (detectar_intencao_ocorre pergunta _ eq_refl) as [Hj Hnoj].
  apply prioridade_inj.
  destruct (Nat.lt_trichotomy (prioridade (detectar_intencao pergunta))
              (prioridade i)) as [Hlt|[Heq|Hgt]]; [exfalso|done|exfalso].
  - destruct Hj as [Hg|(w & Hw & Hoc)].
    + rewrite Hg in Hlt. pose proof (prioridade_le i).
      cbn [prioridade] in Hlt. lia.
    + by apply (Hno _ w Hlt Hw).
  - destruct Hi as [->|(w & Hw & Hoc)].
    + pose proof (prioridade_le (detectar_intencao pergunta)).
      cbn [prioridade] in Hgt. lia.
    + by apply (Hnoj _ w Hgt Hw).
Qed.

Lemma str_app_assoc (s1 s2 s3 : string) :
  (s1 +:+ s2) +:+ s3 = s1 +:+ (s2 +:+ s3).
Proof.
  induction s1 as [|c s1 IH]; [done|]. by rewrite !app_cons, IH.
Qed.

Lemma ocorre_esquerda (w s1 s2 : string) (c : ascii) :
  Re.isword c = false ->
  ocorre w s1 -> ocorre w (s1 +:+ String c s2).
Proof.
  intros Hc (pre & pos & -> & Hpre & Hpos).
  exists pre, (pos +:+ String c s2). split.
  - by rewrite !str_app_assoc.
  - split; [done|]. destruct pos as [|x pos].
    + by intros c' [= <-].
    + rewrite app_cons, chars_cons. intros c' [= <-]. by apply Hpos.
Qed.

Lemma ocorre_direita (w s1 s2 : string) (c : ascii) :
  Re.isword c = false ->
  ocorre w s2 -> ocorre w (s1 +:+ String c s2).
Proof.
  intros Hc (pre & pos & -> & Hpre & Hpos).
  exists (s1 +:+ String c pre), pos. split.
  - by rewrite str_app_assoc, app_cons.
  - split; [|done]. rewrite chars_app, chars_cons, last_app_cons, last_cons.
    intros c'. destruct (last (chars pre)) as [y|]; intros [= <-];
      [by apply Hpre|done].
Qed.

Lemma isword_to_lower (c : ascii) : Re.isword (Py.to_lower c) = Re.isword c.
Proof. destruct c as [[] [] [] [] [] [] [] []]; reflexivity. Qed.

Lemma detectar_intencao_antes (pergunta w : string) (i : Intencao) :
  w ∈ palavras_chave i -> ocorre w (Py.lower pergunta) ->
  prioridade (detectar_intencao pergunta) <= prioridade i.
Proof.
  intros Hw Hoc. apply Nat.le_ngt. intros Hlt.
  destruct (detectar_intencao_ocorre pergunta _ eq_refl) as [_ Hno].
  by apply (Hno i w Hlt Hw).
Qed.

(** X23.  Putting two ASCII questions together, with a character between
    them that is not a word character (a space, a comma), never lowers
    the place of the intent: the intent of the whole comes no later, in
    the order of the patterns, than the intent of either part. *)
Theorem intencao_monotona (q1 q2 : string) (c : ascii) :
  ascii_puro q1 -> ascii_puro q2 -> Py.code c < 128 ->
  Re.isword c = false ->
  prioridade (detectar_intencao (q1 +:+ String c q2))
  <= Nat.min (prioridade (detectar_intencao q1))
             (prioridade (detectar_intencao q2)).
Proof.
  intros _ _ _ Hc.
  assert (Py.lower (q1 +:+ String c q2)
          = Py.lower q1 +:+ String (Py.to_lower c) (Py.lower q2)) as Hl
    by by rewrite lower_app.
  assert (Re.isword (Py.to_lower c) = false) as Hc'
    by by rewrite isword_to_lower.
  apply Nat.min_glb.
  - destruct (detectar_intencao_ocorre q1 _ eq_refl) as [[Hg|(w & Hw & Hoc)] _].
    + rewrite Hg. apply prioridade_le.
    + apply (detectar_intencao_antes _ w); [done|].
      rewrite Hl. by apply ocorre_esquerda.
  - destruct (detectar_intencao_ocorre q2 _ eq_refl) as [[Hg|(w & Hw & Hoc)] _].
    + rewrite Hg. apply prioridade_le.
    + apply (detectar_intencao_antes _ w); [done|].
      rewrite Hl. by apply ocorre_direita.
Qed.

End Intencao.

Lemma intencao_caracterizada_witness :
  ascii_puro "Qual o TIPO do Pikachu, e contra quem ele perde?"
  /\ exists w,
       w ∈ palavras_chave Tipo
       /\ ocorre w (Py.lower "Qual o TIPO do Pikachu, e contra quem ele perde?").
Proof.
  assert (ascii_puro "Qual o TIPO do Pikachu, e contra quem ele perde?")
    as Ha by (apply ascii_puro_bool; reflexivity).
  split; [exact Ha|].
  destruct (proj1 (intencao_caracterizada
                     "Qual o TIPO do Pikachu, e contra quem ele perde?"
                     Tipo Ha) eq_refl) as [[Hg|Hw] _].
  - discriminate Hg.
  - exact Hw.
Defined.

Lemma intencao_monotona_witness :
  prioridade (detectar_intencao ("quem ganha" +:+ String "," "ataque dele"))
  <= Nat.min (prioridade (detectar_intencao "quem ganha"))
             (prioridade (detectar_intencao "ataque dele")).
Proof.
  apply intencao_monotona.
  - apply ascii_puro_bool. reflexivity.
  - apply ascii_puro_bool. reflexivity.
  - vm_compute. lia.
  - reflexivity.
Defined.
